(** * EKF-SLAM estimator of rb5_vSLAM.py: a shallow embedding over the reals

    The estimator [EKF_vSLAM] of [src/rb5_control/src/rb5_vSLAM.py] keeps a
    mean [mu] (a numpy array of shape (3+2M, 1)), a covariance [cov]
    (shape (3+2M, 3+2M)) and the list [observed] of registered tag ids.

    numpy's float64 arrays are modelled as lists of rows of real numbers:
    the statements about the estimator are about exact arithmetic.  The two
    places where float64 behaviour has no real counterpart are made
    explicit in the outcome of [update_EKF]: numpy's [linalg.inv] raising
    [LinAlgError] on a singular matrix, and the division [1 / q] at
    [q = 0], which numpy evaluates to [inf] (the Jacobian is then filled
    with NaN).

    Two parts of the code are modelled on binary64 floats, because their
    results depend on rounding: the bearing wrap of line 174 at the ends
    of its interval ([Wrap64]), and the map helpers of
    [src/rb5_control/src/run_rb5_Roomba.py] ([Roomba]). *)

From Stdlib Require Import Reals List ZArith Lra Lia Bool Arith Sorted.
From Stdlib Require PrimFloat FloatOps SpecFloat.
Import ListNotations.
Local Open Scope R_scope.

(** ** numpy arrays of dimension two, and the operations the estimator uses *)

Module Np.

Definition matrix := list (list R).

Definition nrows (A : matrix) : nat := length A.

Definition ncols (A : matrix) : nat :=
  match A with
  | [] => 0%nat
  | r :: _ => length r
  end.

(** [A[i][j]]: under the shapes the estimator maintains no index is out of
    range (numpy would raise IndexError); the default 0 is never read. *)
Definition get (A : matrix) (i j : nat) : R := nth j (nth i A []) 0.

(** The array of shape (m, n) whose entry (i, j) is [f i j]. *)
Definition mk (m n : nat) (f : nat -> nat -> R) : matrix :=
  map (fun i => map (fun j => f i j) (seq 0 n)) (seq 0 m).

Fixpoint set_nth {A : Type} (l : list A) (i : nat) (v : A) : list A :=
  match l, i with
  | [], _ => []
  | _ :: t, O => v :: t
  | h :: t, S k => h :: set_nth t k v
  end.

(** [A[i, j] = v]; numpy raises IndexError out of range, which the shapes
    the estimator maintains exclude (here the array is then unchanged). *)
Definition set (A : matrix) (i j : nat) (v : R) : matrix :=
  set_nth A i (set_nth (nth i A []) j v).

(** [np.zeros((m, n))], [np.eye(n)], [np.diag(np.array([a, b]))] *)
Definition zeros (m n : nat) : matrix := mk m n (fun _ _ => 0).

Definition eye (n : nat) : matrix :=
  mk n n (fun i j => if Nat.eqb i j then 1 else 0).

Definition diag (d : list R) : matrix :=
  mk (length d) (length d) (fun i j => if Nat.eqb i j then nth i d 0 else 0).

(** [A.T] *)
Definition transpose (A : matrix) : matrix :=
  mk (ncols A) (nrows A) (fun i j => get A j i).

(** [sum k f] is f 0 + ... + f (k-1). *)
Fixpoint sum (k : nat) (f : nat -> R) : R :=
  match k with
  | O => 0
  | S k' => sum k' f + f k'
  end.

(** [np.dot(A, B)] for two arrays of dimension two (the inner dimensions
    agree at every call site; numpy raises ValueError otherwise). *)
Definition dot (A B : matrix) : matrix :=
  mk (nrows A) (ncols B)
     (fun i j => sum (ncols A) (fun k => get A i k * get B k j)).

(** [numpy.linalg.multi_dot] of three arrays picks the cheaper of the two
    parenthesisations from the shapes (numpy's [_multi_dot_three]). *)
Definition multi_dot3 (A B C : matrix) : matrix :=
  let a0 := nrows A in
  let a1b0 := ncols A in
  let b1c0 := nrows C in
  let c1 := ncols C in
  let cost1 := (a0 * b1c0 * (a1b0 + c1))%nat in
  let cost2 := (a1b0 * c1 * (a0 + b1c0))%nat in
  if (cost1 <? cost2)%nat then dot (dot A B) C else dot A (dot B C).

(** [A + B], [A - B] and [c * A] on arrays of one shape. *)
Definition add (A B : matrix) : matrix :=
  mk (nrows A) (ncols A) (fun i j => get A i j + get B i j).

Definition sub (A B : matrix) : matrix :=
  mk (nrows A) (ncols A) (fun i j => get A i j - get B i j).

Definition scale (c : R) (A : matrix) : matrix := map (map (Rmult c)) A.

(** [np.vstack((A, a, b))] with two scalars [a], [b] below a column. *)
Definition vstack (A : matrix) (a b : R) : matrix := A ++ [[a]; [b]].

(** [np.block([[A, B], [C, D]])] *)
Fixpoint hstack (A B : matrix) : matrix :=
  match A, B with
  | r :: A', s :: B' => (r ++ s) :: hstack A' B'
  | _, _ => []
  end.

Definition block (A B C D : matrix) : matrix := hstack A B ++ hstack C D.

(** [numpy.linalg.inv] on a 2 x 2 array (its only use): LAPACK reports a
    singular matrix, and numpy raises [LinAlgError], when elimination meets
    a zero pivot; in exact arithmetic that is a zero determinant. *)
Definition det2 (A : matrix) : R :=
  get A 0 0 * get A 1 1 - get A 0 1 * get A 1 0.

Definition linalg_inv (A : matrix) : option matrix :=
  if Req_dec_T (det2 A) 0 then None
  else Some (scale (/ det2 A)
               [[get A 1 1; - get A 0 1]; [- get A 1 0; get A 0 0]]).

(** [np.linalg.norm] of a vector. *)
Definition norm (v : list R) : R :=
  sqrt (fold_right Rplus 0 (map (fun a => a * a) v)).

(** [math.atan2(y, x)] on the reals (floats also tell -0.0 from 0.0). *)
Definition atan2 (y x : R) : R :=
  if Rlt_dec 0 x then atan (y / x)
  else if Rlt_dec x 0 then
    (if Rle_dec 0 y then atan (y / x) + PI else atan (y / x) - PI)
  else if Rlt_dec 0 y then PI / 2
  else if Rlt_dec y 0 then - PI / 2
  else 0.

(** [a % b] in exact arithmetic: the remainder has the sign of the
    divisor, a - floor(a / b) * b, in [0, b) for a positive b.  On float64
    the sum that moves a negative remainder is rounded and can give b
    itself: see [Wrap64.remainder]. *)
Definition pymod (a b : R) : R := a - IZR (Int_part (a / b)) * b.

(** An array has shape (m, n); the estimator has no empty array. *)
Definition has_shape (A : matrix) (m n : nat) : Prop :=
  length A = m /\ Forall (fun r => length r = n) A /\ (0 < m)%nat.

Definition symmetric (A : matrix) : Prop := transpose A = A.

End Np.

(** ** The estimator *)

Module Ekf.
Import Np.

(** The attributes of an [EKF_vSLAM] object.  [self.Qt], which [predict_EKF]
    stores and nothing reads back, is a local of [predict_EKF] here. *)
Record EKF_vSLAM : Type := mkEKF {
  var_System_noise : R * R;
  var_Sensor_noise : R * R;
  mu : matrix;
  cov : matrix;
  observed : list Z
}.

(** [__init__] *)
Definition init (var_System_noise var_Sensor_noise : R * R) : EKF_vSLAM :=
  {| var_System_noise := var_System_noise;
     var_Sensor_noise := var_Sensor_noise;
     mu := [[0.61]; [0.61]; [0.0]];
     cov := zeros 3 3;
     observed := [] |}.

(** [predict_EKF]: the object after the call; the call returns its
    [(mu, cov)]. *)
Definition predict_EKF (self : EKF_vSLAM) (twist : R * R * R) : EKF_vSLAM :=
  let '(vx, vy, w) := twist in
  let mu_len := length (mu self) in
  let F := eye mu_len in
  let G := set (set (set (zeros mu_len mu_len) 0 0 1) 1 1 1) 2 2 1 in
  let u := set (set (set (zeros mu_len 1) 0 0 vx) 1 0 vy) 2 0 w in
  let Qt :=
    set (set (set (zeros mu_len mu_len)
                  0 0 (fst (var_System_noise self)))
             1 1 (fst (var_System_noise self)))
        2 2 (snd (var_System_noise self)) in
  {| var_System_noise := var_System_noise self;
     var_Sensor_noise := var_Sensor_noise self;
     mu := add (dot F (mu self)) (dot G u);
     cov := add (multi_dot3 F (cov self) (transpose F)) Qt;
     observed := observed self |}.

(** How a call of [update_EKF] can end.  [Ok]: it returns.  [Raised]: an
    exception leaves the method, the object keeping the attributes it had
    at that moment.  [NonFinite]: the division [1 / q] met [q = 0]; numpy
    goes on with [inf] and NaN, which the reals do not have, so the model
    stops there with the attributes of that moment. *)
Inductive exn : Type := LinAlgError | ValueError.

Inductive outcome (A : Type) : Type :=
| Ok (a : A)
| Raised (e : exn) (self : EKF_vSLAM)
| NonFinite (self : EKF_vSLAM).

Arguments Ok {A} a.
Arguments Raised {A} e self.
Arguments NonFinite {A} self.

Definition bind {A B : Type} (o : outcome A) (k : A -> outcome B) : outcome B :=
  match o with
  | Ok a => k a
  | Raised e self => Raised e self
  | NonFinite self => NonFinite self
  end.

Notation "x <- o ;; k" := (bind o (fun x => k))
  (at level 61, o at next level, right associativity).

(** [tagID in lst] and [lst.index(tagID)] of a Python list. *)
Definition contains (tagID : Z) (lst : list Z) : bool :=
  existsb (Z.eqb tagID) lst.

Fixpoint index (tagID : Z) (lst : list Z) : option nat :=
  match lst with
  | [] => None
  | t :: rest =>
      if Z.eqb t tagID then Some 0%nat
      else match index tagID rest with
           | Some j => Some (S j)
           | None => None
           end
  end.

(** [A[:3, :3] = B] *)
Definition assign_block (A B : matrix) : matrix :=
  mk (nrows A) (ncols A)
     (fun i j => if (i <? nrows B)%nat && (j <? ncols B)%nat
                 then get B i j else get A i j).

(** [(d + np.pi) % (2 * np.pi) - np.pi], line 174. *)
Definition wrap_bearing (d : R) : R := pymod (d + PI) (2 * PI) - PI.

(** Lines 115-126: the branch taken for a tag that is not in [observed].
    [x], [y], [theta] are the locals bound at line 100. *)
Definition register (x y theta r phi : R) (tagID : Z) (self : EKF_vSLAM)
  : EKF_vSLAM * nat :=
  let observed' := observed self ++ [tagID] in
  let landmark_x := x + r * cos (phi + theta) in
  let landmark_y := y + r * sin (phi + theta) in
  let mu' := vstack (mu self) landmark_x landmark_y in
  let mu_len := length mu' in
  let cov' := block (cov self) (zeros (mu_len - 2) 2)
                    (zeros 2 (mu_len - 2)) (diag [1e6; 1e6]) in
  ({| var_System_noise := var_System_noise self;
      var_Sensor_noise := var_Sensor_noise self;
      mu := mu'; cov := cov'; observed := observed' |}, mu_len).

(** Lines 140-155: the predicted measurement and the Jacobian. *)
Definition delta_of (x y : R) (mu : matrix) (idx : nat) : matrix :=
  [[get mu idx 0 - x]; [get mu (idx + 1) 0 - y]].

Definition q_of (delta : matrix) : R := get (dot (transpose delta) delta) 0 0.

Definition z_tilde_of (theta : R) (delta : matrix) : matrix :=
  [[sqrt (q_of delta)];
   [atan2 (get delta 1 0) (get delta 0 0) - theta]].

Definition Fxj_of (mu_len idx : nat) : matrix :=
  set (set (assign_block (zeros 5 mu_len) (eye 3)) 3 idx 1) 4 (idx + 1) 1.

Definition J_of (delta : matrix) : matrix :=
  let q := q_of delta in
  scale (1 / q)
    [[- sqrt q * get delta 0 0; - sqrt q * get delta 1 0; 0;
      sqrt q * get delta 0 0; sqrt q * get delta 1 0];
     [get delta 1 0; - get delta 0 0; - q; - get delta 1 0; get delta 0 0]].

(** Line 160: H = J Fxj; line 167: S = H cov H^T + Rt and
    K = cov H^T S^-1; lines 170-174: the innovation, its bearing wrapped. *)
Definition H_of (x y : R) (mu : matrix) (mu_len idx : nat) : matrix :=
  dot (J_of (delta_of x y mu idx)) (Fxj_of mu_len idx).

Definition S_of (H cov : matrix) (var_r var_phi : R) : matrix :=
  add (multi_dot3 H cov (transpose H)) (diag [var_r; var_phi]).

Definition K_of (H cov Sinv : matrix) : matrix :=
  multi_dot3 cov (transpose H) Sinv.

Definition delta_z_of (r phi : R) (z_tilde : matrix) : matrix :=
  let delta_z := sub [[r]; [phi]] z_tilde in
  set delta_z 1 0 (wrap_bearing (get delta_z 1 0)).

(** Lines 128-179: the correction by one observation. *)
Definition correct (x y theta var_r var_phi r phi : R) (tagID : Z)
  (self : EKF_vSLAM) (mu_len : nat) : outcome (EKF_vSLAM * nat) :=
  match index tagID (observed self) with
  | None => Raised ValueError self
  | Some j =>
      let idx := (3 + 2 * j)%nat in
      let delta := delta_of x y (mu self) idx in
      let z_tilde := z_tilde_of theta delta in
      if Req_dec_T (q_of delta) 0 then NonFinite self
      else
        let H := H_of x y (mu self) mu_len idx in
        match linalg_inv (S_of H (cov self) var_r var_phi) with
        | None => Raised LinAlgError self
        | Some Sinv =>
            let K := K_of H (cov self) Sinv in
            let delta_z := delta_z_of r phi z_tilde in
            Ok ({| var_System_noise := var_System_noise self;
                   var_Sensor_noise := var_Sensor_noise self;
                   mu := add (mu self) (dot K delta_z);
                   cov := dot (sub (eye mu_len) (dot K H)) (cov self);
                   observed := observed self |}, mu_len)
        end
  end.

(** Lines 114-126: the loop's state after the test [tagID not in
    self.observed] and its branch. *)
Definition resolve (x y theta r phi : R) (tagID : Z)
  (st : EKF_vSLAM * nat) : EKF_vSLAM * nat :=
  if negb (contains tagID (observed (fst st)))
  then register x y theta r phi tagID (fst st)
  else st.

(** The body of the loop of line 109, on the loop's state: the object and
    the local [mu_len]. *)
Definition update_step (x y theta var_r var_phi : R)
  (st : EKF_vSLAM * nat) (ob : R * R * Z) : outcome (EKF_vSLAM * nat) :=
  let '(posX_landmark, posY_landmark, tagID) := ob in
  let r := norm [posX_landmark; posY_landmark] in
  let phi := atan2 posX_landmark posY_landmark in
  let st := resolve x y theta r phi tagID st in
  correct x y theta var_r var_phi r phi tagID (fst st) (snd st).

Fixpoint update_loop (x y theta var_r var_phi : R)
  (st : EKF_vSLAM * nat) (landmarks : list (R * R * Z)) : outcome EKF_vSLAM :=
  match landmarks with
  | [] => Ok (fst st)
  | ob :: rest =>
      st' <- update_step x y theta var_r var_phi st ob ;;
      update_loop x y theta var_r var_phi st' rest
  end.

(** The loop's state after the observations of a prefix of the batch. *)
Fixpoint update_steps (x y theta var_r var_phi : R)
  (st : EKF_vSLAM * nat) (landmarks : list (R * R * Z))
  : outcome (EKF_vSLAM * nat) :=
  match landmarks with
  | [] => Ok st
  | ob :: rest =>
      st' <- update_step x y theta var_r var_phi st ob ;;
      update_steps x y theta var_r var_phi st' rest
  end.

(** [update_EKF]: the pose, [mu_len] and the sensor noise are read once,
    before the loop (lines 100-106). *)
Definition update_EKF (self : EKF_vSLAM) (landmarks : list (R * R * Z))
  : outcome EKF_vSLAM :=
  let x := get (mu self) 0 0 in
  let y := get (mu self) 1 0 in
  let theta := get (mu self) 2 0 in
  let mu_len := length (mu self) in
  let '(var_r, var_phi) := var_Sensor_noise self in
  update_loop x y theta var_r var_phi (self, mu_len) landmarks.

(** A run of the control loop: calls of the two methods, in order; an
    exception ends the program. *)
Inductive call : Type :=
| Predict (twist : R * R * R)
| Update (landmarks : list (R * R * Z)).

Definition do_call (self : EKF_vSLAM) (c : call) : outcome EKF_vSLAM :=
  match c with
  | Predict twist => Ok (predict_EKF self twist)
  | Update landmarks => update_EKF self landmarks
  end.

Fixpoint run (self : EKF_vSLAM) (calls : list call) : outcome EKF_vSLAM :=
  match calls with
  | [] => Ok self
  | c :: rest => self' <- do_call self c ;; run self' rest
  end.

(** The dimension 3 + 2M of the belief, M the number of registered tags,
    and the invariant of the belief: [mu] is a column of that length and
    [cov] a square array of that size; [cov] is symmetric. *)
Definition dim (self : EKF_vSLAM) : nat :=
  (3 + 2 * length (observed self))%nat.

Definition well_shaped (self : EKF_vSLAM) : Prop :=
  has_shape (mu self) (dim self) 1 /\
  has_shape (cov self) (dim self) (dim self).

Definition well_formed (self : EKF_vSLAM) : Prop :=
  well_shaped self /\ symmetric (cov self).

(** The object's attributes when a call ends: as returned, as the exception
    left them, or as they were when the model stopped at [1 / 0]. *)
Definition state_of {A : Type} (proj : A -> EKF_vSLAM) (o : outcome A)
  : EKF_vSLAM :=
  match o with
  | Ok a => proj a
  | Raised _ self => self
  | NonFinite self => self
  end.

Definition final (o : outcome EKF_vSLAM) : EKF_vSLAM :=
  state_of (fun self => self) o.

(** The invariant of the loop of [update_EKF]: the local [mu_len] is the
    length of [self.mu]. *)
Definition loop_inv (st : EKF_vSLAM * nat) : Prop :=
  well_formed (fst st) /\ snd st = dim (fst st).

(** The registry only grows, at its end. *)
Definition extends (self self' : EKF_vSLAM) : Prop :=
  exists more, observed self' = observed self ++ more.

End Ekf.


(** ** The correction step in the words of the specification (section 4.3)

    Steps 3 to 9 for one observation (r, phi) of the landmark registered at
    index [j], on a belief [mu], [cov]: the definitions follow the
    specification, not the source, and are compared with the source in the
    single-observation theorem. *)

Module Spec.
Import Np.

(** The wrap of step 8: the bearing difference [d] moved by whole turns
    into (-pi, pi]. *)
Definition wrap (d : R) : R :=
  d + IZR (Int_part ((PI - d) / (2 * PI))) * (2 * PI).

Section OneObservation.
Variables (mu cov : matrix) (j : nat) (r phi var_r var_phi : R).

Definition x : R := get mu 0 0.
Definition y : R := get mu 1 0.
Definition theta : R := get mu 2 0.

Definition idx : nat := (3 + 2 * j)%nat.

Definition delta_x : R := get mu idx 0 - x.
Definition delta_y : R := get mu (idx + 1) 0 - y.

Definition q : R := delta_x * delta_x + delta_y * delta_y.

Definition z_tilde_r : R := sqrt q.
Definition z_tilde_phi : R := atan2 delta_y delta_x - theta.

(** Rows 0-2 select the pose, rows 3-4 the two coordinates of the
    landmark. *)
Definition Fxj : matrix :=
  mk 5 (length mu)
     (fun i c =>
        if (i <? 3)%nat then (if Nat.eqb c i then 1 else 0)
        else if Nat.eqb i 3 then (if Nat.eqb c idx then 1 else 0)
        else (if Nat.eqb c (idx + 1) then 1 else 0)).

Definition J : matrix :=
  scale (1 / q)
    [[- sqrt q * delta_x; - sqrt q * delta_y; 0;
      sqrt q * delta_x; sqrt q * delta_y];
     [delta_y; - delta_x; - q; - delta_y; delta_x]].

Definition H : matrix := dot J Fxj.

Definition Rt : matrix := [[var_r; 0]; [0; var_phi]].

Definition S : matrix := add (dot (dot H cov) (transpose H)) Rt.

(** The gain for an inverse [Sinv] of [S]. *)
Definition K (Sinv : matrix) : matrix := dot (dot cov (transpose H)) Sinv.

(** The innovation with the bearing component [w], and the mean it
    gives. *)
Definition innovation (w : R) : matrix := [[r - z_tilde_r]; [w]].

Definition mu_at (w : R) (Sinv : matrix) : matrix :=
  add mu (dot (K Sinv) (innovation w)).

(** Step 8: the bearing component is the difference wrapped into
    (-pi, pi]. *)
Definition delta_z : matrix := innovation (wrap (phi - z_tilde_phi)).

Definition mu' (Sinv : matrix) : matrix :=
  mu_at (wrap (phi - z_tilde_phi)) Sinv.

Definition cov' (Sinv : matrix) : matrix :=
  dot (sub (eye (length mu)) (dot (K Sinv) H)) cov.

End OneObservation.

End Spec.

(** ** Two concrete runs

    The first run uses the noise variances the repository constructs the
    estimator with (line 260); every array is the exact value the methods
    compute.  The second run has all noise variances zero. *)

Module Scenario.
Import Np Ekf.

Definition vs : R * R := (0.1, 0.01).
Definition vn : R * R := (0.01, 0.01).

(** After [predict_EKF((0, 0, 0))] on the new estimator. *)
Definition mu1 : matrix :=
  [[(61 / 100)];
   [(61 / 100)];
   [0]].

Definition cov1 : matrix :=
  [[(1 / 10); 0; 0];
   [0; (1 / 10); 0];
   [0; 0; (1 / 100)]].

(** Tag 7, seen at range 1 straight ahead, is registered at (1.61, 0.61);
    [H_a], [S_a], [K_a] are the Jacobian, innovation covariance and gain of
    its correction, [cov2] the covariance after it. *)
Definition mu2 : matrix :=
  [[(61 / 100)];
   [(61 / 100)];
   [0];
   [(161 / 100)];
   [(61 / 100)]].

Definition cov1r : matrix :=
  [[(1 / 10); 0; 0; 0; 0];
   [0; (1 / 10); 0; 0; 0];
   [0; 0; (1 / 100); 0; 0];
   [0; 0; 0; 1000000; 0];
   [0; 0; 0; 0; 1000000]].

Definition H_a : matrix :=
  [[(-1); 0; 0; 1; 0];
   [0; (-1); (-1); 0; 1]].

Definition S_a : matrix :=
  [[(100000011 / 100); 0];
   [0; (25000003 / 25)]].

Definition K_a : matrix :=
  [[(-10 / 100000011); 0];
   [0; (-5 / 50000006)];
   [0; (-1 / 100000012)];
   [(100000000 / 100000011); 0];
   [0; (25000000 / 25000003)]].

Definition cov2 : matrix :=
  [[(100000001 / 1000000110); 0; 0; (10000000 / 100000011); 0];
   [0; (50000001 / 500000060); (-1 / 1000000120); 0; (2500000 / 25000003)];
   [0; (-1 / 1000000120); (100000011 / 10000001200); 0; (250000 / 25000003)];
   [(10000000 / 100000011); 0; 0; (11000000 / 100000011); 0];
   [0; (2500000 / 25000003); (250000 / 25000003); 0; (3000000 / 25000003)]].

(** After the second [predict_EKF((0, 0, 0))]. *)
Definition cov3 : matrix :=
  [[(100000006 / 500000055); 0; 0; (10000000 / 100000011); 0];
   [0; (100000007 / 500000060); (-1 / 1000000120); 0; (2500000 / 25000003)];
   [0; (-1 / 1000000120); (200000023 / 10000001200); 0; (250000 / 25000003)];
   [(10000000 / 100000011); 0; 0; (11000000 / 100000011); 0];
   [0; (2500000 / 25000003); (250000 / 25000003); 0; (3000000 / 25000003)]].

(** Tag 7 seen again, now at range 2: innovation covariance, gain, and the
    belief after the correction; the pose estimate has moved. *)
Definition S_b : matrix :=
  [[(1200000131 / 10000001100); 0];
   [0; (260000031 / 2000000240)]].

Definition K_b : matrix :=
  [[(-1000000120 / 1200000131); 0];
   [0; (-200000026 / 260000031)];
   [0; (-100000013 / 1300000155)];
   [(100000000 / 1200000131); 0];
   [0; (20000000 / 260000031)]].

Definition mu4 : matrix :=
  [[(-26800004009 / 120000013100)];
   [(61 / 100)];
   [0];
   [(203200021091 / 120000013100)];
   [(61 / 100)]].

Definition cov4 : matrix :=
  [[(700000006 / 6000000655); 0; 0; (130000000 / 1200000131); 0];
   [0; (160000004 / 1300000155); (-100000027 / 13000001550); 0; (28000000 / 260000031)];
   [0; (-100000027 / 13000001550); (2500000283 / 130000015500); 0; (2800000 / 260000031)];
   [(130000000 / 1200000131); 0; 0; (131000000 / 1200000131); 0];
   [0; (28000000 / 260000031); (2800000 / 260000031); 0; (31000000 / 260000031)]].

(** Tag 8, seen at range 1 straight ahead in the same batch, as line 121
    and line 125 register it. *)
Definition mu4r : matrix :=
  [[(-26800004009 / 120000013100)];
   [(61 / 100)];
   [0];
   [(203200021091 / 120000013100)];
   [(61 / 100)];
   [(161 / 100)];
   [(61 / 100)]].

Definition cov4r : matrix :=
  [[(700000006 / 6000000655); 0; 0; (130000000 / 1200000131); 0; 0; 0];
   [0; (160000004 / 1300000155); (-100000027 / 13000001550); 0; (28000000 / 260000031); 0; 0];
   [0; (-100000027 / 13000001550); (2500000283 / 130000015500); 0; (2800000 / 260000031); 0; 0];
   [(130000000 / 1200000131); 0; 0; (131000000 / 1200000131); 0; 0; 0];
   [0; (28000000 / 260000031); (2800000 / 260000031); 0; (31000000 / 260000031); 0; 0];
   [0; 0; 0; 0; 0; 1000000; 0];
   [0; 0; 0; 0; 0; 0; 1000000]].

Definition H_c : matrix :=
  [[(-1); 0; 0; 0; 0; 1; 0];
   [0; (-1); (-1); 0; 0; 0; 1]].

Definition S_c : matrix :=
  [[(120000028300000251 / 120000013100); 0];
   [0; (65000016650000149 / 65000007750)]].

(** The inverse of [S_b]. *)
Definition Sinv_b : matrix :=
  [[(10000001100 / 1200000131); 0];
   [0; (2000000240 / 260000031)]].

Definition s0 : EKF_vSLAM := init vs vn.
Definition s1 : EKF_vSLAM := mkEKF vs vn mu1 cov1 [].
Definition s1r : EKF_vSLAM := mkEKF vs vn mu2 cov1r [7%Z].
Definition s2 : EKF_vSLAM := mkEKF vs vn mu2 cov2 [7%Z].
Definition s3 : EKF_vSLAM := mkEKF vs vn mu2 cov3 [7%Z].
Definition s4 : EKF_vSLAM := mkEKF vs vn mu4 cov4 [7%Z].
Definition s4r : EKF_vSLAM := mkEKF vs vn mu4r cov4r [7%Z; 8%Z].

(** The run with zero noise: tag 7 is registered and corrected, which
    leaves a zero covariance; then tag 8 likewise. *)
Definition zcov1r : matrix :=
  [[0; 0; 0; 0; 0];
   [0; 0; 0; 0; 0];
   [0; 0; 0; 0; 0];
   [0; 0; 0; 1000000; 0];
   [0; 0; 0; 0; 1000000]].

Definition S_z : matrix := [[1000000; 0]; [0; 1000000]].

Definition K_z : matrix := [[0; 0]; [0; 0]; [0; 0]; [1; 0]; [0; 1]].

Definition zmu2 : matrix :=
  [[(61 / 100)]; [(61 / 100)]; [0]; [(161 / 100)]; [(61 / 100)];
   [(161 / 100)]; [(61 / 100)]].

Definition zcov2r : matrix :=
  [[0; 0; 0; 0; 0; 0; 0];
   [0; 0; 0; 0; 0; 0; 0];
   [0; 0; 0; 0; 0; 0; 0];
   [0; 0; 0; 0; 0; 0; 0];
   [0; 0; 0; 0; 0; 0; 0];
   [0; 0; 0; 0; 0; 1000000; 0];
   [0; 0; 0; 0; 0; 0; 1000000]].

Definition K_y : matrix :=
  [[0; 0]; [0; 0]; [0; 0]; [0; 0]; [0; 0]; [1; 0]; [0; 1]].

Definition H_d : matrix :=
  [[(-1); 0; 0; 1; 0; 0; 0];
   [0; (-1); (-1); 0; 1; 0; 0]].

Definition z0 : EKF_vSLAM := init (0, 0) (0, 0).
Definition z0r : EKF_vSLAM := mkEKF (0, 0) (0, 0) mu2 zcov1r [7%Z].
Definition z1 : EKF_vSLAM := mkEKF (0, 0) (0, 0) mu2 (zeros 5 5) [7%Z].
Definition z1r : EKF_vSLAM := mkEKF (0, 0) (0, 0) zmu2 zcov2r [7%Z; 8%Z].
Definition z2 : EKF_vSLAM := mkEKF (0, 0) (0, 0) zmu2 (zeros 7 7) [7%Z; 8%Z].

(** A tag seen at the camera itself, offset (0, 0): it is registered at the
    pose, where q = 0. *)
Definition z0q : EKF_vSLAM :=
  mkEKF (0, 0) (0, 0)
        [[0.61]; [0.61]; [0.0]; [(61 / 100)]; [(61 / 100)]] zcov1r [7%Z].

End Scenario.

(** ** The control loop around the estimator ([__main__] of rb5_vSLAM.py)

    The tag detector, the PID controller and the clock are outside the
    repository's files: a detection message, the controller's output and
    the clock readings are inputs here. *)

Module Loop.
Import Np Ekf.

(** What the loop reads of one entry of [msg.detections]: the tag
    identifier and the pose (position x, y, z; orientation w, x, y, z). *)
Record detection : Type := mkDetection {
  id : Z;
  position : R * R * R;
  orientation : R * R * R * R
}.

(** The two globals shared by the subscriber callback and the loop. *)
Record globals : Type := mkGlobals {
  apriltag_detected : bool;
  landmarks_Info : list detection
}.

(** Lines 192-193: their initial values. *)
Definition globals_init : globals :=
  {| apriltag_detected := false; landmarks_Info := [] |}.

(** [apriltag_callback] (lines 194-201). *)
Definition apriltag_callback (g : globals) (msg_detections : list detection)
  : globals :=
  if Nat.eqb (length msg_detections) 0
  then {| apriltag_detected := false; landmarks_Info := landmarks_Info g |}
  else {| apriltag_detected := true; landmarks_Info := msg_detections |}.

(** Lines 310-312 and 356-358: the observation [[curr_x, curr_z, tag_id]]
    built from a detection, with curr_x = - position.x and
    curr_z = position.z.  The call of [euler_from_quaternion] on the
    orientation has no effect: its result [curr_r] is never read. *)
Definition observation_of (landmark_info : detection) : R * R * Z :=
  let '(pos_x, _, pos_z) := position landmark_info in
  (- pos_x, pos_z, id landmark_info).

(** Lines 296-313, the batch of the first cycle at a waypoint: a
    detection is taken only when its tag is not yet in [landmark_ids]. *)
Fixpoint unique_batch_loop (landmarks : list (R * R * Z))
  (landmark_ids : list Z) (info : list detection) : list (R * R * Z) :=
  match info with
  | [] => landmarks
  | landmark_info :: rest =>
      let tag_id := id landmark_info in
      if negb (contains tag_id landmark_ids)
      then unique_batch_loop (landmarks ++ [observation_of landmark_info])
                             (landmark_ids ++ [tag_id]) rest
      else unique_batch_loop landmarks landmark_ids rest
  end.

Definition unique_batch (info : list detection) : list (R * R * Z) :=
  unique_batch_loop [] [] info.

(** Lines 346-358, the batch of the later cycles: every detection is
    taken. *)
Fixpoint batch_loop (landmarks : list (R * R * Z)) (info : list detection)
  : list (R * R * Z) :=
  match info with
  | [] => landmarks
  | landmark_info :: rest =>
      batch_loop (landmarks ++ [observation_of landmark_info]) rest
  end.

Definition batch (info : list detection) : list (R * R * Z) :=
  batch_loop [] info.

(** One cycle (lines 291-319 with [first] true, lines 341-364 with
    [first] false) on the controller's output [update_value]: the object
    after it and [joint_state], the mean the last method call returned. *)
Definition cycle (first : bool) (self : EKF_vSLAM)
  (update_value : R * R * R) (g : globals) : outcome (EKF_vSLAM * matrix) :=
  let self1 := predict_EKF self update_value in
  if apriltag_detected g
  then
    let landmarks :=
      if first then unique_batch (landmarks_Info g)
      else batch (landmarks_Info g) in
    self2 <- update_EKF self1 landmarks ;; Ok (self2, mu self2)
  else Ok (self1, mu self1).

(** Lines 319 and 364. *)
Definition current_state (joint_state : matrix) : list R :=
  [get joint_state 0 0; get joint_state 1 0; get joint_state 2 0].

(** A field of a CSV row: a float, or a tag identifier. *)
Inductive field : Type :=
| Float (v : R)
| Int (tag : Z).

(** [A.reshape(-1).tolist()] and [A.flatten().tolist()]: the rows one
    after the other. *)
Definition flatten (A : matrix) : list R := concat A.

(** Lines 325-327 and 370-372: the two rows written for one sample. *)
Definition telemetry_rows (time_counter : R) (joint_state : matrix)
  (self : EKF_vSLAM) : list field * list field :=
  ([Float time_counter] ++ map Float (flatten joint_state)
     ++ map Int (observed self),
   map Float (flatten (cov self))).

(** *** Quantities the statements about the loop refer to *)

(** The detections of the last message that had any. *)
Fixpoint last_detections (msgs : list (list detection)) (seen : list detection)
  : list detection :=
  match msgs with
  | [] => seen
  | m :: rest =>
      last_detections rest (match m with [] => seen | _ :: _ => m end)
  end.

(** The detections the first cycle keeps, given the tags already taken. *)
Fixpoint first_sightings (taken : list Z) (info : list detection)
  : list detection :=
  match info with
  | [] => []
  | d :: rest =>
      if contains (id d) taken then first_sightings taken rest
      else d :: first_sightings (taken ++ [id d]) rest
  end.

(** The default of [nth] on a message; it is not read at a position of
    the message. *)
Definition no_detection : detection := mkDetection 0 (0, 0, 0) (0, 0, 0, 0).

(** No detection before position [p] of the message has the tag of the
    detection at [p]. *)
Definition first_of_tag (info : list detection) (p : nat) : bool :=
  negb (existsb (fun d' => Z.eqb (id d') (id (nth p info no_detection)))
                (firstn p info)).

(** The positions of the message that hold the first detection of a tag,
    in increasing order. *)
Definition first_positions (info : list detection) : list nat :=
  filter (first_of_tag info) (seq 0 (length info)).

End Loop.

(** ** Quantities the statements about the belief refer to *)

Module Belief.
Import Np Ekf.

(** The quadratic form x^T A x of a column x. *)
Definition quad (A x : matrix) : R := get (dot (dot (transpose x) A) x) 0 0.

(** A is positive semi-definite: no direction has a negative variance. *)
Definition psd (n : nat) (A : matrix) : Prop :=
  forall x, has_shape x n 1 -> 0 <= quad A x.

(** The variances the constructor was given: none is negative; those of
    the sensor are positive. *)
Definition noise_nonneg (self : EKF_vSLAM) : Prop :=
  0 <= fst (var_System_noise self) /\ 0 <= snd (var_System_noise self) /\
  0 <= fst (var_Sensor_noise self) /\ 0 <= snd (var_Sensor_noise self).

Definition noise_ok (self : EKF_vSLAM) : Prop :=
  noise_nonneg self /\
  0 < fst (var_Sensor_noise self) /\ 0 < snd (var_Sensor_noise self).

(** The belief is well formed and its covariance is one. *)
Definition belief_ok (self : EKF_vSLAM) : Prop :=
  well_formed self /\ psd (dim self) (cov self).

(** What [Qt] adds to entry (i, j) of the covariance at a prediction. *)
Definition pose_noise (self : EKF_vSLAM) (i j : nat) : R :=
  if Nat.eqb i j
  then match i with
       | 0%nat | 1%nat => fst (var_System_noise self)
       | 2%nat => snd (var_System_noise self)
       | _ => 0
       end
  else 0.

(** The sum of entry i of the controls [us], as [G u] lays them out. *)
Definition control_sum (us : list (R * R * R)) (i : nat) : R :=
  fold_right Rplus 0
    (map (fun u : R * R * R =>
            match i with
            | 0%nat => fst (fst u)
            | 1%nat => snd (fst u)
            | 2%nat => snd u
            | _ => 0
            end) us).

(** Where lines 117-118 put the landmark of an observation made from the
    pose (x, y, theta). *)
Definition landmark_at (x y theta : R) (ob : R * R * Z) : matrix :=
  let '(posX_landmark, posY_landmark, _) := ob in
  let r := norm [posX_landmark; posY_landmark] in
  let phi := atan2 posX_landmark posY_landmark in
  [[x + r * cos (phi + theta)]; [y + r * sin (phi + theta)]].

(** The observation is not the point (0, 0), where the range is zero. *)
Definition off_origin (ob : R * R * Z) : Prop :=
  fst (fst ob) <> 0 \/ snd (fst ob) <> 0.

End Belief.

(** ** The map helpers of run_rb5_Roomba.py, on binary64 floats

    The helpers of [src/rb5_control/src/run_rb5_Roomba.py] convert between
    ground positions (metres, Python floats) and cells of the occupancy
    array (Python ints).  Their results depend on the rounding of float
    division, so floats are the primitive binary64 floats here, and
    Python's [int()] and [math.ceil] are computed from the float's
    mantissa and exponent.  The path planners, the controller and ROS are
    outside the repository's files. *)

Module Roomba.
#[local] Set Warnings "-inexact-float".

Import PrimFloat FloatOps SpecFloat.
Local Open Scope Z_scope.

(** The exceptions the helpers can raise. *)
Inductive error : Type := IndexError | OverflowError | ValueError.

Inductive result (A : Type) : Type :=
| Return (a : A)
| Raise (e : error).

Arguments Return {A} a.
Arguments Raise {A} e.

Definition and_then {A B : Type} (r : result A) (k : A -> result B) : result B :=
  match r with
  | Return a => k a
  | Raise e => Raise e
  end.

Notation "x <- r ;; k" := (and_then r (fun x => k))
  (at level 61, r at next level, right associativity).

(** [int(f)]: truncation towards zero; [ValueError] on NaN and
    [OverflowError] on an infinity. *)
Definition int_of_float (f : float) : result Z :=
  match Prim2SF f with
  | S754_nan => Raise ValueError
  | S754_infinity _ => Raise OverflowError
  | S754_zero _ => Return 0
  | S754_finite s m e =>
      let a := if 0 <=? e then Z.pos m * 2 ^ e else Z.pos m / 2 ^ (- e) in
      Return (if s then - a else a)
  end.

(** [math.ceil(f)]: the least integer that is not below f. *)
Definition ceil (f : float) : result Z :=
  match Prim2SF f with
  | S754_nan => Raise ValueError
  | S754_infinity _ => Raise OverflowError
  | S754_zero _ => Return 0
  | S754_finite s m e =>
      if 0 <=? e then Return (if s then - (Z.pos m * 2 ^ e)
                              else Z.pos m * 2 ^ e)
      else if s then Return (- (Z.pos m / 2 ^ (- e)))
      else Return (- (Z.neg m / 2 ^ (- e)))
  end.

(** The conversion of an int operand of a float operation: to the nearest
    float, ties to even; [OverflowError] when that is beyond the largest
    float. *)
Definition float_of_int (z : Z) : result float :=
  if Z.abs z <? 2 ^ 1024 - 2 ^ 970
  then Return (SF2Prim (binary_normalize prec emax z 0 false))
  else Raise OverflowError.

(** [max(a, b)] of two floats: b when [b > a], else a. *)
Definition pymax (a b : float) : float := if ltb a b then b else a.

(** The value of a module-level statement of the script.  The script runs
    them once, when it starts, and stops at an exception; [module_loads]
    below shows that none raises, so the default is never used. *)
Definition value {A : Type} (default : A) (r : result A) : A :=
  match r with
  | Return a => a
  | Raise _ => default
  end.

(** *** Map parameters (lines 22-48) *)

(** The values of [dict_wall_lm], lm1 to lm12 in the order of insertion;
    the keys are never read. *)
Definition dict_wall_lm : list (float * float) :=
  [(3.05, 2.44); (0.61, 3.05); (2.44, 0.0); (3.05, 0.61); (0.61, 0.0);
   (0.0, 0.61); (0.0, 2.44); (2.44, 3.05); (3.05, 1.525); (1.525, 3.05);
   (1.525, 0.0); (0.0, 1.525)]%float.

Definition rb5_start : float * float := (0.61, 0.61)%float.
Definition rb5_goal : float * float := (2.44, 2.44)%float.
Definition cell_size : float := 0.1%float.
Definition rb5_clearance : float := 0.2%float.

(** *** Helper functions (lines 64-176) *)

(** Lines 66-70: the largest y and the largest x of the landmarks (the loop
    starts from the ints 0, 0, which compare like the float 0.0). *)
Definition height_width : float * float :=
  fold_left (fun (hw : float * float) (value : float * float) =>
               let '(height, width) := hw in
               let '(x, y) := value in
               (pymax height y, pymax width x))
            dict_wall_lm (0, 0)%float.

Definition height : float := fst height_width.
Definition width : float := snd height_width.

(** Line 71. *)
Definition arr_h_result : result Z :=
  h <- int_of_float (height / cell_size)%float ;; Return (h + 1).

Definition arr_w_result : result Z :=
  w <- int_of_float (width / cell_size)%float ;; Return (w + 1).

Definition arr_h : Z := value 0 arr_h_result.
Definition arr_w : Z := value 0 arr_w_result.

(** A numpy array of dimension two holding floats, as the list of its
    rows. *)
Definition grid : Type := list (list float).

(** [np.zeros((h, w))] *)
Definition np_zeros (h w : Z) : grid :=
  repeat (repeat 0%float (Z.to_nat w)) (Z.to_nat h).

Definition shape0 (map : grid) : Z := Z.of_nat (length map).

Definition shape1 (map : grid) : Z :=
  match map with
  | [] => 0
  | r :: _ => Z.of_nat (length r)
  end.

(** [map[x][y]] for an index in range. *)
Definition item (map : grid) (x y : Z) : float :=
  nth (Z.to_nat y) (nth (Z.to_nat x) map []) 0%float.

(** numpy's index along an axis of length n: a negative index counts from
    the end; [IndexError] out of [-n, n). *)
Definition axis_index (n i : Z) : result nat :=
  if (- n <=? i) && (i <? n)
  then Return (Z.to_nat (if i <? 0 then i + n else i))
  else Raise IndexError.

(** [map[x, y] = v] *)
Definition setitem (map : grid) (x y : Z) (v : float) : result grid :=
  i <- axis_index (shape0 map) x ;;
  j <- axis_index (shape1 map) y ;;
  Return (Np.set_nth map i (Np.set_nth (nth i map []) j v)).

(** [map[x, :] = v] and [map[:, y] = v] *)
Definition setrow (map : grid) (x : Z) (v : float) : result grid :=
  i <- axis_index (shape0 map) x ;;
  Return (Np.set_nth map i (List.map (fun _ => v) (nth i map []))).

Definition setcol (map : grid) (y : Z) (v : float) : result grid :=
  j <- axis_index (shape1 map) y ;;
  Return (List.map (fun r => Np.set_nth r j v) map).

(** [range(a, b)] *)
Definition range (a b : Z) : list Z :=
  List.map (fun k => a + Z.of_nat k) (seq 0 (Z.to_nat (b - a))).

(** A [for] loop over a list, threading the array. *)
Fixpoint for_each {A : Type} (l : list A) (body : grid -> A -> result grid)
  (map : grid) : result grid :=
  match l with
  | [] => Return map
  | a :: rest => map' <- body map a ;; for_each rest body map'
  end.

(** [ground_position_transform] (lines 76-81) *)
Definition ground_position_transform (ground_pos : float * float)
  : float * float :=
  let '(x, y) := ground_pos in ((height - y)%float, x).

(** [array_position_transform] (lines 83-89) *)
Definition array_position_transform (map_pos : float * float)
  : result (Z * Z) :=
  let '(x, y) := map_pos in
  row <- int_of_float (x / cell_size)%float ;;
  col <- int_of_float (y / cell_size)%float ;;
  Return (row, col).

(** [ground_to_array_transform] (lines 91-99) *)
Definition ground_to_array_transform (ground_pos : float * float)
  : result (Z * Z) :=
  array_position_transform (ground_position_transform ground_pos).

(** [array_to_ground_transform] (lines 101-106), on a cell. *)
Definition array_to_ground_transform (arr_pos : Z * Z)
  : result (float * float) :=
  let '(x, y) := arr_pos in
  fy <- float_of_int y ;;
  fx <- float_of_int x ;;
  Return ((fy * cell_size)%float, (3 - fx * cell_size)%float).

(** [grid_to_ground_transform] (lines 108-113), on a cell of the grid
    frame of the coverage planner. *)
Definition grid_to_ground_transform (map : grid) (arr_pos : Z * Z)
  : result (float * float) :=
  let '(x, y) := arr_pos in
  fx <- float_of_int x ;;
  fk <- float_of_int (shape0 map - y - 1) ;;
  Return ((fx * cell_size)%float, (fk * cell_size)%float).

(** [can_add_obs] (lines 115-120) *)
Definition can_add_obs (arr_pos : Z * Z) : bool :=
  let '(x, y) := arr_pos in
  ((0 <=? x) && (x <? arr_h)) && ((0 <=? y) && (y <? arr_w)).

(** [add_obs] (lines 122-130): the array after the call. *)
Definition add_obs (map : grid) (min_x min_y max_x max_y : Z)
  : result grid :=
  clearance <- ceil (rb5_clearance / cell_size)%float ;;
  for_each (range (min_x - 1 - clearance) (max_x + 2 + clearance))
    (fun map x =>
       for_each (range (min_y - 1 - clearance) (max_y + 2 + clearance))
         (fun map y =>
            if can_add_obs (x, y) then setitem map x y 1%float
            else Return map)
         map)
    map.

(** [add_landmarks] (lines 133-138) *)
Definition add_landmarks (map : grid) (obs : list (Z * Z)) : result grid :=
  for_each obs (fun map i => setitem map (fst i) (snd i) 5%float) map.

(** Lines 141-142: the walls. *)
Definition add_walls (map : grid) : result grid :=
  clearance <- ceil (rb5_clearance / cell_size)%float ;;
  for_each (range 0 clearance)
    (fun map i =>
       map <- setcol map i 1%float ;;
       map <- setcol map (- 1 - i) 1%float ;;
       map <- setrow map i 1%float ;;
       setrow map (- 1 - i) 1%float)
    map.

(** Lines 145-147: the landmarks on the walls. *)
Definition mark_landmarks (map : grid) : result grid :=
  for_each dict_wall_lm
    (fun map value =>
       let '(x, y) := value in
       row <- int_of_float (x / cell_size)%float ;;
       col <- int_of_float (y / cell_size)%float ;;
       setitem map row col 5%float)
    map.

(** The array [map] when the helper functions are called: lines 74, 141-142
    and 145-147. *)
Definition map_result : result grid :=
  map <- add_walls (np_zeros arr_h arr_w) ;; mark_landmarks map.

Definition map : grid := value [] map_result.

(** Lines 182-183. *)
Definition arr_start : Z * Z :=
  value (0, 0) (ground_to_array_transform rb5_start).

Definition arr_goal : Z * Z :=
  value (0, 0) (ground_to_array_transform rb5_goal).

(** [generate_waypoints] (lines 156-176).  The actions of [path] are pairs
    of ints, as the planners make them; [path.pop(0)] on the empty list
    raises [IndexError]. *)
Definition action_eqb (a b : Z * Z) : bool :=
  (fst a =? fst b) && (snd a =? snd b).

Fixpoint waypoints_loop (path : list (Z * Z)) (arr_track prev_action : Z * Z)
  (waypoints : list (float * float)) : result (list (float * float)) :=
  match path with
  | [] =>
      goal <- array_to_ground_transform arr_goal ;;
      Return (waypoints ++ [goal])
  | curr_action :: path =>
      let '(delta_x, delta_y) := curr_action in
      let '(x, y) := arr_track in
      waypoints <-
        (if negb (action_eqb curr_action prev_action)
         then wp <- array_to_ground_transform (x, y) ;;
              Return (waypoints ++ [wp])
         else Return waypoints) ;;
      waypoints_loop path (x + delta_x, y + delta_y) curr_action waypoints
  end.

Definition generate_waypoints (path : list (Z * Z))
  : result (list (float * float)) :=
  match path with
  | [] => Raise IndexError
  | prev_action :: path =>
      let arr_track :=
        (fst arr_start + fst prev_action, snd arr_start + snd prev_action) in
      waypoints_loop path arr_track prev_action []
  end.

(** Lines 357-364: the headings of the coverage waypoints, [n] the number
    of waypoints. *)
Definition np_pi : float := 3.141592653589793%float.

Definition range_step (a n k : nat) : list nat :=
  List.map (fun i => (a + k * i)%nat) (seq 0 ((n + k - 1 - a) / k)%nat).

Definition mem (id : nat) (l : list nat) : bool := existsb (Nat.eqb id) l.

Definition coverage_theta (n id : nat) (theta : float) : float :=
  if mem id (range_step 0 n 4) then 0.0%float
  else if mem id (range_step 1 n 4) || mem id (range_step 3 n 4)
       then (np_pi / 2)%float
  else if mem id (range_step 2 n 4) then np_pi
  else theta.

Definition coverage_thetas (n : nat) : list float :=
  List.map (fun id => coverage_theta n id 0%float) (seq 0 n).

(** *** Quantities the statements about the helpers refer to *)

(** The array has h rows of w entries. *)
Definition grid_shape (map : grid) (h w : Z) : Prop :=
  shape0 map = h /\ Forall (fun r => Z.of_nat (length r) = w) map /\ 0 < h.

(** The cells of the map, row by row. *)
Definition cells : list (Z * Z) :=
  list_prod (range 0 arr_h) (range 0 arr_w).

(** The call returned the cell p. *)
Definition cell_eqb (p q : Z * Z) : bool :=
  (fst p =? fst q) && (snd p =? snd q).

Definition returns_cell (r : result (Z * Z)) (p : Z * Z) : bool :=
  match r with
  | Return q => cell_eqb q p
  | Raise _ => false
  end.

(** The cell is one of the map. *)
Definition in_map (c : Z * Z) : Prop :=
  (0 <= fst c < arr_h) /\ (0 <= snd c < arr_w).

(** The cells of the track at which the action changes: the track is at
    [arr_track] after the action [prev_action]. *)
Fixpoint corners (path : list (Z * Z)) (arr_track prev_action : Z * Z)
  : list (Z * Z) :=
  match path with
  | [] => []
  | curr_action :: rest =>
      (if negb (action_eqb curr_action prev_action) then [arr_track] else [])
      ++ corners rest (fst arr_track + fst curr_action,
                       snd arr_track + snd curr_action) curr_action
  end.

(** [array_to_ground_transform] on the cells of a list, in order. *)
Fixpoint transform_all (cells : list (Z * Z)) : result (list (float * float)) :=
  match cells with
  | [] => Return []
  | c :: rest =>
      wp <- array_to_ground_transform c ;;
      wps <- transform_all rest ;;
      Return (wp :: wps)
  end.

(** [y in ys] for a list of ints. *)
Definition member (y : Z) (ys : list Z) : bool := existsb (Z.eqb y) ys.

End Roomba.

(** ** Line 174 on binary64 floats

    The bearing wrap of [update_EKF] is the one place of the estimator
    where the ends of an interval matter, and there the rounding of
    float64 shows: numpy's [%] computes C's [fmod], which is exact, and
    adds the divisor to a remainder of the other sign, which is rounded.
    The wrap is modelled here on the primitive binary64 floats. *)

Module Wrap64.
#[local] Set Warnings "-inexact-float".
Import PrimFloat FloatOps SpecFloat.
Local Open Scope Z_scope.

(** C's [fmod(a, b)]: a - n b for the integer n that is a / b rounded
    towards zero; the result has the sign of a and is exact.  NaN when a
    is not finite or b is zero; a when b is infinite. *)
Definition fmod (a b : float) : float :=
  match Prim2SF a, Prim2SF b with
  | S754_nan, _ | _, S754_nan => nan
  | S754_infinity _, _ => nan
  | _, S754_zero _ => nan
  | S754_zero _, _ => a
  | S754_finite _ _ _, S754_infinity _ => a
  | S754_finite sa ma ea, S754_finite _ mb eb =>
      let e := Z.min ea eb in
      let rem := Z.rem (Z.pos ma * 2 ^ (ea - e)) (Z.pos mb * 2 ^ (eb - e)) in
      if rem =? 0 then (if sa then neg_zero else zero)
      else SF2Prim (binary_normalize prec emax
                      (if sa then - rem else rem) e false)
  end.

(** numpy's [a % b] on float64: the [fmod], moved by the divisor when its
    sign is not the divisor's; a zero takes the sign of the divisor. *)
Definition remainder (a b : float) : float :=
  let m := fmod a b in
  if eqb b zero then m
  else if eqb m zero
       then (if ltb b zero then neg_zero else zero)
       else if xorb (ltb b zero) (ltb m zero) then (m + b)%float
            else m.

(** [(d + np.pi) % (2 * np.pi) - np.pi], line 174. *)
Definition wrap_bearing_f64 (d : float) : float :=
  (remainder (d + Roomba.np_pi) (2 * Roomba.np_pi) - Roomba.np_pi)%float.

(** Lines 173-174 for the bearing component of [delta_z]. *)
Definition delta_z_bearing (phi z_tilde_phi : float) : float :=
  wrap_bearing_f64 (phi - z_tilde_phi)%float.

(** The float next below [- np.pi]. *)
Definition below_minus_pi : float := next_down (- Roomba.np_pi)%float.

End Wrap64.

(** ** Facts about the array operations *)

Module NpFacts.
Import Np.

Lemma nth_map_seq (f : nat -> R) (n i : nat) (d : R) :
  (i < n)%nat -> nth i (map f (seq 0 n)) d = f i.
Proof.
  intros Hi.
  rewrite (nth_indep _ d (f 0%nat)) by (rewrite length_map, length_seq; lia).
  rewrite (map_nth f (seq 0 n) 0%nat i), seq_nth; auto.
Qed.

Lemma get_mk (m n : nat) (f : nat -> nat -> R) (i j : nat) :
  (i < m)%nat -> (j < n)%nat -> get (mk m n f) i j = f i j.
Proof.
  intros Hi Hj. unfold get, mk.
  rewrite (nth_indep _ [] ((fun i => map (fun j => f i j) (seq 0 n)) 0%nat))
    by (rewrite length_map, length_seq; lia).
  rewrite (map_nth (fun i => map (fun j => f i j) (seq 0 n)) (seq 0 m) 0%nat i).
  rewrite seq_nth by lia. simpl. apply nth_map_seq; auto.
Qed.

Lemma shape_mk (m n : nat) (f : nat -> nat -> R) :
  (0 < m)%nat -> has_shape (mk m n f) m n.
Proof.
  intros Hm. unfold has_shape, mk. repeat split; auto.
  - now rewrite length_map, length_seq.
  - apply Forall_forall. intros r Hr. apply in_map_iff in Hr.
    destruct Hr as [i [<- _]]. now rewrite length_map, length_seq.
Qed.

Lemma shape_nrows (A : matrix) (m n : nat) : has_shape A m n -> nrows A = m.
Proof. now intros [H _]. Qed.

Lemma shape_ncols (A : matrix) (m n : nat) : has_shape A m n -> ncols A = n.
Proof.
  intros [Hl [Hf Hm]]. destruct A as [|r A]; simpl in *; [lia|].
  now inversion Hf.
Qed.

Lemma shape_row (A : matrix) (m n i : nat) :
  has_shape A m n -> (i < m)%nat -> length (nth i A []) = n.
Proof.
  intros [Hl [Hf _]] Hi. rewrite Forall_forall in Hf.
  apply Hf, nth_In. lia.
Qed.

(** Two arrays of one shape with the same entries are equal. *)
Lemma mat_ext (A B : matrix) (m n : nat) :
  has_shape A m n -> has_shape B m n ->
  (forall i j, (i < m)%nat -> (j < n)%nat -> get A i j = get B i j) ->
  A = B.
Proof.
  intros HA HB H.
  apply (nth_ext A B [] []).
  - destruct HA as [-> _], HB as [-> _]; reflexivity.
  - intros i Hi. assert (Hi' : (i < m)%nat) by (destruct HA as [<- _]; exact Hi).
    apply (nth_ext _ _ 0 0).
    + now rewrite (shape_row A m n), (shape_row B m n).
    + intros j Hj. rewrite (shape_row A m n) in Hj by auto.
      apply (H i j); auto.
Qed.

Lemma shape_unique (A : matrix) (m n m' n' : nat) :
  has_shape A m n -> has_shape A m' n' -> m = m' /\ n = n'.
Proof.
  intros H H'. split.
  - destruct H as [<- _], H' as [<- _]; reflexivity.
  - rewrite <- (shape_ncols A m n H). apply (shape_ncols A m' n' H').
Qed.

(** *** Finite sums *)

Lemma sum_ext (k : nat) (f g : nat -> R) :
  (forall i, (i < k)%nat -> f i = g i) -> sum k f = sum k g.
Proof.
  induction k as [|k IH]; intros H; simpl; auto.
  rewrite IH, H; auto.
Qed.

Lemma sum_zero (k : nat) : sum k (fun _ => 0) = 0.
Proof. induction k as [|k IH]; simpl; [|rewrite IH]; lra. Qed.

Lemma sum_plus (k : nat) (f g : nat -> R) :
  sum k (fun i => f i + g i) = sum k f + sum k g.
Proof. induction k as [|k IH]; simpl; [|rewrite IH]; lra. Qed.

Lemma sum_minus (k : nat) (f g : nat -> R) :
  sum k (fun i => f i - g i) = sum k f - sum k g.
Proof. induction k as [|k IH]; simpl; [|rewrite IH]; lra. Qed.

Lemma sum_scal_l (k : nat) (c : R) (f : nat -> R) :
  sum k (fun i => c * f i) = c * sum k f.
Proof. induction k as [|k IH]; simpl; [|rewrite IH]; lra. Qed.

Lemma sum_scal_r (k : nat) (c : R) (f : nat -> R) :
  sum k (fun i => f i * c) = sum k f * c.
Proof. induction k as [|k IH]; simpl; [|rewrite IH]; lra. Qed.

Lemma sum_swap (m n : nat) (f : nat -> nat -> R) :
  sum m (fun i => sum n (fun j => f i j)) =
  sum n (fun j => sum m (fun i => f i j)).
Proof.
  induction m as [|m IH]; simpl.
  - now rewrite sum_zero.
  - rewrite IH, <- sum_plus. reflexivity.
Qed.

(** A sum against a row of the identity picks one term. *)
Lemma sum_delta_r (k j : nat) (f : nat -> R) :
  (j < k)%nat ->
  sum k (fun i => f i * (if Nat.eqb i j then 1 else 0)) = f j.
Proof.
  induction k as [|k IH]; intros Hj; [lia|]. simpl.
  destruct (Nat.eqb_spec k j) as [->|Hne].
  - rewrite (sum_ext j _ (fun _ => 0)).
    + rewrite sum_zero. lra.
    + intros i Hi. destruct (Nat.eqb_spec i j); [lia|lra].
  - rewrite IH by lia. lra.
Qed.

Lemma sum_delta_l (k j : nat) (f : nat -> R) :
  (j < k)%nat ->
  sum k (fun i => (if Nat.eqb j i then 1 else 0) * f i) = f j.
Proof.
  intros Hj. rewrite <- (sum_delta_r k j f Hj). apply sum_ext.
  intros i _. rewrite Nat.eqb_sym. lra.
Qed.

(** *** Shapes *)

Lemma shape_zeros (m n : nat) : (0 < m)%nat -> has_shape (zeros m n) m n.
Proof. apply shape_mk. Qed.

Lemma shape_eye (n : nat) : (0 < n)%nat -> has_shape (eye n) n n.
Proof. apply shape_mk. Qed.

Lemma shape_diag2 (a b : R) : has_shape (diag [a; b]) 2 2.
Proof. apply (shape_mk 2 2). lia. Qed.

Lemma shape_transpose (A : matrix) (m n : nat) :
  has_shape A m n -> (0 < n)%nat -> has_shape (transpose A) n m.
Proof.
  intros HA Hn. unfold transpose.
  rewrite (shape_ncols A m n HA), (shape_nrows A m n HA).
  now apply shape_mk.
Qed.

Lemma shape_dot (A B : matrix) (m n p : nat) :
  has_shape A m n -> has_shape B n p -> has_shape (dot A B) m p.
Proof.
  intros HA HB. unfold dot.
  rewrite (shape_nrows A m n HA), (shape_ncols B n p HB).
  apply shape_mk. now destruct HA as [_ [_ H]].
Qed.

Lemma shape_add (A B : matrix) (m n : nat) :
  has_shape A m n -> has_shape (add A B) m n.
Proof.
  intros HA. unfold add.
  rewrite (shape_nrows A m n HA), (shape_ncols A m n HA).
  apply shape_mk. now destruct HA as [_ [_ H]].
Qed.

Lemma shape_sub (A B : matrix) (m n : nat) :
  has_shape A m n -> has_shape (sub A B) m n.
Proof.
  intros HA. unfold sub.
  rewrite (shape_nrows A m n HA), (shape_ncols A m n HA).
  apply shape_mk. now destruct HA as [_ [_ H]].
Qed.

Lemma shape_scale (c : R) (A : matrix) (m n : nat) :
  has_shape A m n -> has_shape (scale c A) m n.
Proof.
  intros [Hl [Hf Hm]]. unfold scale. repeat split; auto.
  - now rewrite length_map.
  - apply Forall_forall. intros r Hr. apply in_map_iff in Hr.
    destruct Hr as [r' [<- Hin]]. rewrite length_map.
    rewrite Forall_forall in Hf. now apply Hf.
Qed.

Lemma length_set_nth {A : Type} (l : list A) (i : nat) (v : A) :
  length (set_nth l i v) = length l.
Proof.
  revert i. induction l as [|h t IH]; intros [|i]; simpl; auto.
Qed.

Lemma nth_set_nth {A : Type} (l : list A) (i k : nat) (v d : A) :
  nth k (set_nth l i v) d =
  if Nat.eqb i k && (i <? length l)%nat then v else nth k l d.
Proof.
  revert i k. induction l as [|h t IH]; intros [|i] [|k]; simpl; auto;
    try (now rewrite andb_false_r); try (rewrite IH; reflexivity).
Qed.

Lemma shape_set (A : matrix) (m n i j : nat) (v : R) :
  has_shape A m n -> has_shape (set A i j v) m n.
Proof.
  intros HA. pose proof HA as [Hl [Hf Hm]]. unfold set. repeat split; auto.
  - now rewrite length_set_nth.
  - apply Forall_forall. intros r Hr.
    destruct (In_nth _ _ [] Hr) as [k [Hk Hnth]].
    rewrite length_set_nth in Hk. rewrite nth_set_nth in Hnth.
    destruct (Nat.eqb i k && (i <? length A)%nat) eqn:E.
    + subst r. rewrite length_set_nth.
      apply andb_prop in E. destruct E as [_ E]. apply Nat.ltb_lt in E.
      apply (shape_row A m n); auto. lia.
    + subst r. apply (shape_row A m n); auto. lia.
Qed.

Lemma get_set (A : matrix) (m n i j i' j' : nat) (v : R) :
  has_shape A m n -> (i < m)%nat -> (j < n)%nat ->
  get (set A i j v) i' j' =
  if Nat.eqb i i' && Nat.eqb j j' then v else get A i' j'.
Proof.
  intros HA Hi Hj. destruct HA as [Hl [Hf Hm]]. unfold get, set.
  rewrite nth_set_nth.
  assert (Hlt : (i <? length A)%nat = true) by (apply Nat.ltb_lt; lia).
  rewrite Hlt, andb_true_r.
  destruct (Nat.eqb_spec i i') as [<-|Hne]; simpl; auto.
  rewrite nth_set_nth.
  assert (Hrow : length (nth i A []) = n)
    by (apply (shape_row A m n); [repeat split; auto | lia]).
  rewrite Hrow.
  assert (Hlt' : (j <? n)%nat = true) by (apply Nat.ltb_lt; lia).
  now rewrite Hlt', andb_true_r.
Qed.

Lemma shape_hstack (A B : matrix) (m n p : nat) :
  has_shape A m n -> has_shape B m p -> has_shape (hstack A B) m (n + p).
Proof.
  intros [HlA [HfA Hm]] [HlB [HfB _]]. repeat split; auto.
  - clear Hm HfA HfB. revert m B HlA HlB.
    induction A as [|r A IH]; intros m [|s B] HA HB; simpl in *; auto; try lia.
    destruct m; [lia|]. f_equal. apply IH; lia.
  - clear Hm HlA HlB. revert B HfB.
    induction HfA as [|r A Hr HfA IH]; intros [|s B] HfB; simpl; auto.
    inversion HfB; subst. constructor; [|apply IH; auto].
    now rewrite length_app.
Qed.

Lemma get_hstack (A B : matrix) (m n p i j : nat) :
  has_shape A m n -> has_shape B m p -> (i < m)%nat ->
  get (hstack A B) i j =
  if (j <? n)%nat then get A i j else get B i (j - n).
Proof.
  intros [HlA [HfA _]] [HlB [HfB _]]. revert m B i HlA HlB HfB.
  induction HfA as [|r A Hr HfA IH]; intros m [|s B] i HlA HlB HfB Hi;
    simpl in *; try lia.
  inversion HfB; subst. destruct i as [|i].
  - unfold get. simpl. destruct (Nat.ltb_spec j (length r)).
    + now rewrite app_nth1.
    + now rewrite app_nth2.
  - unfold get in *. simpl. apply (IH (length A)); auto. lia.
Qed.

Lemma shape_block (A B C D : matrix) (m n p q : nat) :
  has_shape A m n -> has_shape B m q -> has_shape C p n -> has_shape D p q ->
  has_shape (block A B C D) (m + p) (n + q).
Proof.
  intros HA HB HC HD.
  destruct (shape_hstack A B m n q HA HB) as [H1 [H2 H3]].
  destruct (shape_hstack C D p n q HC HD) as [H4 [H5 H6]].
  unfold block. repeat split.
  - rewrite length_app. lia.
  - apply Forall_app. split; auto.
  - lia.
Qed.

Lemma get_block (A B C D : matrix) (m n p q i j : nat) :
  has_shape A m n -> has_shape B m q -> has_shape C p n -> has_shape D p q ->
  (i < m + p)%nat ->
  get (block A B C D) i j =
  if (i <? m)%nat
  then (if (j <? n)%nat then get A i j else get B i (j - n))
  else (if (j <? n)%nat then get C (i - m) j else get D (i - m) (j - n)).
Proof.
  intros HA HB HC HD Hi.
  pose proof (shape_hstack A B m n q HA HB) as [H1 _].
  unfold block, get.
  destruct (Nat.ltb_spec i m) as [Hlt|Hge].
  - rewrite app_nth1 by lia. apply (get_hstack A B m n q); auto.
  - rewrite app_nth2 by lia. rewrite H1.
    apply (get_hstack C D p n q); auto. lia.
Qed.

Lemma shape_vstack (A : matrix) (m : nat) (a b : R) :
  has_shape A m 1 -> has_shape (vstack A a b) (m + 2) 1.
Proof.
  intros [Hl [Hf Hm]]. unfold vstack. repeat split.
  - rewrite length_app. simpl. lia.
  - apply Forall_app. split; auto.
  - lia.
Qed.

Lemma get_vstack (A : matrix) (m i : nat) (a b : R) :
  has_shape A m 1 ->
  get (vstack A a b) i 0 =
  if (i <? m)%nat then get A i 0
  else if Nat.eqb i m then a
  else if Nat.eqb i (m + 1) then b else 0.
Proof.
  intros [Hl _]. unfold vstack, get.
  destruct (Nat.ltb_spec i m) as [Hlt|Hge].
  - rewrite app_nth1 by lia. reflexivity.
  - rewrite app_nth2 by lia. rewrite Hl.
    destruct (Nat.eqb_spec i m) as [->|Hne].
    + now rewrite Nat.sub_diag.
    + destruct (Nat.eqb_spec i (m + 1)) as [->|Hne'].
      * replace (m + 1 - m)%nat with 1%nat by lia. reflexivity.
      * destruct (i - m)%nat as [|[|[|k]]] eqn:E; try lia; reflexivity.
Qed.

(** *** Entries *)

Lemma get_zeros (m n i j : nat) :
  (i < m)%nat -> (j < n)%nat -> get (zeros m n) i j = 0.
Proof. intros. unfold zeros. now rewrite get_mk. Qed.

Lemma get_eye (n i j : nat) :
  (i < n)%nat -> (j < n)%nat ->
  get (eye n) i j = if Nat.eqb i j then 1 else 0.
Proof. intros. unfold eye. now rewrite get_mk. Qed.

Lemma get_transpose (A : matrix) (m n i j : nat) :
  has_shape A m n -> (i < n)%nat -> (j < m)%nat ->
  get (transpose A) i j = get A j i.
Proof.
  intros HA Hi Hj. unfold transpose.
  rewrite (shape_ncols A m n HA), (shape_nrows A m n HA).
  now rewrite get_mk.
Qed.

Lemma get_dot (A B : matrix) (m n p i j : nat) :
  has_shape A m n -> has_shape B n p -> (i < m)%nat -> (j < p)%nat ->
  get (dot A B) i j = sum n (fun k => get A i k * get B k j).
Proof.
  intros HA HB Hi Hj. unfold dot.
  rewrite (shape_nrows A m n HA), (shape_ncols B n p HB),
    (shape_ncols A m n HA).
  now rewrite get_mk.
Qed.

Lemma get_add (A B : matrix) (m n i j : nat) :
  has_shape A m n -> (i < m)%nat -> (j < n)%nat ->
  get (add A B) i j = get A i j + get B i j.
Proof.
  intros HA Hi Hj. unfold add.
  rewrite (shape_nrows A m n HA), (shape_ncols A m n HA).
  now rewrite get_mk.
Qed.

Lemma get_sub (A B : matrix) (m n i j : nat) :
  has_shape A m n -> (i < m)%nat -> (j < n)%nat ->
  get (sub A B) i j = get A i j - get B i j.
Proof.
  intros HA Hi Hj. unfold sub.
  rewrite (shape_nrows A m n HA), (shape_ncols A m n HA).
  now rewrite get_mk.
Qed.

Lemma get_scale (c : R) (A : matrix) (m n i j : nat) :
  has_shape A m n -> (i < m)%nat -> (j < n)%nat ->
  get (scale c A) i j = c * get A i j.
Proof.
  intros HA Hi Hj. unfold get, scale.
  rewrite (nth_indep _ [] (map (Rmult c) []))
    by (rewrite length_map; destruct HA as [-> _]; lia).
  rewrite (map_nth (map (Rmult c)) A [] i).
  rewrite (nth_indep _ 0 (c * 0))
    by (rewrite length_map, (shape_row A m n); auto).
  apply (map_nth (Rmult c)).
Qed.

(** *** Algebra of the product, the sum and the transpose *)

Lemma dot_assoc (A B C : matrix) (m n p q : nat) :
  has_shape A m n -> has_shape B n p -> has_shape C p q ->
  dot (dot A B) C = dot A (dot B C).
Proof.
  intros HA HB HC.
  apply (mat_ext _ _ m q).
  - apply (shape_dot _ _ m p q); auto. apply (shape_dot _ _ m n p); auto.
  - apply (shape_dot _ _ m n q); auto. apply (shape_dot _ _ n p q); auto.
  - intros i j Hi Hj.
    rewrite (get_dot (dot A B) C m p q); auto;
      [|apply (shape_dot _ _ m n p); auto].
    rewrite (get_dot A (dot B C) m n q); auto;
      [|apply (shape_dot _ _ n p q); auto].
    rewrite (sum_ext p _
      (fun k => sum n (fun l => get A i l * get B l k * get C k j))).
    2:{ intros k Hk. rewrite (get_dot A B m n p); auto.
        now rewrite sum_scal_r. }
    rewrite sum_swap. apply sum_ext. intros l Hl.
    rewrite (get_dot B C n p q); auto.
    rewrite <- sum_scal_l. apply sum_ext. intros k _. lra.
Qed.

(** Whatever parenthesisation [multi_dot] picks, the product is the same. *)
Lemma multi_dot3_dot (A B C : matrix) (m n p q : nat) :
  has_shape A m n -> has_shape B n p -> has_shape C p q ->
  multi_dot3 A B C = dot (dot A B) C.
Proof.
  intros HA HB HC. unfold multi_dot3.
  destruct (_ <? _)%nat; auto.
  symmetry. apply (dot_assoc A B C m n p q); auto.
Qed.

Lemma dot_eye_l (A : matrix) (m n : nat) :
  has_shape A m n -> dot (eye m) A = A.
Proof.
  intros HA. pose proof HA as [_ [_ Hm]].
  apply (mat_ext _ _ m n); auto.
  - apply (shape_dot _ _ m m n); auto. now apply shape_eye.
  - intros i j Hi Hj.
    rewrite (get_dot (eye m) A m m n); auto; [|now apply shape_eye].
    rewrite (sum_ext m _
      (fun k => (if Nat.eqb i k then 1 else 0) * get A k j)).
    + now apply (sum_delta_l m i (fun k => get A k j)).
    + intros k Hk. now rewrite get_eye.
Qed.

Lemma dot_eye_r (A : matrix) (m n : nat) :
  has_shape A m n -> (0 < n)%nat -> dot A (eye n) = A.
Proof.
  intros HA Hn.
  apply (mat_ext _ _ m n); auto.
  - apply (shape_dot _ _ m n n); auto. now apply shape_eye.
  - intros i j Hi Hj.
    rewrite (get_dot A (eye n) m n n); auto; [|now apply shape_eye].
    rewrite (sum_ext n _
      (fun k => get A i k * (if Nat.eqb k j then 1 else 0))).
    + now apply (sum_delta_r n j (fun k => get A i k)).
    + intros k Hk. now rewrite get_eye.
Qed.

Lemma transpose_eye (n : nat) : (0 < n)%nat -> transpose (eye n) = eye n.
Proof.
  intros Hn. apply (mat_ext _ _ n n).
  - apply shape_transpose; auto. now apply shape_eye.
  - now apply shape_eye.
  - intros i j Hi Hj.
    rewrite (get_transpose (eye n) n n); auto; [|now apply shape_eye].
    rewrite !get_eye; auto. now rewrite Nat.eqb_sym.
Qed.

Lemma transpose_transpose (A : matrix) (m n : nat) :
  has_shape A m n -> (0 < n)%nat -> transpose (transpose A) = A.
Proof.
  intros HA Hn. pose proof HA as [_ [_ Hm]].
  apply (mat_ext _ _ m n); auto.
  - apply shape_transpose; auto. apply shape_transpose; auto.
  - intros i j Hi Hj.
    rewrite (get_transpose (transpose A) n m); auto;
      [|apply shape_transpose; auto].
    now rewrite (get_transpose A m n).
Qed.

Lemma transpose_dot (A B : matrix) (m n p : nat) :
  has_shape A m n -> has_shape B n p -> (0 < p)%nat ->
  transpose (dot A B) = dot (transpose B) (transpose A).
Proof.
  intros HA HB Hp.
  pose proof HA as [_ [_ Hm]]. pose proof HB as [_ [_ Hn]].
  apply (mat_ext _ _ p m).
  - apply shape_transpose; auto. apply (shape_dot _ _ m n p); auto.
  - apply (shape_dot _ _ p n m); apply shape_transpose; auto.
  - intros i j Hi Hj.
    rewrite (get_transpose (dot A B) m p); auto;
      [|apply (shape_dot _ _ m n p); auto].
    rewrite (get_dot A B m n p); auto.
    rewrite (get_dot (transpose B) (transpose A) p n m); auto;
      try (apply shape_transpose; auto).
    apply sum_ext. intros k Hk.
    rewrite (get_transpose B n p), (get_transpose A m n); auto. lra.
Qed.

Lemma transpose_add (A B : matrix) (m n : nat) :
  has_shape A m n -> has_shape B m n -> (0 < n)%nat ->
  transpose (add A B) = add (transpose A) (transpose B).
Proof.
  intros HA HB Hn. pose proof HA as [_ [_ Hm]].
  apply (mat_ext _ _ n m).
  - apply shape_transpose; auto. now apply shape_add.
  - apply shape_add. now apply shape_transpose.
  - intros i j Hi Hj.
    rewrite (get_transpose (add A B) m n); auto; [|now apply shape_add].
    rewrite (get_add A B m n); auto.
    rewrite (get_add (transpose A) (transpose B) n m); auto;
      [|now apply shape_transpose].
    now rewrite (get_transpose A m n), (get_transpose B m n).
Qed.

Lemma transpose_sub (A B : matrix) (m n : nat) :
  has_shape A m n -> has_shape B m n -> (0 < n)%nat ->
  transpose (sub A B) = sub (transpose A) (transpose B).
Proof.
  intros HA HB Hn. pose proof HA as [_ [_ Hm]].
  apply (mat_ext _ _ n m).
  - apply shape_transpose; auto. now apply shape_sub.
  - apply shape_sub. now apply shape_transpose.
  - intros i j Hi Hj.
    rewrite (get_transpose (sub A B) m n); auto; [|now apply shape_sub].
    rewrite (get_sub A B m n); auto.
    rewrite (get_sub (transpose A) (transpose B) n m); auto;
      [|now apply shape_transpose].
    now rewrite (get_transpose A m n), (get_transpose B m n).
Qed.

Lemma dot_sub_l (A B C : matrix) (m n p : nat) :
  has_shape A m n -> has_shape B m n -> has_shape C n p ->
  dot (sub A B) C = sub (dot A C) (dot B C).
Proof.
  intros HA HB HC.
  apply (mat_ext _ _ m p).
  - apply (shape_dot _ _ m n p); auto. now apply shape_sub.
  - apply shape_sub. apply (shape_dot _ _ m n p); auto.
  - intros i j Hi Hj.
    rewrite (get_dot (sub A B) C m n p); auto; [|now apply shape_sub].
    rewrite (get_sub (dot A C) (dot B C) m p); auto;
      [|apply (shape_dot _ _ m n p); auto].
    rewrite (get_dot A C m n p), (get_dot B C m n p); auto.
    rewrite <- sum_minus. apply sum_ext. intros k Hk.
    rewrite (get_sub A B m n); auto. lra.
Qed.

Lemma dot_sub_r (A B C : matrix) (m n p : nat) :
  has_shape A m n -> has_shape B n p -> has_shape C n p ->
  dot A (sub B C) = sub (dot A B) (dot A C).
Proof.
  intros HA HB HC. pose proof HA as [_ [_ Hm]].
  apply (mat_ext _ _ m p).
  - apply (shape_dot _ _ m n p); auto. now apply shape_sub.
  - apply shape_sub. apply (shape_dot _ _ m n p); auto.
  - intros i j Hi Hj.
    rewrite (get_dot A (sub B C) m n p); auto; [|now apply shape_sub].
    rewrite (get_sub (dot A B) (dot A C) m p); auto;
      [|apply (shape_dot _ _ m n p); auto].
    rewrite (get_dot A B m n p), (get_dot A C m n p); auto.
    rewrite <- sum_minus. apply sum_ext. intros k Hk.
    rewrite (get_sub B C n p); auto. lra.
Qed.

(** *** Symmetric arrays *)

Lemma symmetric_get (A : matrix) (n : nat) :
  has_shape A n n ->
  (symmetric A <->
   forall i j, (i < n)%nat -> (j < n)%nat -> get A i j = get A j i).
Proof.
  intros HA. pose proof HA as [_ [_ Hn]]. unfold symmetric. split.
  - intros Hs i j Hi Hj. rewrite <- Hs at 1.
    now rewrite (get_transpose A n n).
  - intros H. apply (mat_ext _ _ n n); auto.
    + now apply shape_transpose.
    + intros i j Hi Hj. rewrite (get_transpose A n n); auto.
Qed.

Lemma symmetric_zeros (n : nat) : (0 < n)%nat -> symmetric (zeros n n).
Proof.
  intros Hn. apply (symmetric_get _ n); [now apply shape_zeros|].
  intros i j Hi Hj. now rewrite !get_zeros.
Qed.

Lemma symmetric_diag2 (a b : R) : symmetric (diag [a; b]).
Proof. reflexivity. Qed.

Lemma symmetric_set_diag (A : matrix) (n k : nat) (v : R) :
  has_shape A n n -> (k < n)%nat -> symmetric A -> symmetric (set A k k v).
Proof.
  intros HA Hk Hs. apply (symmetric_get _ n); [now apply shape_set|].
  intros i j Hi Hj. rewrite !(get_set A n n); auto.
  rewrite (andb_comm (Nat.eqb k i)).
  destruct (Nat.eqb k j && Nat.eqb k i); auto.
  now apply (symmetric_get A n HA).
Qed.

Lemma symmetric_add (A B : matrix) (n : nat) :
  has_shape A n n -> has_shape B n n ->
  symmetric A -> symmetric B -> symmetric (add A B).
Proof.
  intros HA HB HsA HsB. pose proof HA as [_ [_ Hn]]. unfold symmetric.
  rewrite (transpose_add A B n n); auto. now rewrite HsA, HsB.
Qed.

(** H C H^T is symmetric when C is. *)
Lemma symmetric_congruence (H C : matrix) (m n : nat) :
  has_shape H m n -> has_shape C n n -> symmetric C ->
  symmetric (dot (dot H C) (transpose H)).
Proof.
  intros HH HC Hs. pose proof HH as [_ [_ Hm]]. pose proof HC as [_ [_ Hn]].
  assert (HHt : has_shape (transpose H) n m) by now apply shape_transpose.
  assert (HHC : has_shape (dot H C) m n) by now apply (shape_dot _ _ m n n).
  unfold symmetric.
  rewrite (transpose_dot (dot H C) (transpose H) m n m); auto.
  rewrite (transpose_transpose H m n); auto.
  rewrite (transpose_dot H C m n n); auto.
  rewrite Hs.
  symmetry. apply (dot_assoc H C (transpose H) m n n m); auto.
Qed.

(** The covariance update (I - K H) C with K = C H^T Sinv keeps C
    symmetric when Sinv is symmetric. *)
Lemma symmetric_correction (C H Sinv : matrix) (m n : nat) :
  has_shape C n n -> has_shape H m n -> has_shape Sinv m m ->
  symmetric C -> symmetric Sinv ->
  symmetric
    (dot (sub (eye n) (dot (dot (dot C (transpose H)) Sinv) H)) C).
Proof.
  intros HC HH HS HsC HsS.
  pose proof HC as [_ [_ Hn]]. pose proof HH as [_ [_ Hm]].
  assert (HHt : has_shape (transpose H) n m) by now apply shape_transpose.
  assert (HCHt : has_shape (dot C (transpose H)) n m)
    by now apply (shape_dot _ _ n n m).
  assert (HK : has_shape (dot (dot C (transpose H)) Sinv) n m)
    by now apply (shape_dot _ _ n m m).
  assert (HKH : has_shape (dot (dot (dot C (transpose H)) Sinv) H) n n)
    by now apply (shape_dot _ _ n m n).
  assert (HI : has_shape (eye n) n n) by now apply shape_eye.
  assert (HHC : has_shape (dot H C) m n) by now apply (shape_dot _ _ m n n).
  unfold symmetric.
  rewrite (transpose_dot _ C n n n); auto; [|now apply shape_sub].
  rewrite (transpose_sub _ _ n n); auto.
  rewrite (transpose_eye n), HsC; auto.
  rewrite (transpose_dot _ H n m n); auto.
  rewrite (transpose_dot _ Sinv n m m); auto.
  rewrite (transpose_dot C (transpose H) n n m); auto.
  rewrite (transpose_transpose H m n), HsC, HsS; auto.
  rewrite (dot_sub_r C _ _ n n n); auto.
  2:{ apply (shape_dot _ _ n m n); auto. apply (shape_dot _ _ m m n); auto. }
  rewrite (dot_sub_l _ _ C n n n); auto.
  rewrite (dot_eye_l C n n), (dot_eye_r C n n); auto.
  f_equal.
  rewrite (dot_assoc _ H C n m n n); auto.
  rewrite (dot_assoc _ Sinv (dot H C) n m m n); auto.
  rewrite (dot_assoc C (transpose H) _ n n m n); auto.
  apply (shape_dot _ _ m m n); auto.
Qed.

Lemma linalg_inv_shape (A Ainv : matrix) :
  linalg_inv A = Some Ainv -> has_shape Ainv 2 2.
Proof.
  unfold linalg_inv. destruct (Req_dec_T _ _); [discriminate|].
  intros [= <-]. repeat split; auto.
Qed.

Lemma linalg_inv_symmetric (A Ainv : matrix) :
  has_shape A 2 2 -> symmetric A ->
  linalg_inv A = Some Ainv -> symmetric Ainv.
Proof.
  intros HA Hs. unfold linalg_inv. destruct (Req_dec_T _ _); [discriminate|].
  intros [= <-].
  assert (E : get A 0 1 = get A 1 0)
    by (apply (symmetric_get A 2 HA); auto).
  rewrite E. reflexivity.
Qed.

End NpFacts.

(** ** Facts about the estimator *)

Module EkfFacts.
Import Np NpFacts Ekf.

(** *** The registry *)

Lemma index_lt (tagID : Z) (lst : list Z) (j : nat) :
  index tagID lst = Some j -> (j < length lst)%nat.
Proof.
  revert j. induction lst as [|t rest IH]; intros j; simpl; [discriminate|].
  destruct (Z.eqb t tagID).
  - intros [= <-]. lia.
  - destruct (index tagID rest) as [k|]; [|discriminate].
    intros [= <-]. specialize (IH k eq_refl). lia.
Qed.

Lemma index_nth (tagID : Z) (lst : list Z) (j : nat) :
  index tagID lst = Some j -> nth j lst 0%Z = tagID.
Proof.
  revert j. induction lst as [|t rest IH]; intros j; simpl; [discriminate|].
  destruct (Z.eqb_spec t tagID) as [->|Hne].
  - now intros [= <-].
  - destruct (index tagID rest) as [k|]; [|discriminate].
    intros [= <-]. now apply IH.
Qed.

Lemma contains_index (tagID : Z) (lst : list Z) :
  contains tagID lst = true -> exists j, index tagID lst = Some j.
Proof.
  unfold contains. induction lst as [|t rest IH]; simpl; [discriminate|].
  rewrite (Z.eqb_sym tagID t). destruct (Z.eqb t tagID); simpl.
  - intros _. now exists 0%nat.
  - intros H. destruct (IH H) as [j ->]. now exists (S j).
Qed.

Lemma index_contains (tagID : Z) (lst : list Z) (j : nat) :
  index tagID lst = Some j -> contains tagID lst = true.
Proof.
  unfold contains. revert j.
  induction lst as [|t rest IH]; intros j; simpl; [discriminate|].
  rewrite (Z.eqb_sym tagID t). destruct (Z.eqb t tagID); simpl; auto.
  destruct (index tagID rest) as [k|]; [|discriminate].
  intros _. now apply (IH k).
Qed.

(** Appending to the list does not move a tag that is already in it. *)
Lemma index_app_old (tagID : Z) (lst more : list Z) (j : nat) :
  index tagID lst = Some j -> index tagID (lst ++ more) = Some j.
Proof.
  revert j. induction lst as [|t rest IH]; intros j; simpl; [discriminate|].
  destruct (Z.eqb t tagID); auto.
  destruct (index tagID rest) as [k|]; [|discriminate].
  intros [= <-]. now rewrite (IH k).
Qed.

(** A tag that is not in the list is appended at index M. *)
Lemma index_app_new (tagID : Z) (lst : list Z) :
  contains tagID lst = false ->
  index tagID (lst ++ [tagID]) = Some (length lst).
Proof.
  unfold contains. induction lst as [|t rest IH]; simpl.
  - now rewrite Z.eqb_refl.
  - rewrite (Z.eqb_sym tagID t). destruct (Z.eqb t tagID); simpl;
      [discriminate|].
    intros H. now rewrite (IH H).
Qed.

Lemma contains_app (tagID : Z) (lst more : list Z) :
  contains tagID lst = true -> contains tagID (lst ++ more) = true.
Proof.
  unfold contains. rewrite existsb_app. intros ->. reflexivity.
Qed.

(** *** The prediction step *)

Section Predict.
Variable self : EKF_vSLAM.
Variable n : nat.
Hypothesis Hmu : has_shape (mu self) n 1.
Hypothesis Hcov : has_shape (cov self) n n.
Hypothesis Hn : (3 <= n)%nat.

Lemma mu_len_eq : length (mu self) = n.
Proof. now destruct Hmu. Qed.

Lemma get_pose_diag (a b c : R) (i j : nat) :
  (i < n)%nat -> (j < n)%nat ->
  get (set (set (set (zeros n n) 0 0 a) 1 1 b) 2 2 c) i j =
  if Nat.eqb i j
  then match i with 0%nat => a | 1%nat => b | 2%nat => c | _ => 0 end
  else 0.
Proof.
  intros Hi Hj.
  assert (H0 : has_shape (zeros n n) n n) by (apply shape_zeros; lia).
  rewrite (get_set _ n n); try lia; [|now repeat apply shape_set].
  rewrite (get_set _ n n); try lia; [|now repeat apply shape_set].
  rewrite (get_set _ n n); try lia; auto.
  rewrite get_zeros by auto.
  destruct i as [|[|[|i]]], j as [|[|[|j]]]; simpl; auto.
  now destruct (Nat.eqb i j).
Qed.

Lemma shape_pose_diag (a b c : R) :
  has_shape (set (set (set (zeros n n) 0 0 a) 1 1 b) 2 2 c) n n.
Proof. repeat apply shape_set. apply shape_zeros. lia. Qed.

Lemma symmetric_pose_diag (a b c : R) :
  symmetric (set (set (set (zeros n n) 0 0 a) 1 1 b) 2 2 c).
Proof.
  apply (symmetric_get _ n); [apply shape_pose_diag|].
  intros i j Hi Hj. rewrite !get_pose_diag by auto.
  rewrite (Nat.eqb_sym j i).
  destruct (Nat.eqb_spec i j) as [->|]; auto.
Qed.

Lemma get_control (vx vy w : R) (i : nat) :
  (i < n)%nat ->
  get (set (set (set (zeros n 1) 0 0 vx) 1 0 vy) 2 0 w) i 0 =
  match i with 0%nat => vx | 1%nat => vy | 2%nat => w | _ => 0 end.
Proof.
  intros Hi.
  assert (H0 : has_shape (zeros n 1) n 1) by (apply shape_zeros; lia).
  rewrite (get_set _ n 1); try lia; [|now repeat apply shape_set].
  rewrite (get_set _ n 1); try lia; [|now repeat apply shape_set].
  rewrite (get_set _ n 1); try lia; auto.
  rewrite get_zeros by lia.
  destruct i as [|[|[|i]]]; simpl; auto.
Qed.

(** G u is the control on the pose rows and zero on the landmark rows. *)
Lemma get_G_u (vx vy w : R) (i : nat) :
  (i < n)%nat ->
  get (dot (set (set (set (zeros n n) 0 0 1) 1 1 1) 2 2 1)
           (set (set (set (zeros n 1) 0 0 vx) 1 0 vy) 2 0 w)) i 0 =
  match i with 0%nat => vx | 1%nat => vy | 2%nat => w | _ => 0 end.
Proof.
  intros Hi.
  rewrite (get_dot _ _ n n 1); auto; try lia.
  2: apply shape_pose_diag.
  2:{ repeat apply shape_set. apply shape_zeros. lia. }
  rewrite (sum_ext n _
    (fun k => (if Nat.eqb i k then 1 else 0) *
              (if (i <? 3)%nat
               then get (set (set (set (zeros n 1) 0 0 vx) 1 0 vy) 2 0 w) k 0
               else 0))).
  - rewrite (sum_delta_l n i
      (fun k => if (i <? 3)%nat
                then get (set (set (set (zeros n 1) 0 0 vx) 1 0 vy) 2 0 w) k 0
                else 0)) by auto.
    rewrite get_control by auto.
    destruct i as [|[|[|i]]]; reflexivity.
  - intros k Hk. rewrite get_pose_diag by auto.
    destruct (Nat.eqb_spec i k) as [->|]; [|lra].
    destruct k as [|[|[|k]]]; simpl; lra.
Qed.

Lemma predict_EKF_mu (vx vy w : R) (i : nat) :
  (i < n)%nat ->
  get (mu (predict_EKF self (vx, vy, w))) i 0 =
  get (mu self) i 0 +
  match i with 0%nat => vx | 1%nat => vy | 2%nat => w | _ => 0 end.
Proof.
  intros Hi. unfold predict_EKF. cbn [mu]. rewrite mu_len_eq.
  rewrite (dot_eye_l (mu self) n 1) by auto.
  rewrite (get_add _ _ n 1); auto; try lia.
  now rewrite get_G_u.
Qed.

Lemma predict_EKF_cov (twist : R * R * R) :
  cov (predict_EKF self twist) =
  add (cov self)
      (set (set (set (zeros n n) 0 0 (fst (var_System_noise self)))
                1 1 (fst (var_System_noise self)))
           2 2 (snd (var_System_noise self))).
Proof.
  destruct twist as [[vx vy] w]. unfold predict_EKF. cbn [cov]. rewrite mu_len_eq.
  assert (HI : has_shape (eye n) n n) by (apply shape_eye; lia).
  rewrite (multi_dot3_dot _ _ _ n n n n); auto.
  2:{ apply shape_transpose; auto. lia. }
  rewrite (dot_eye_l (cov self) n n) by auto.
  rewrite transpose_eye by lia.
  rewrite (dot_eye_r (cov self) n n); auto. lia.
Qed.

Lemma predict_EKF_shape_mu (twist : R * R * R) :
  has_shape (mu (predict_EKF self twist)) n 1.
Proof.
  destruct twist as [[vx vy] w]. unfold predict_EKF. cbn [mu]. rewrite mu_len_eq.
  apply shape_add. rewrite (dot_eye_l (mu self) n 1); auto.
Qed.

Lemma predict_EKF_shape_cov (twist : R * R * R) :
  has_shape (cov (predict_EKF self twist)) n n.
Proof. rewrite predict_EKF_cov. now apply shape_add. Qed.

Lemma predict_EKF_symmetric (twist : R * R * R) :
  symmetric (cov self) -> symmetric (cov (predict_EKF self twist)).
Proof.
  intros Hs. rewrite predict_EKF_cov.
  apply (symmetric_add _ _ n); auto.
  - apply shape_pose_diag.
  - apply symmetric_pose_diag.
Qed.

End Predict.

Lemma predict_EKF_observed (self : EKF_vSLAM) (twist : R * R * R) :
  observed (predict_EKF self twist) = observed self.
Proof. now destruct twist as [[vx vy] w]. Qed.

Lemma predict_EKF_well_shaped (self : EKF_vSLAM) (twist : R * R * R) :
  well_shaped self -> well_shaped (predict_EKF self twist).
Proof.
  intros [Hmu Hcov]. unfold well_shaped, dim.
  rewrite predict_EKF_observed. split.
  - apply predict_EKF_shape_mu; auto.
  - apply predict_EKF_shape_cov; auto. lia.
Qed.

Lemma predict_EKF_well_formed (self : EKF_vSLAM) (twist : R * R * R) :
  well_formed self -> well_formed (predict_EKF self twist).
Proof.
  intros [Hsh Hs]. split.
  - now apply predict_EKF_well_shaped.
  - destruct Hsh as [Hmu Hcov].
    apply (predict_EKF_symmetric self (dim self)); auto. unfold dim. lia.
Qed.

(** *** Registration of a new tag (lines 115-126) *)

Lemma register_observed (x y theta r phi : R) (tagID : Z) (self : EKF_vSLAM) :
  observed (fst (register x y theta r phi tagID self)) =
  observed self ++ [tagID].
Proof. reflexivity. Qed.

Lemma register_dim (x y theta r phi : R) (tagID : Z) (self : EKF_vSLAM) :
  dim (fst (register x y theta r phi tagID self)) = (dim self + 2)%nat.
Proof. unfold dim. rewrite register_observed, length_app. simpl. lia. Qed.

Lemma register_mu_len (x y theta r phi : R) (tagID : Z) (self : EKF_vSLAM) :
  well_shaped self ->
  snd (register x y theta r phi tagID self) =
  dim (fst (register x y theta r phi tagID self)).
Proof.
  intros [[Hl _] _]. rewrite register_dim. unfold register, vstack.
  cbn [snd]. rewrite length_app, Hl. reflexivity.
Qed.

Lemma register_cov (x y theta r phi : R) (tagID : Z) (self : EKF_vSLAM) :
  well_shaped self ->
  cov (fst (register x y theta r phi tagID self)) =
  block (cov self) (zeros (dim self) 2) (zeros 2 (dim self))
        (diag [1e6; 1e6]).
Proof.
  intros [[Hl _] _]. unfold register, vstack. cbn [fst cov].
  rewrite length_app, Hl. cbn [length].
  replace (dim self + 2 - 2)%nat with (dim self) by lia. reflexivity.
Qed.

Lemma register_well_shaped (x y theta r phi : R) (tagID : Z)
  (self : EKF_vSLAM) :
  well_shaped self ->
  well_shaped (fst (register x y theta r phi tagID self)).
Proof.
  intros Hsh. pose proof Hsh as [Hmu Hcov]. unfold well_shaped.
  rewrite register_dim, register_cov by auto. split.
  - now apply shape_vstack.
  - assert (Hd : (0 < dim self)%nat) by (unfold dim; lia).
    apply shape_block; auto.
    + now apply shape_zeros.
    + apply shape_zeros. lia.
    + apply shape_diag2.
Qed.

Lemma register_symmetric (x y theta r phi : R) (tagID : Z)
  (self : EKF_vSLAM) :
  well_formed self ->
  symmetric (cov (fst (register x y theta r phi tagID self))).
Proof.
  intros [Hsh Hs]. pose proof Hsh as [Hmu Hcov].
  pose proof (register_well_shaped x y theta r phi tagID self Hsh) as [_ Hc'].
  rewrite register_dim in Hc'.
  apply (symmetric_get _ (dim self + 2)); auto.
  rewrite register_cov by auto.
  assert (Hd : (0 < dim self)%nat) by (unfold dim; lia).
  intros i j Hi Hj.
  rewrite !(get_block _ _ _ _ (dim self) (dim self) 2 2); auto;
    try (now apply shape_zeros); try (apply shape_zeros; lia);
    try apply shape_diag2.
  destruct (Nat.ltb_spec i (dim self)), (Nat.ltb_spec j (dim self)).
  - now apply (symmetric_get (cov self) (dim self)).
  - rewrite !get_zeros; auto; lia.
  - rewrite !get_zeros; auto; lia.
  - apply (symmetric_get (diag [1e6; 1e6]) 2); try lia.
    + apply shape_diag2.
    + apply symmetric_diag2.
Qed.

(** *** The correction by one observation (lines 128-179) *)

Lemma shape_J (delta : matrix) : has_shape (J_of delta) 2 5.
Proof. unfold J_of, scale. cbn [map]. repeat split; auto. Qed.

Lemma shape_assign_block (A B : matrix) (m n : nat) :
  has_shape A m n -> has_shape (assign_block A B) m n.
Proof.
  intros HA. unfold assign_block.
  rewrite (shape_nrows A m n HA), (shape_ncols A m n HA).
  apply shape_mk. now destruct HA as [_ [_ H]].
Qed.

Lemma shape_Fxj (mu_len idx : nat) :
  (0 < mu_len)%nat -> has_shape (Fxj_of mu_len idx) 5 mu_len.
Proof.
  intros Hn. unfold Fxj_of. repeat apply shape_set.
  apply shape_assign_block. apply shape_zeros. lia.
Qed.

Lemma shape_H (x y : R) (mu : matrix) (mu_len idx : nat) :
  (0 < mu_len)%nat -> has_shape (H_of x y mu mu_len idx) 2 mu_len.
Proof.
  intros Hn. apply (shape_dot _ _ 2 5 mu_len).
  - apply shape_J.
  - now apply shape_Fxj.
Qed.

(** What a correction that returns has computed. *)
Lemma correct_Ok (x y theta var_r var_phi r phi : R) (tagID : Z)
  (self : EKF_vSLAM) (mu_len : nat) (st' : EKF_vSLAM * nat) :
  correct x y theta var_r var_phi r phi tagID self mu_len = Ok st' ->
  exists j Sinv,
    let idx := (3 + 2 * j)%nat in
    let delta := delta_of x y (mu self) idx in
    let H := H_of x y (mu self) mu_len idx in
    let K := K_of H (cov self) Sinv in
    index tagID (observed self) = Some j /\
    q_of delta <> 0 /\
    linalg_inv (S_of H (cov self) var_r var_phi) = Some Sinv /\
    st' = ({| var_System_noise := var_System_noise self;
              var_Sensor_noise := var_Sensor_noise self;
              mu := add (mu self)
                      (dot K (delta_z_of r phi (z_tilde_of theta delta)));
              cov := dot (sub (eye mu_len) (dot K H)) (cov self);
              observed := observed self |}, mu_len).
Proof.
  unfold correct. destruct (index tagID (observed self)) as [j|];
    [|discriminate].
  destruct (Req_dec_T _ 0) as [|Hq]; [discriminate|].
  destruct (linalg_inv _) as [Sinv|] eqn:HS; [|discriminate].
  intros [= <-]. exists j, Sinv. cbv zeta. auto.
Qed.

(** A correction that does not return leaves the object as it was. *)
Lemma correct_Raised (x y theta var_r var_phi r phi : R) (tagID : Z)
  (self : EKF_vSLAM) (mu_len : nat) (e : exn) (self' : EKF_vSLAM) :
  correct x y theta var_r var_phi r phi tagID self mu_len = Raised e self' ->
  self' = self.
Proof.
  unfold correct. destruct (index tagID (observed self)) as [j|].
  - destruct (Req_dec_T _ 0); [discriminate|].
    destruct (linalg_inv _); [discriminate|]. now intros [= _ <-].
  - now intros [= _ <-].
Qed.

Lemma correct_NonFinite (x y theta var_r var_phi r phi : R) (tagID : Z)
  (self : EKF_vSLAM) (mu_len : nat) (self' : EKF_vSLAM) :
  correct x y theta var_r var_phi r phi tagID self mu_len = NonFinite self' ->
  self' = self.
Proof.
  unfold correct. destruct (index tagID (observed self)) as [j|].
  - destruct (Req_dec_T _ 0); [now intros [= <-]|].
    destruct (linalg_inv _); discriminate.
  - discriminate.
Qed.

(** A returning correction keeps the registry, the shapes and the
    symmetry of the covariance. *)
Lemma correct_well_formed (x y theta var_r var_phi r phi : R) (tagID : Z)
  (self : EKF_vSLAM) (st' : EKF_vSLAM * nat) :
  well_formed self ->
  correct x y theta var_r var_phi r phi tagID self (dim self) = Ok st' ->
  well_formed (fst st') /\ snd st' = dim (fst st') /\
  observed (fst st') = observed self.
Proof.
  intros [[Hmu Hcov] Hs] Hc.
  destruct (correct_Ok _ _ _ _ _ _ _ _ _ _ _ Hc) as [j [Sinv H]].
  cbv zeta in H. destruct H as [Hj [Hq [HS ->]]]. cbn [fst snd].
  set (n := dim self) in *.
  assert (Hn : (0 < n)%nat) by (unfold n, dim; lia).
  set (H := H_of x y (mu self) n (3 + 2 * j)) in *.
  assert (HH : has_shape H 2 n) by now apply shape_H.
  assert (HHt : has_shape (transpose H) n 2) by now apply shape_transpose.
  assert (HSinv : has_shape Sinv 2 2) by now apply (linalg_inv_shape _ _ HS).
  unfold S_of in HS. unfold K_of.
  rewrite (multi_dot3_dot _ _ _ 2 n n 2) in HS; auto.
  rewrite (multi_dot3_dot _ _ _ n n 2 2); auto.
  assert (HsS : symmetric Sinv).
  { apply (linalg_inv_symmetric _ _) with (3 := HS).
    - apply shape_add. apply (shape_dot _ _ 2 n 2); auto.
      apply (shape_dot _ _ 2 n n); auto.
    - apply (symmetric_add _ _ 2).
      + apply (shape_dot _ _ 2 n 2); auto. apply (shape_dot _ _ 2 n n); auto.
      + apply shape_diag2.
      + now apply (symmetric_congruence H (cov self) 2 n).
      + apply symmetric_diag2. }
  split; [split; [split|] | split; reflexivity];
    cbn [mu cov observed]; unfold dim; cbn [observed];
    fold (dim self); fold n.
  - now apply shape_add.
  - apply (shape_dot _ _ n n n); auto. apply shape_sub. now apply shape_eye.
  - now apply (symmetric_correction (cov self) H Sinv 2 n).
Qed.

(** *** Evaluating a correction *)

Lemma linalg_inv_Some (A : matrix) :
  det2 A <> 0 ->
  linalg_inv A =
  Some (scale (/ det2 A)
          [[get A 1 1; - get A 0 1]; [- get A 1 0; get A 0 0]]).
Proof.
  intros Hd. unfold linalg_inv. now destruct (Req_dec_T (det2 A) 0).
Qed.

Lemma linalg_inv_None (A : matrix) : det2 A = 0 -> linalg_inv A = None.
Proof.
  intros Hd. unfold linalg_inv. now destruct (Req_dec_T (det2 A) 0).
Qed.

Lemma correct_returns (x y theta var_r var_phi r phi : R) (tagID : Z)
  (self : EKF_vSLAM) (mu_len j : nat) (Sinv : matrix) :
  let idx := (3 + 2 * j)%nat in
  let delta := delta_of x y (mu self) idx in
  let H := H_of x y (mu self) mu_len idx in
  let K := K_of H (cov self) Sinv in
  index tagID (observed self) = Some j ->
  q_of delta <> 0 ->
  linalg_inv (S_of H (cov self) var_r var_phi) = Some Sinv ->
  correct x y theta var_r var_phi r phi tagID self mu_len =
  Ok ({| var_System_noise := var_System_noise self;
         var_Sensor_noise := var_Sensor_noise self;
         mu := add (mu self)
                 (dot K (delta_z_of r phi (z_tilde_of theta delta)));
         cov := dot (sub (eye mu_len) (dot K H)) (cov self);
         observed := observed self |}, mu_len).
Proof.
  intros idx delta H K Hj Hq HS. unfold correct. rewrite Hj.
  fold idx. fold delta. destruct (Req_dec_T (q_of delta) 0); [contradiction|].
  fold H. rewrite HS. reflexivity.
Qed.

Lemma correct_raises (x y theta var_r var_phi r phi : R) (tagID : Z)
  (self : EKF_vSLAM) (mu_len j : nat) :
  let idx := (3 + 2 * j)%nat in
  index tagID (observed self) = Some j ->
  q_of (delta_of x y (mu self) idx) <> 0 ->
  det2 (S_of (H_of x y (mu self) mu_len idx) (cov self) var_r var_phi) = 0 ->
  correct x y theta var_r var_phi r phi tagID self mu_len =
  Raised LinAlgError self.
Proof.
  intros idx Hj Hq HS. unfold correct. rewrite Hj. fold idx.
  destruct (Req_dec_T _ 0); [contradiction|].
  now rewrite (linalg_inv_None _ HS).
Qed.

Lemma correct_divides_by_zero (x y theta var_r var_phi r phi : R)
  (tagID : Z) (self : EKF_vSLAM) (mu_len j : nat) :
  index tagID (observed self) = Some j ->
  q_of (delta_of x y (mu self) (3 + 2 * j)) = 0 ->
  correct x y theta var_r var_phi r phi tagID self mu_len = NonFinite self.
Proof.
  intros Hj Hq. unfold correct. rewrite Hj.
  now destruct (Req_dec_T _ 0).
Qed.

(** A correction evaluated stage by stage: each premise is one line of the
    method computed on the arrays at hand. *)
Lemma correct_eval (x y theta var_r var_phi r phi : R) (tagID : Z)
  (self : EKF_vSLAM) (mu_len j : nat)
  (delta H S K delta_z mu' cov' : matrix) :
  index tagID (observed self) = Some j ->
  delta_of x y (mu self) (3 + 2 * j) = delta ->
  q_of delta <> 0 ->
  H_of x y (mu self) mu_len (3 + 2 * j) = H ->
  S_of H (cov self) var_r var_phi = S ->
  det2 S <> 0 ->
  K_of H (cov self)
       (scale (/ det2 S) [[get S 1 1; - get S 0 1]; [- get S 1 0; get S 0 0]])
  = K ->
  delta_z_of r phi (z_tilde_of theta delta) = delta_z ->
  add (mu self) (dot K delta_z) = mu' ->
  dot (sub (eye mu_len) (dot K H)) (cov self) = cov' ->
  correct x y theta var_r var_phi r phi tagID self mu_len =
  Ok ({| var_System_noise := var_System_noise self;
         var_Sensor_noise := var_Sensor_noise self;
         mu := mu'; cov := cov'; observed := observed self |}, mu_len).
Proof.
  intros Hj Hd Hq HH HS Hdet HK Hdz Hmu Hcov.
  rewrite (correct_returns x y theta var_r var_phi r phi tagID self mu_len j
             (scale (/ det2 S)
                [[get S 1 1; - get S 0 1]; [- get S 1 0; get S 0 0]])).
  - rewrite Hd, HH, HK, Hdz, Hmu, Hcov. reflexivity.
  - exact Hj.
  - now rewrite Hd.
  - rewrite HH, HS. now apply linalg_inv_Some.
Qed.

(** After [resolve] the tag is in the registry: [index] cannot raise. *)
Lemma resolve_index (x y theta r phi : R) (tagID : Z)
  (st : EKF_vSLAM * nat) :
  exists j,
    index tagID (observed (fst (resolve x y theta r phi tagID st))) = Some j.
Proof.
  unfold resolve. destruct (contains tagID (observed (fst st))) eqn:Hc;
    cbn [negb].
  - now apply contains_index.
  - rewrite register_observed. exists (length (observed (fst st))).
    now apply index_app_new.
Qed.

(** *** The bearing wrap of line 174 *)

Lemma pymod_range (a b : R) : 0 < b -> 0 <= pymod a b < b.
Proof.
  intros Hb. unfold pymod.
  destruct (base_Int_part (a / b)) as [H1 H2].
  assert (Ha : a = a / b * b) by (field; lra).
  split.
  - apply Rmult_le_compat_r with (r := b) in H1; [|lra]. lra.
  - assert (H3 : a / b < IZR (Int_part (a / b)) + 1) by lra.
    apply Rmult_lt_compat_r with (r := b) in H3; [|lra]. lra.
Qed.

Lemma pymod_period (a b : R) (k : Z) :
  0 < b -> pymod (a + IZR k * b) b = pymod a b.
Proof.
  intros Hb. unfold pymod.
  replace ((a + IZR k * b) / b) with (a / b + IZR k) by (field; lra).
  assert (E : Int_part (a / b + IZR k) = (Int_part (a / b) + k)%Z).
  { symmetry. apply Int_part_spec.
    destruct (base_Int_part (a / b)) as [H1 H2].
    rewrite plus_IZR. lra. }
  rewrite E, plus_IZR. lra.
Qed.

Lemma pymod_small (a b : R) : 0 <= a < b -> pymod a b = a.
Proof.
  intros [H0 Hb]. unfold pymod.
  assert (E : Int_part (a / b) = 0%Z).
  { symmetry. apply Int_part_spec. simpl.
    assert (0 <= a / b < 1); [|lra]. split.
    - apply Rmult_le_pos; [lra|]. left. apply Rinv_0_lt_compat. lra.
    - apply Rmult_lt_reg_r with (r := b); [lra|].
      replace (a / b * b) with a by (field; lra). lra. }
  rewrite E. simpl. lra.
Qed.

Lemma wrap_bearing_range (d : R) : - PI <= wrap_bearing d < PI.
Proof.
  unfold wrap_bearing. pose proof PI_RGT_0 as Hpi.
  destruct (pymod_range (d + PI) (2 * PI)) as [H1 H2]; lra.
Qed.

Lemma wrap_bearing_period (d : R) (k : Z) :
  wrap_bearing (d + IZR k * (2 * PI)) = wrap_bearing d.
Proof.
  unfold wrap_bearing. pose proof PI_RGT_0 as Hpi.
  replace (d + IZR k * (2 * PI) + PI) with (d + PI + IZR k * (2 * PI))
    by lra.
  rewrite pymod_period by lra. reflexivity.
Qed.

Lemma wrap_bearing_small (d : R) : - PI <= d < PI -> wrap_bearing d = d.
Proof.
  intros Hd. unfold wrap_bearing. rewrite pymod_small; lra.
Qed.

Lemma wrap_bearing_PI : wrap_bearing PI = - PI.
Proof.
  pose proof PI_RGT_0 as Hpi.
  replace PI with (- PI + IZR 1 * (2 * PI)) at 1 by lra.
  rewrite wrap_bearing_period. apply wrap_bearing_small. lra.
Qed.

Lemma wrap_bearing_turns (d : R) :
  exists k : Z, wrap_bearing d = d + IZR k * (2 * PI).
Proof.
  exists (- Int_part ((d + PI) / (2 * PI)))%Z.
  unfold wrap_bearing, pymod. rewrite opp_IZR. lra.
Qed.

(** *** The wrap of the specification, into (-pi, pi] *)

Lemma spec_wrap_turns (d : R) :
  exists k : Z, Spec.wrap d = d + IZR k * (2 * PI).
Proof. now exists (Int_part ((PI - d) / (2 * PI))). Qed.

Lemma spec_wrap_range (d : R) : - PI < Spec.wrap d <= PI.
Proof.
  unfold Spec.wrap. pose proof PI_RGT_0 as Hpi.
  set (t := (PI - d) / (2 * PI)).
  destruct (base_Int_part t) as [H1 H2].
  assert (E : PI - d = t * (2 * PI)) by (unfold t; field; lra).
  assert (H3 : IZR (Int_part t) * (2 * PI) <= t * (2 * PI))
    by (apply Rmult_le_compat_r; lra).
  assert (H4 : (t - 1) * (2 * PI) < IZR (Int_part t) * (2 * PI))
    by (apply Rmult_lt_compat_r; lra).
  lra.
Qed.

(** Whole turns that amount to less than one turn are none. *)
Lemma whole_turns_zero (k : Z) :
  - (2 * PI) < IZR k * (2 * PI) < 2 * PI -> k = 0%Z.
Proof.
  intros [H1 H2]. pose proof PI_RGT_0 as Hpi.
  assert (Hlo : -1 < IZR k).
  { apply (Rmult_lt_reg_r (2 * PI)); lra. }
  assert (Hhi : IZR k < 1).
  { apply (Rmult_lt_reg_r (2 * PI)); lra. }
  apply lt_IZR in Hlo, Hhi. lia.
Qed.

(** [Spec.wrap d] is the only value of (-pi, pi] that differs from d by
    whole turns. *)
Lemma spec_wrap_unique (d w : R) (k : Z) :
  - PI < w <= PI -> w = d + IZR k * (2 * PI) -> Spec.wrap d = w.
Proof.
  intros Hw E. destruct (spec_wrap_turns d) as [n En].
  pose proof (spec_wrap_range d) as Hr.
  assert (Hz : (n - k = 0)%Z).
  { apply whole_turns_zero. rewrite minus_IZR. lra. }
  assert (n = k) by lia. subst n. lra.
Qed.

Lemma spec_wrap_small (d : R) : - PI < d <= PI -> Spec.wrap d = d.
Proof. intros Hd. apply (spec_wrap_unique d d 0); lra. Qed.

(** The wrap of line 174 against the wrap of the specification: the two
    agree unless the difference is an odd multiple of pi, where the
    specification has pi and line 174 gives - pi. *)
Lemma wrap_bearing_spec (d : R) :
  Spec.wrap d <> PI -> wrap_bearing d = Spec.wrap d.
Proof.
  intros Hne. destruct (spec_wrap_turns d) as [n En].
  pose proof (spec_wrap_range d) as Hr.
  replace d with (Spec.wrap d + IZR (- n) * (2 * PI)) at 1
    by (rewrite opp_IZR; lra).
  rewrite wrap_bearing_period. apply wrap_bearing_small. lra.
Qed.

Lemma wrap_bearing_spec_PI (d : R) :
  Spec.wrap d = PI -> wrap_bearing d = - PI.
Proof.
  intros E. destruct (spec_wrap_turns d) as [n En].
  replace d with (PI + IZR (- n) * (2 * PI))
    by (rewrite opp_IZR; lra).
  rewrite wrap_bearing_period. apply wrap_bearing_PI.
Qed.

(** *** One observation, a batch, a run *)

Lemma extends_refl (self : EKF_vSLAM) : extends self self.
Proof. exists []. now rewrite app_nil_r. Qed.

Lemma extends_trans (a b c : EKF_vSLAM) :
  extends a b -> extends b c -> extends a c.
Proof.
  intros [m1 H1] [m2 H2]. exists (m1 ++ m2). now rewrite H2, H1, app_assoc.
Qed.

Lemma correct_state (x y theta var_r var_phi r phi : R) (tagID : Z)
  (self : EKF_vSLAM) :
  well_formed self ->
  let o := correct x y theta var_r var_phi r phi tagID self (dim self) in
  well_formed (state_of fst o) /\ observed (state_of fst o) = observed self /\
  (forall st', o = Ok st' -> loop_inv st').
Proof.
  intros Hwf o. destruct o as [st'|e s|s] eqn:E; cbn [state_of]; subst o.
  - destruct (correct_well_formed _ _ _ _ _ _ _ _ _ _ Hwf E) as [H1 [H2 H3]].
    split; [exact H1|]. split; [exact H3|].
    intros st'' [= <-]. now split.
  - apply correct_Raised in E. subst s.
    split; [exact Hwf|]. split; [reflexivity|discriminate].
  - apply correct_NonFinite in E. subst s.
    split; [exact Hwf|]. split; [reflexivity|discriminate].
Qed.

Lemma register_well_formed (x y theta r phi : R) (tagID : Z)
  (self : EKF_vSLAM) :
  well_formed self ->
  well_formed (fst (register x y theta r phi tagID self)).
Proof.
  intros Hwf. split.
  - apply register_well_shaped. apply Hwf.
  - now apply register_symmetric.
Qed.

Lemma update_step_state (x y theta var_r var_phi : R)
  (st : EKF_vSLAM * nat) (ob : R * R * Z) :
  loop_inv st ->
  let o := update_step x y theta var_r var_phi st ob in
  well_formed (state_of fst o) /\ extends (fst st) (state_of fst o) /\
  (forall st', o = Ok st' -> loop_inv st').
Proof.
  destruct st as [self mu_len], ob as [[px py] tagID].
  intros [Hwf Hlen]. cbn [fst snd] in *. subst mu_len.
  unfold update_step, resolve. cbn [fst snd].
  destruct (contains tagID (observed self)) eqn:Hc; cbn [negb fst snd].
  - destruct (correct_state x y theta var_r var_phi (norm [px; py])
                (atan2 px py) tagID self Hwf) as [H1 [H2 H3]].
    cbv zeta. split; [exact H1|]. split; [|exact H3].
    exists []. now rewrite app_nil_r.
  - pose proof (register_well_formed x y theta (norm [px; py])
                  (atan2 px py) tagID self Hwf) as Hwf'.
    pose proof (register_mu_len x y theta (norm [px; py])
                  (atan2 px py) tagID self (proj1 Hwf)) as Hlen'.
    pose proof (register_observed x y theta (norm [px; py])
                  (atan2 px py) tagID self) as Hobs.
    destruct (register x y theta (norm [px; py]) (atan2 px py) tagID self)
      as [self1 mu_len1].
    cbn [fst snd] in *. subst mu_len1.
    destruct (correct_state x y theta var_r var_phi (norm [px; py])
                (atan2 px py) tagID self1 Hwf') as [H1 [H2 H3]].
    cbv zeta. split; [exact H1|]. split; [|exact H3].
    exists [tagID]. now rewrite H2, Hobs.
Qed.

Lemma update_loop_state (x y theta var_r var_phi : R)
  (landmarks : list (R * R * Z)) (st : EKF_vSLAM * nat) :
  loop_inv st ->
  let o := update_loop x y theta var_r var_phi st landmarks in
  well_formed (final o) /\ extends (fst st) (final o).
Proof.
  revert st. induction landmarks as [|ob rest IH]; intros st Hinv; cbn.
  - split; [apply Hinv | apply extends_refl].
  - destruct (update_step_state x y theta var_r var_phi st ob Hinv)
      as [H1 [H2 H3]].
    destruct (update_step x y theta var_r var_phi st ob) as [st'|e s|s];
      cbn [bind state_of] in *; auto.
    destruct (IH st' (H3 st' eq_refl)) as [H4 H5]. split; auto.
    now apply (extends_trans _ (fst st')).
Qed.

Lemma update_EKF_state (self : EKF_vSLAM) (landmarks : list (R * R * Z)) :
  well_formed self ->
  well_formed (final (update_EKF self landmarks)) /\
  extends self (final (update_EKF self landmarks)).
Proof.
  intros Hwf. unfold update_EKF. destruct (var_Sensor_noise self) as [vr vp].
  apply (update_loop_state _ _ _ vr vp landmarks (self, length (mu self))).
  split; auto. cbn [fst snd]. now destruct Hwf as [[[Hl _] _] _].
Qed.

Lemma do_call_state (self : EKF_vSLAM) (c : call) :
  well_formed self ->
  well_formed (final (do_call self c)) /\
  extends self (final (do_call self c)).
Proof.
  intros Hwf. destruct c as [twist|landmarks]; cbn [do_call].
  - cbn [final state_of]. split; [now apply predict_EKF_well_formed|].
    exists []. now rewrite predict_EKF_observed, app_nil_r.
  - now apply update_EKF_state.
Qed.

Lemma run_state (calls : list call) (self : EKF_vSLAM) :
  well_formed self ->
  well_formed (final (run self calls)) /\
  extends self (final (run self calls)).
Proof.
  revert self. induction calls as [|c rest IH]; intros self Hwf; cbn.
  - split; [exact Hwf | apply extends_refl].
  - destruct (do_call_state self c Hwf) as [H1 H2].
    destruct (do_call self c) as [self'|e s|s]; cbn [bind final state_of] in *;
      auto.
    destruct (IH self' H1) as [H3 H4]. split; auto.
    now apply (extends_trans _ self').
Qed.

Lemma init_well_formed (vs vn : R * R) : well_formed (init vs vn).
Proof.
  split; [split|].
  - split; [reflexivity | split; [repeat constructor | cbn; lia]].
  - apply (shape_zeros 3 3). lia.
  - apply (symmetric_zeros 3). lia.
Qed.

(** *** The batch, observation by observation *)

Lemma update_loop_app (x y theta var_r var_phi : R)
  (pre rest : list (R * R * Z)) (st : EKF_vSLAM * nat) :
  update_loop x y theta var_r var_phi st (pre ++ rest) =
  (st' <- update_steps x y theta var_r var_phi st pre ;;
   update_loop x y theta var_r var_phi st' rest).
Proof.
  revert st. induction pre as [|ob pre IH]; intros st; cbn; auto.
  destruct (update_step x y theta var_r var_phi st ob) as [st'|e s|s];
    cbn [bind]; auto.
Qed.

Lemma update_EKF_unfold (self : EKF_vSLAM) (landmarks : list (R * R * Z)) :
  update_EKF self landmarks =
  update_loop (get (mu self) 0 0) (get (mu self) 1 0) (get (mu self) 2 0)
    (fst (var_Sensor_noise self)) (snd (var_Sensor_noise self))
    (self, length (mu self)) landmarks.
Proof. unfold update_EKF. now destruct (var_Sensor_noise self). Qed.

(** *** Small facts for evaluating the methods on concrete arrays *)

Lemma dot_zero_col (K : matrix) (n : nat) :
  has_shape K n 2 -> dot K [[0]; [0]] = zeros n 1.
Proof.
  intros HK. pose proof HK as [_ [_ Hn]].
  assert (Hz : has_shape [[0]; [0]] 2 1) by (repeat split; auto).
  apply (mat_ext _ _ n 1).
  - now apply (shape_dot _ _ n 2 1).
  - now apply shape_zeros.
  - intros i j Hi Hj. rewrite (get_dot _ _ n 2 1); auto.
    rewrite get_zeros by auto. assert (j = 0%nat) by lia. subst j.
    cbn. lra.
Qed.

Lemma add_zeros (A : matrix) (m n : nat) :
  has_shape A m n -> add A (zeros m n) = A.
Proof.
  intros HA. apply (mat_ext _ _ m n); auto.
  - now apply shape_add.
  - intros i j Hi Hj. rewrite (get_add _ _ m n); auto.
    rewrite get_zeros by auto. lra.
Qed.

Lemma q_of_col (a b : R) : q_of [[a]; [b]] = a * a + b * b.
Proof. unfold q_of. cbn. lra. Qed.

Lemma norm_0_1 : norm [0; 1] = 1.
Proof.
  unfold norm. cbn [map fold_right].
  transitivity (sqrt 1); [f_equal; lra | apply sqrt_1].
Qed.

Lemma norm_0_2 : norm [0; 2] = 2.
Proof.
  unfold norm. cbn [map fold_right].
  transitivity (sqrt (2 * 2)); [f_equal; lra | apply sqrt_square; lra].
Qed.

Lemma norm_0_0 : norm [0; 0] = 0.
Proof.
  unfold norm. cbn [map fold_right].
  transitivity (sqrt 0); [f_equal; lra | apply sqrt_0].
Qed.

Lemma atan2_0_pos (x : R) : 0 < x -> atan2 0 x = 0.
Proof.
  intros Hx. unfold atan2. destruct (Rlt_dec 0 x); [|lra].
  replace (0 / x) with 0 by (field; lra). apply atan_0.
Qed.

Lemma atan2_0_0 : atan2 0 0 = 0.
Proof.
  unfold atan2.
  destruct (Rlt_dec 0 0); [lra|]. reflexivity.
Qed.

Lemma atan2_0_neg (x : R) : x < 0 -> atan2 0 x = PI.
Proof.
  intros Hx. unfold atan2. destruct (Rlt_dec 0 x); [lra|].
  destruct (Rlt_dec x 0); [|lra]. destruct (Rle_dec 0 0); [|lra].
  replace (0 / x) with 0 by (field; lra). rewrite atan_0. lra.
Qed.

(** The landmark straight ahead at distance 1 (theta = 0). *)
Lemma z_tilde_ahead : z_tilde_of 0 [[1]; [0]] = [[1]; [0]].
Proof.
  unfold z_tilde_of. rewrite q_of_col.
  replace (1 * 1 + 0 * 0) with 1 by lra.
  cbn [get nth]. rewrite sqrt_1, atan2_0_pos by lra.
  f_equal. f_equal. f_equal. lra.
Qed.

Lemma delta_z_ahead (r : R) : delta_z_of r 0 [[1]; [0]] = [[r - 1]; [0]].
Proof.
  unfold delta_z_of. cbn. replace (0 - 0) with 0 by lra.
  rewrite wrap_bearing_small; [reflexivity|]. pose proof PI_RGT_0. lra.
Qed.

Lemma H_ahead (x y : R) (mu : matrix) (n idx : nat) (H : matrix) :
  delta_of x y mu idx = [[1]; [0]] ->
  dot [[-1; 0; 0; 1; 0]; [0; -1; -1; 0; 1]] (Fxj_of n idx) = H ->
  H_of x y mu n idx = H.
Proof.
  intros Hd HH. unfold H_of. rewrite Hd. unfold J_of. rewrite q_of_col.
  replace (1 * 1 + 0 * 0) with 1 by lra. rewrite sqrt_1.
  rewrite <- HH. f_equal. cbn [scale map get nth].
  repeat (apply (f_equal2 (@cons _)); try reflexivity); lra.
Qed.

(** *** The inverse of a 2 x 2 array *)

Lemma shape_2x2 (A : matrix) :
  has_shape A 2 2 ->
  A = [[get A 0 0; get A 0 1]; [get A 1 0; get A 1 1]].
Proof.
  intros HA. apply (mat_ext _ _ 2 2); auto.
  - repeat split; auto.
  - intros i j Hi Hj.
    destruct i as [|[|i]], j as [|[|j]]; try lia; reflexivity.
Qed.

(** [linalg_inv] returns the inverse whenever there is one. *)
Lemma linalg_inv_of_inverse (S Sinv : matrix) :
  has_shape S 2 2 -> has_shape Sinv 2 2 -> dot S Sinv = eye 2 ->
  linalg_inv S = Some Sinv.
Proof.
  intros HS HSi Hinv.
  assert (E : forall i j, (i < 2)%nat -> (j < 2)%nat ->
            get S i 0 * get Sinv 0 j + get S i 1 * get Sinv 1 j =
            if Nat.eqb i j then 1 else 0).
  { intros i j Hi Hj. rewrite <- (get_eye 2 i j) by auto. rewrite <- Hinv.
    rewrite (get_dot S Sinv 2 2 2) by auto. cbn [sum]. lra. }
  pose proof (E 0%nat 0%nat ltac:(lia) ltac:(lia)) as E00.
  pose proof (E 0%nat 1%nat ltac:(lia) ltac:(lia)) as E01.
  pose proof (E 1%nat 0%nat ltac:(lia) ltac:(lia)) as E10.
  pose proof (E 1%nat 1%nat ltac:(lia) ltac:(lia)) as E11.
  cbn [Nat.eqb] in E00, E01, E10, E11. clear E.
  set (a := get S 0 0) in *. set (b := get S 0 1) in *.
  set (c := get S 1 0) in *. set (d := get S 1 1) in *.
  set (p := get Sinv 0 0) in *. set (q := get Sinv 0 1) in *.
  set (r := get Sinv 1 0) in *. set (s := get Sinv 1 1) in *.
  assert (Hdet : (a * d - b * c) * (p * s - q * r) = 1).
  { replace 1 with ((a * p + b * r) * (c * q + d * s)
                    - (a * q + b * s) * (c * p + d * r))
      by (rewrite E00, E01, E10, E11; ring).
    ring. }
  assert (Hne : a * d - b * c <> 0).
  { intros H0. rewrite H0 in Hdet. lra. }
  assert (Hp : p * (a * d - b * c) = d).
  { replace d with (d * (a * p + b * r) - b * (c * p + d * r)) at 2
      by (rewrite E00, E10; ring).
    ring. }
  assert (Hq : q * (a * d - b * c) = - b).
  { replace (- b) with (d * (a * q + b * s) - b * (c * q + d * s))
      by (rewrite E01, E11; ring).
    ring. }
  assert (Hr : r * (a * d - b * c) = - c).
  { replace (- c) with (a * (c * p + d * r) - c * (a * p + b * r))
      by (rewrite E00, E10; ring).
    ring. }
  assert (Hs : s * (a * d - b * c) = a).
  { replace a with (a * (c * q + d * s) - c * (a * q + b * s)) at 2
      by (rewrite E01, E11; ring).
    ring. }
  rewrite linalg_inv_Some by exact Hne.
  f_equal. rewrite (shape_2x2 Sinv HSi).
  unfold det2. fold a b c d p q r s. cbn [scale map].
  repeat (apply (f_equal2 (@cons _)); try reflexivity).
  - apply Rmult_eq_reg_r with (a * d - b * c); [|exact Hne].
    rewrite Hp. field. exact Hne.
  - apply Rmult_eq_reg_r with (a * d - b * c); [|exact Hne].
    rewrite Hq. field. exact Hne.
  - apply Rmult_eq_reg_r with (a * d - b * c); [|exact Hne].
    rewrite Hr. field. exact Hne.
  - apply Rmult_eq_reg_r with (a * d - b * c); [|exact Hne].
    rewrite Hs. field. exact Hne.
Qed.

(** *** The source's arrays are the specification's *)

Lemma get_assign_block (A B : matrix) (m n i j : nat) :
  has_shape A m n -> (i < m)%nat -> (j < n)%nat ->
  get (assign_block A B) i j =
  if (i <? nrows B)%nat && (j <? ncols B)%nat then get B i j
  else get A i j.
Proof.
  intros HA Hi Hj. unfold assign_block.
  rewrite (shape_nrows A m n HA), (shape_ncols A m n HA).
  now rewrite get_mk.
Qed.

Lemma Fxj_of_spec (mu : matrix) (n j : nat) :
  has_shape mu n 1 -> (3 + 2 * j + 1 < n)%nat ->
  Fxj_of n (3 + 2 * j) = Spec.Fxj mu j.
Proof.
  intros Hmu Hj. assert (Hn : (0 < n)%nat) by lia.
  unfold Spec.Fxj, Spec.idx. destruct Hmu as [-> _].
  apply (mat_ext _ _ 5 n).
  - now apply shape_Fxj.
  - apply shape_mk. lia.
  - intros i c Hi Hc. rewrite get_mk by auto. unfold Fxj_of.
    assert (H0 : has_shape (assign_block (zeros 5 n) (eye 3)) 5 n).
    { apply shape_assign_block. apply shape_zeros. lia. }
    rewrite (get_set _ 5 n); try lia; [|now apply shape_set].
    rewrite (get_set _ 5 n); try lia; auto.
    rewrite (get_assign_block _ _ 5 n); auto; [|apply shape_zeros; lia].
    rewrite get_zeros by auto.
    change (nrows (eye 3)) with 3%nat. change (ncols (eye 3)) with 3%nat.
    destruct (Nat.ltb_spec i 3) as [Hi3|Hi3], (Nat.ltb_spec c 3) as [Hc3|Hc3];
      cbn [andb]; try (rewrite get_eye by lia);
      repeat match goal with
             | |- context [Nat.eqb ?a ?b] =>
                 destruct (Nat.eqb_spec a b); cbn [andb]
             end;
      try lia; reflexivity.
Qed.

Lemma J_of_spec (mu : matrix) (j : nat) :
  J_of (delta_of (get mu 0 0) (get mu 1 0) mu (3 + 2 * j)) = Spec.J mu j.
Proof.
  unfold J_of, delta_of. rewrite q_of_col. reflexivity.
Qed.

Lemma H_of_spec (mu : matrix) (n j : nat) :
  has_shape mu n 1 -> (3 + 2 * j + 1 < n)%nat ->
  H_of (get mu 0 0) (get mu 1 0) mu n (3 + 2 * j) = Spec.H mu j.
Proof.
  intros Hmu Hj. unfold H_of, Spec.H.
  now rewrite J_of_spec, (Fxj_of_spec mu n j).
Qed.

Lemma shape_spec_H (mu : matrix) (n j : nat) :
  has_shape mu n 1 -> has_shape (Spec.H mu j) 2 n.
Proof.
  intros Hmu. pose proof Hmu as [Hl [_ Hn]]. unfold Spec.H.
  apply (shape_dot _ _ 2 5 n).
  - unfold Spec.J, scale. cbn [map]. repeat split; auto.
  - unfold Spec.Fxj. rewrite Hl. apply shape_mk. lia.
Qed.

Lemma S_of_spec (mu cov : matrix) (n j : nat) (var_r var_phi : R) :
  has_shape mu n 1 -> has_shape cov n n ->
  S_of (Spec.H mu j) cov var_r var_phi = Spec.S mu cov j var_r var_phi.
Proof.
  intros Hmu Hcov. pose proof Hmu as [_ [_ Hn]].
  pose proof (shape_spec_H mu n j Hmu) as HH.
  unfold S_of, Spec.S.
  rewrite (multi_dot3_dot _ _ _ 2 n n 2); auto.
  now apply shape_transpose.
Qed.

Lemma K_of_spec (mu cov Sinv : matrix) (n j : nat) :
  has_shape mu n 1 -> has_shape cov n n -> has_shape Sinv 2 2 ->
  K_of (Spec.H mu j) cov Sinv = Spec.K mu cov j Sinv.
Proof.
  intros Hmu Hcov HS. pose proof Hmu as [_ [_ Hn]].
  pose proof (shape_spec_H mu n j Hmu) as HH.
  unfold K_of, Spec.K.
  rewrite (multi_dot3_dot _ _ _ n n 2 2); auto.
  now apply shape_transpose.
Qed.

Lemma delta_z_of_spec (mu : matrix) (j : nat) (r phi : R) :
  delta_z_of r phi
    (z_tilde_of (get mu 2 0)
       (delta_of (get mu 0 0) (get mu 1 0) mu (3 + 2 * j))) =
  Spec.innovation mu j r (wrap_bearing (phi - Spec.z_tilde_phi mu j)).
Proof.
  unfold delta_z_of, z_tilde_of, delta_of. rewrite q_of_col. reflexivity.
Qed.

(** A registered tag has its two rows in [mu]. *)
Lemma index_in_range (self : EKF_vSLAM) (tagID : Z) (j : nat) :
  index tagID (observed self) = Some j -> (3 + 2 * j + 1 < dim self)%nat.
Proof. intros H. apply index_lt in H. unfold dim. lia. Qed.

(** A batch of one observation of a registered landmark, with q nonzero
    and an inverse [Sinv] of S: the call returns the update of the
    specification for the bearing component that line 174 computes. *)
Lemma update_EKF_single (self : EKF_vSLAM) (px py : R) (tagID : Z)
  (j : nat) (Sinv : matrix) :
  let r := norm [px; py] in
  let phi := atan2 px py in
  let var_r := fst (var_Sensor_noise self) in
  let var_phi := snd (var_Sensor_noise self) in
  well_shaped self ->
  index tagID (observed self) = Some j ->
  Spec.q (mu self) j <> 0 ->
  has_shape Sinv 2 2 ->
  dot (Spec.S (mu self) (cov self) j var_r var_phi) Sinv = eye 2 ->
  update_EKF self [(px, py, tagID)] =
  Ok {| var_System_noise := var_System_noise self;
        var_Sensor_noise := var_Sensor_noise self;
        mu := Spec.mu_at (mu self) (cov self) j r
                (wrap_bearing (phi - Spec.z_tilde_phi (mu self) j)) Sinv;
        cov := Spec.cov' (mu self) (cov self) j Sinv;
        observed := observed self |}.
Proof.
  intros r phi var_r var_phi [Hmu Hcov] Hj Hq HSi Hinv.
  pose proof (index_in_range self tagID j Hj) as Hr.
  pose proof Hmu as [Hlen _].
  rewrite update_EKF_unfold. cbn [update_loop]. unfold update_step.
  fold r phi var_r var_phi. unfold resolve. cbn [fst snd].
  rewrite (index_contains _ _ _ Hj). cbn [negb fst snd]. rewrite Hlen.
  assert (HH : H_of (get (mu self) 0 0) (get (mu self) 1 0) (mu self)
                 (dim self) (3 + 2 * j) = Spec.H (mu self) j)
    by now apply H_of_spec.
  rewrite (correct_returns _ _ _ _ _ _ _ _ self (dim self) j Sinv); auto.
  - cbn [bind fst]. rewrite HH.
    rewrite (K_of_spec _ _ _ (dim self)) by auto.
    rewrite delta_z_of_spec. unfold Spec.mu_at, Spec.cov'.
    now rewrite Hlen.
  - unfold delta_of. now rewrite q_of_col.
  - rewrite HH, (S_of_spec _ _ (dim self)) by auto.
    apply linalg_inv_of_inverse; auto.
    unfold Spec.S. apply shape_add.
    pose proof (shape_spec_H (mu self) (dim self) j Hmu) as HsH.
    assert (Hd : (0 < dim self)%nat) by (unfold dim; lia).
    apply (shape_dot _ _ 2 (dim self) 2).
    + now apply (shape_dot _ _ 2 (dim self) (dim self)).
    + now apply shape_transpose.
Qed.

Lemma update_step_exn (x y theta var_r var_phi : R)
  (st : EKF_vSLAM * nat) (ob : R * R * Z) (e : exn) (s : EKF_vSLAM) :
  update_step x y theta var_r var_phi st ob = Raised e s -> e = LinAlgError.
Proof.
  destruct ob as [[px py] tagID]. unfold update_step.
  destruct (resolve_index x y theta (norm [px; py]) (atan2 px py) tagID st)
    as [j Hj].
  unfold correct. rewrite Hj.
  destruct (Req_dec_T _ 0); [discriminate|].
  destruct (linalg_inv _); [discriminate|]. now intros [= <- _].
Qed.

Lemma update_loop_exn (x y theta var_r var_phi : R)
  (landmarks : list (R * R * Z)) (st : EKF_vSLAM * nat)
  (e : exn) (s : EKF_vSLAM) :
  update_loop x y theta var_r var_phi st landmarks = Raised e s ->
  e = LinAlgError.
Proof.
  revert st. induction landmarks as [|ob rest IH]; intros st; cbn;
    [discriminate|].
  destruct (update_step x y theta var_r var_phi st ob) as [st'|e' s'|s']
    eqn:E; cbn [bind].
  - apply IH.
  - intros [= <- _]. now apply update_step_exn in E.
  - discriminate.
Qed.

End EkfFacts.


(** ** The two concrete runs, evaluated *)

Module ScenarioFacts.
Import Np NpFacts Ekf EkfFacts Scenario.

Create HintDb scen.

#[export] Hint Unfold mu1 cov1 mu2 cov1r H_a S_a K_a cov2 cov3 S_b K_b
  mu4 cov4 mu4r cov4r H_c S_c Sinv_b zcov1r S_z K_z zmu2 zcov2r K_y H_d
  : scen.

Ltac rows :=
  repeat match goal with
         | |- (_ :: _) = (_ :: _) => apply (f_equal2 (@cons _))
         | |- @nil _ = @nil _ => reflexivity
         end.

Ltac rcbn :=
  autounfold with scen; unfold det2;
  cbn -[Rplus Rmult Rminus Ropp Rinv Rdiv IZR Q2R sqrt cos sin atan PI
        Req_dec_T Rlt_dec Rle_dec Int_part].

Ltac mat_eq := rcbn; rows; try lra; try (field; lra).

Ltac shape_lit :=
  autounfold with scen;
  split; [reflexivity | split; [repeat constructor | cbn; lia]].

(** *** The run with the repository's noise variances *)

Lemma predict_s0 : predict_EKF s0 (0, 0, 0) = s1.
Proof. unfold predict_EKF, s0, init, s1. f_equal; mat_eq. Qed.

Lemma register_s1 : register (61 / 100) (61 / 100) 0 1 0 7 s1 = (s1r, 5%nat).
Proof.
  unfold register, s1, s1r.
  cbn [mu cov observed var_System_noise var_Sensor_noise].
  rewrite Rplus_0_l, cos_0, sin_0. f_equal. f_equal; mat_eq.
Qed.

Lemma correct_s1r :
  correct (61 / 100) (61 / 100) 0 0.01 0.01 1 0 7 s1r 5 = Ok (s2, 5%nat).
Proof.
  apply (correct_eval _ _ _ _ _ _ _ _ s1r 5 0 [[1]; [0]] H_a S_a K_a
           [[0]; [0]]).
  - reflexivity.
  - unfold delta_of. mat_eq.
  - rewrite q_of_col. lra.
  - apply H_ahead; [unfold delta_of|]; mat_eq.
  - unfold S_of. mat_eq.
  - rcbn. lra.
  - unfold K_of. mat_eq.
  - rewrite z_tilde_ahead, delta_z_ahead. mat_eq.
  - mat_eq.
  - mat_eq.
Qed.

Lemma step_s1 :
  update_step (61 / 100) (61 / 100) 0 0.01 0.01 (s1, 3%nat) (0, 1, 7%Z) =
  Ok (s2, 5%nat).
Proof.
  unfold update_step. rewrite norm_0_1, atan2_0_pos by lra.
  unfold resolve. cbn [fst snd negb contains existsb observed s1].
  rewrite register_s1. cbn [fst snd]. apply correct_s1r.
Qed.

Lemma update_s1 : update_EKF s1 [(0, 1, 7%Z)] = Ok s2.
Proof.
  rewrite update_EKF_unfold. cbn [var_Sensor_noise s1 vn fst snd].
  change (get (mu s1) 0 0) with (61 / 100).
  change (get (mu s1) 1 0) with (61 / 100).
  change (get (mu s1) 2 0) with 0.
  cbn [update_loop mu s1 mu1 length]. rewrite step_s1. reflexivity.
Qed.

Lemma predict_s2 : predict_EKF s2 (0, 0, 0) = s3.
Proof.
  unfold predict_EKF, s2, s3.
  cbn [mu cov var_System_noise var_Sensor_noise observed]. f_equal; mat_eq.
Qed.

Lemma run_s0 :
  run s0 [Predict (0, 0, 0); Update [(0, 1, 7%Z)]; Predict (0, 0, 0)] = Ok s3.
Proof.
  cbn [run do_call bind]. rewrite predict_s0, update_s1. cbn [bind].
  now rewrite predict_s2.
Qed.

Lemma correct_s3 :
  correct (61 / 100) (61 / 100) 0 0.01 0.01 2 0 7 s3 5 = Ok (s4, 5%nat).
Proof.
  apply (correct_eval _ _ _ _ _ _ _ _ s3 5 0 [[1]; [0]] H_a S_b K_b
           [[1]; [0]]).
  - reflexivity.
  - unfold delta_of. mat_eq.
  - rewrite q_of_col. lra.
  - apply H_ahead; [unfold delta_of|]; mat_eq.
  - unfold S_of. mat_eq.
  - rcbn. lra.
  - unfold K_of. mat_eq.
  - rewrite z_tilde_ahead, delta_z_ahead. mat_eq.
  - mat_eq.
  - mat_eq.
Qed.

Lemma step_s3 :
  update_step (61 / 100) (61 / 100) 0 0.01 0.01 (s3, 5%nat) (0, 2, 7%Z) =
  Ok (s4, 5%nat).
Proof.
  unfold update_step. rewrite norm_0_2, atan2_0_pos by lra.
  unfold resolve. cbn [fst snd negb contains existsb observed s3 Z.eqb
                       Pos.eqb orb].
  apply correct_s3.
Qed.

Lemma register_s4 :
  register (61 / 100) (61 / 100) 0 1 0 8 s4 = (s4r, 7%nat).
Proof.
  unfold register, s4, s4r.
  cbn [mu cov observed var_System_noise var_Sensor_noise].
  rewrite Rplus_0_l, cos_0, sin_0. f_equal. f_equal; mat_eq.
Qed.

Lemma resolve_s4 :
  resolve (61 / 100) (61 / 100) 0 1 0 8 (s4, 5%nat) = (s4r, 7%nat).
Proof.
  unfold resolve. cbn [fst snd negb contains existsb observed s4 Z.eqb
                       Pos.eqb orb].
  apply register_s4.
Qed.

Lemma H_s4r : H_of (61 / 100) (61 / 100) (mu s4r) 7 5 = H_c.
Proof. apply H_ahead; [unfold delta_of|]; mat_eq. Qed.

Lemma S_s4r : S_of H_c (cov s4r) 0.01 0.01 = S_c.
Proof. unfold S_of. mat_eq. Qed.

(** The correction for tag 8 has a zero innovation: the mean stays. *)
Lemma correct_s4r :
  exists cov5,
    correct (61 / 100) (61 / 100) 0 0.01 0.01 1 0 8 s4r 7 =
    Ok (mkEKF vs vn mu4r cov5 [7%Z; 8%Z], 7%nat).
Proof.
  eexists.
  rewrite (correct_returns _ _ _ _ _ _ _ _ s4r 7 1
     (scale (/ det2 S_c)
        [[get S_c 1 1; - get S_c 0 1]; [- get S_c 1 0; get S_c 0 0]])).
  - cbn [var_System_noise var_Sensor_noise observed s4r Nat.mul Nat.add].
    rewrite H_s4r.
    replace (delta_of (61 / 100) (61 / 100) (mu s4r) 5) with [[1]; [0]]
      by (unfold delta_of; mat_eq).
    rewrite z_tilde_ahead, delta_z_ahead.
    replace (1 - 1) with 0 by lra.
    rewrite (dot_zero_col _ 7).
    + rewrite (add_zeros _ 7 1); [reflexivity|]. shape_lit.
    + unfold K_of. rewrite (multi_dot3_dot _ _ _ 7 7 2 2).
      * apply (shape_dot _ _ 7 2 2); [apply (shape_dot _ _ 7 7 2)|];
          shape_lit.
      * shape_lit.
      * shape_lit.
      * shape_lit.
  - reflexivity.
  - replace (delta_of (61 / 100) (61 / 100) (mu s4r) (3 + 2 * 1))
      with [[1]; [0]] by (unfold delta_of; mat_eq).
    rewrite q_of_col. lra.
  - cbn [Nat.mul Nat.add]. rewrite H_s4r, S_s4r.
    apply linalg_inv_Some. rcbn. lra.
Qed.

Lemma update_s3_one : update_EKF s3 [(0, 2, 7%Z)] = Ok s4.
Proof.
  rewrite update_EKF_unfold. cbn [var_Sensor_noise s3 vn fst snd].
  change (get (mu s3) 0 0) with (61 / 100).
  change (get (mu s3) 1 0) with (61 / 100).
  change (get (mu s3) 2 0) with 0.
  cbn [update_loop mu s3 mu2 length]. rewrite step_s3. reflexivity.
Qed.

Lemma update_s3_two :
  exists cov5,
    update_EKF s3 [(0, 2, 7%Z); (0, 1, 8%Z)] =
    Ok (mkEKF vs vn mu4r cov5 [7%Z; 8%Z]).
Proof.
  destruct correct_s4r as [cov5 H5]. exists cov5.
  rewrite update_EKF_unfold. cbn [var_Sensor_noise s3 vn fst snd].
  change (get (mu s3) 0 0) with (61 / 100).
  change (get (mu s3) 1 0) with (61 / 100).
  change (get (mu s3) 2 0) with 0.
  cbn [update_loop mu s3 mu2 length]. rewrite step_s3. cbn [bind].
  unfold update_step. rewrite norm_0_1, atan2_0_pos by lra.
  rewrite resolve_s4. cbn [fst snd]. rewrite H5. reflexivity.
Qed.

(** *** The run with zero noise *)

Lemma register_z0 : register 0.61 0.61 0 1 0 7 z0 = (z0r, 5%nat).
Proof.
  unfold register, z0, init, z0r.
  cbn [mu cov observed var_System_noise var_Sensor_noise].
  rewrite Rplus_0_l, cos_0, sin_0. f_equal. f_equal; mat_eq.
Qed.

Lemma correct_z0r : correct 0.61 0.61 0 0 0 1 0 7 z0r 5 = Ok (z1, 5%nat).
Proof.
  apply (correct_eval _ _ _ _ _ _ _ _ z0r 5 0 [[1]; [0]] H_a S_z K_z
           [[0]; [0]]).
  - reflexivity.
  - unfold delta_of. mat_eq.
  - rewrite q_of_col. lra.
  - apply H_ahead; [unfold delta_of|]; mat_eq.
  - unfold S_of. mat_eq.
  - rcbn. lra.
  - unfold K_of. mat_eq.
  - rewrite z_tilde_ahead, delta_z_ahead. mat_eq.
  - mat_eq.
  - mat_eq.
Qed.

Lemma update_z0 : update_EKF z0 [(0, 1, 7%Z)] = Ok z1.
Proof.
  rewrite update_EKF_unfold.
  change (get (mu z0) 0 0) with 0.61.
  change (get (mu z0) 1 0) with 0.61.
  replace (get (mu z0) 2 0) with 0 by (cbn; lra).
  change (var_Sensor_noise z0) with ((0, 0) : R * R).
  change (length (mu z0)) with 3%nat.
  cbn [update_loop fst snd]. unfold update_step.
  rewrite norm_0_1, atan2_0_pos by lra.
  unfold resolve. change (observed (fst (z0, 3%nat))) with (@nil Z).
  cbn [fst snd negb contains existsb]. rewrite register_z0. cbn [fst snd]. rewrite correct_z0r.
  reflexivity.
Qed.

Lemma register_z1 :
  register (61 / 100) (61 / 100) 0 1 0 8 z1 = (z1r, 7%nat).
Proof.
  unfold register, z1, z1r.
  cbn [mu cov observed var_System_noise var_Sensor_noise].
  rewrite Rplus_0_l, cos_0, sin_0. f_equal. f_equal; mat_eq.
Qed.

Lemma correct_z1r :
  correct (61 / 100) (61 / 100) 0 0 0 1 0 8 z1r 7 = Ok (z2, 7%nat).
Proof.
  apply (correct_eval _ _ _ _ _ _ _ _ z1r 7 1 [[1]; [0]] H_c S_z K_y
           [[0]; [0]]).
  - reflexivity.
  - unfold delta_of. mat_eq.
  - rewrite q_of_col. lra.
  - apply H_ahead; [unfold delta_of|]; mat_eq.
  - unfold S_of. mat_eq.
  - rcbn. lra.
  - unfold K_of. mat_eq.
  - rewrite z_tilde_ahead, delta_z_ahead. mat_eq.
  - mat_eq.
  - mat_eq.
Qed.

Lemma steps_z1 :
  update_steps (61 / 100) (61 / 100) 0 0 0 (z1, 5%nat) [(0, 1, 8%Z)] =
  Ok (z2, 7%nat).
Proof.
  cbn [update_steps]. unfold update_step.
  rewrite norm_0_1, atan2_0_pos by lra.
  unfold resolve. cbn [fst snd negb contains existsb observed z1 Z.eqb
                       Pos.eqb orb].
  rewrite register_z1. cbn [fst snd]. rewrite correct_z1r. reflexivity.
Qed.

Lemma H_z2 : H_of (61 / 100) (61 / 100) (mu z2) 7 3 = H_d.
Proof. apply H_ahead; [unfold delta_of|]; mat_eq. Qed.

Lemma H_z1 : H_of (61 / 100) (61 / 100) (mu z1) 5 3 = H_a.
Proof. apply H_ahead; [unfold delta_of|]; mat_eq. Qed.

(** With zero sensor noise and the zero covariance, S is the zero array. *)
Lemma S_z1_singular :
  det2 (S_of (H_of (61 / 100) (61 / 100) (mu z1) 5 3) (cov z1) 0 0) = 0.
Proof. rewrite H_z1. unfold S_of. rcbn. lra. Qed.

Lemma S_z2_singular :
  det2 (S_of (H_of (61 / 100) (61 / 100) (mu z2) 7 3) (cov z2) 0 0) = 0.
Proof. rewrite H_z2. unfold S_of. rcbn. lra. Qed.

Lemma update_z1_raises :
  update_EKF z1 [(0, 1, 7%Z)] = Raised LinAlgError z1.
Proof.
  rewrite update_EKF_unfold. cbn [var_Sensor_noise z1 fst snd].
  change (get (mu z1) 0 0) with (61 / 100).
  change (get (mu z1) 1 0) with (61 / 100).
  change (get (mu z1) 2 0) with 0.
  cbn [update_loop mu z1 mu2 length]. unfold update_step.
  rewrite norm_0_1, atan2_0_pos by lra.
  unfold resolve. cbn [fst snd negb contains existsb observed z1 Z.eqb
                       Pos.eqb orb].
  rewrite (correct_raises _ _ _ _ _ _ _ _ z1 5 0); auto.
  - replace (delta_of (61 / 100) (61 / 100) (mu z1) (3 + 2 * 0))
      with [[1]; [0]] by (unfold delta_of; mat_eq).
    rewrite q_of_col. lra.
  - apply S_z1_singular.
Qed.

Lemma register_z0_at_pose : register 0.61 0.61 0 0 0 7 z0 = (z0q, 5%nat).
Proof.
  unfold register, z0, init, z0q.
  cbn [mu cov observed var_System_noise var_Sensor_noise].
  f_equal. f_equal; mat_eq.
Qed.

Lemma update_z0_at_pose : update_EKF z0 [(0, 0, 7%Z)] = NonFinite z0q.
Proof.
  rewrite update_EKF_unfold.
  change (get (mu z0) 0 0) with 0.61.
  change (get (mu z0) 1 0) with 0.61.
  replace (get (mu z0) 2 0) with 0 by (cbn; lra).
  change (var_Sensor_noise z0) with ((0, 0) : R * R).
  change (length (mu z0)) with 3%nat.
  cbn [update_loop fst snd]. unfold update_step.
  rewrite norm_0_0, atan2_0_0.
  unfold resolve. change (observed (fst (z0, 3%nat))) with (@nil Z).
  cbn [fst snd negb contains existsb]. rewrite register_z0_at_pose. cbn [fst snd].
  rewrite (correct_divides_by_zero _ _ _ _ _ _ _ _ z0q 5 0); auto.
  replace (delta_of 0.61 0.61 (mu z0q) (3 + 2 * 0)) with [[0]; [0]]
    by (unfold delta_of; mat_eq).
  rewrite q_of_col. lra.
Qed.

(** The belief [s3] of the first run is well formed. *)
Lemma s3_well_formed : well_formed s3.
Proof.
  pose proof (run_state
    [Predict (0, 0, 0); Update [(0, 1, 7%Z)]; Predict (0, 0, 0)]
    s0 (init_well_formed vs vn)) as [H _].
  rewrite run_s0 in H. exact H.
Qed.

Lemma H_s3 : H_of (61 / 100) (61 / 100) (mu s3) 5 3 = H_a.
Proof. apply H_ahead; [unfold delta_of|]; mat_eq. Qed.

Lemma S_s3 : S_of H_a (cov s3) 0.01 0.01 = S_b.
Proof. unfold S_of. mat_eq. Qed.

Lemma spec_S_s3 : Spec.S (mu s3) (cov s3) 0 0.01 0.01 = S_b.
Proof.
  rewrite <- (S_of_spec _ _ 5); try shape_lit.
  rewrite <- (H_of_spec (mu s3) 5 0); [|shape_lit|cbn; lia].
  change (get (mu s3) 0 0) with (61 / 100).
  change (get (mu s3) 1 0) with (61 / 100).
  change (3 + 2 * 0)%nat with 3%nat.
  rewrite H_s3. apply S_s3.
Qed.

Lemma spec_K_s3 : Spec.K (mu s3) (cov s3) 0 Sinv_b = K_b.
Proof.
  rewrite <- (K_of_spec _ _ _ 5); try shape_lit.
  rewrite <- (H_of_spec (mu s3) 5 0); [|shape_lit|cbn; lia].
  change (get (mu s3) 0 0) with (61 / 100).
  change (get (mu s3) 1 0) with (61 / 100).
  change (3 + 2 * 0)%nat with 3%nat.
  rewrite H_s3. unfold K_of. mat_eq.
Qed.

(** At [s3] the landmark of tag 7 is straight ahead: the predicted
    bearing is 0. *)
Lemma spec_z_tilde_phi_s3 : Spec.z_tilde_phi (mu s3) 0 = 0.
Proof.
  unfold Spec.z_tilde_phi, Spec.delta_x, Spec.delta_y, Spec.x, Spec.y,
    Spec.theta, Spec.idx.
  replace (get (mu s3) (3 + 2 * 0 + 1) 0 - get (mu s3) 1 0) with 0
    by (rcbn; lra).
  replace (get (mu s3) (3 + 2 * 0) 0 - get (mu s3) 0 0) with 1
    by (rcbn; lra).
  replace (get (mu s3) 2 0) with 0 by (rcbn; lra).
  rewrite atan2_0_pos by lra. lra.
Qed.

Lemma s3_single_observation :
  well_shaped s3 /\ index 7 (observed s3) = Some 0%nat /\
  Spec.q (mu s3) 0 <> 0 /\ has_shape Sinv_b 2 2 /\
  dot (Spec.S (mu s3) (cov s3) 0 (fst (var_Sensor_noise s3))
         (snd (var_Sensor_noise s3))) Sinv_b = eye 2.
Proof.
  split; [split; shape_lit|]. split; [reflexivity|].
  split.
  { unfold Spec.q, Spec.delta_x, Spec.delta_y, Spec.x, Spec.y, Spec.idx.
    rcbn. lra. }
  split; [shape_lit|].
  change (fst (var_Sensor_noise s3)) with 0.01.
  change (snd (var_Sensor_noise s3)) with 0.01.
  rewrite spec_S_s3. mat_eq.
Qed.

End ScenarioFacts.

(** ** Directions and bearings *)

Module TrigFacts.
Import Np.

Lemma cos_whole_turns (m : Z) : cos (IZR m * (2 * PI)) = 1.
Proof.
  assert (H : forall n : nat, cos (INR n * (2 * PI)) = 1).
  { intros n. replace (INR n * (2 * PI)) with (0 + 2 * INR n * PI) by lra.
    rewrite cos_period. apply cos_0. }
  destruct (Z.le_gt_cases 0 m) as [Hm|Hm].
  - rewrite <- (Z2Nat.id m Hm), <- INR_IZR_INZ. apply H.
  - replace (IZR m * (2 * PI)) with (- (IZR (- m) * (2 * PI)))
      by (rewrite opp_IZR; lra).
    rewrite cos_neg.
    rewrite <- (Z2Nat.id (- m)) by lia. rewrite <- INR_IZR_INZ. apply H.
Qed.

(** Two angles with the same cosine and sine differ by whole turns. *)
Lemma same_direction (t a : R) :
  cos t = cos a -> sin t = sin a -> exists k : Z, t = a + IZR k * (2 * PI).
Proof.
  intros Hc Hs.
  assert (Hs0 : sin (t - a) = 0) by (rewrite sin_minus, Hc, Hs; ring).
  assert (Hc1 : cos (t - a) = 1).
  { rewrite cos_minus, Hc, Hs. pose proof (sin2_cos2 a) as H.
    unfold Rsqr in H. lra. }
  destruct (sin_eq_0_0 _ Hs0) as [k Hk].
  destruct (Z.Even_or_Odd k) as [[m ->]|[m ->]].
  - exists m. rewrite mult_IZR in Hk. lra.
  - exfalso. rewrite Hk in Hc1.
    replace (IZR (2 * m + 1) * PI) with (IZR m * (2 * PI) + PI) in Hc1
      by (rewrite plus_IZR, mult_IZR; lra).
    rewrite neg_cos, cos_whole_turns in Hc1. lra.
Qed.

Lemma sqrt_ratio (x y : R) :
  x <> 0 ->
  sqrt (1 + (y / x)²) * Rabs x = sqrt (x * x + y * y).
Proof.
  intros Hx. symmetry. apply sqrt_lem_1.
  - nra.
  - apply Rmult_le_pos; [apply sqrt_pos | apply Rabs_pos].
  - assert (H1 : 0 <= 1 + (y / x)²) by (unfold Rsqr; nra).
    replace (sqrt (1 + (y / x)²) * Rabs x * (sqrt (1 + (y / x)²) * Rabs x))
      with (sqrt (1 + (y / x)²) * sqrt (1 + (y / x)²) * (Rabs x * Rabs x))
      by ring.
    rewrite sqrt_sqrt by exact H1.
    replace (Rabs x * Rabs x) with (x * x)
      by (fold (Rsqr (Rabs x)); rewrite <- Rsqr_abs; reflexivity).
    unfold Rsqr. field. exact Hx.
Qed.

(** [atan2 y x] is the polar angle of the point (x, y). *)
Lemma atan2_polar (x y : R) :
  x <> 0 \/ y <> 0 ->
  cos (atan2 y x) = x / sqrt (x * x + y * y) /\
  sin (atan2 y x) = y / sqrt (x * x + y * y).
Proof.
  intros Hxy.
  assert (Hd : 0 < sqrt (x * x + y * y)) by (apply sqrt_lt_R0; nra).
  unfold atan2.
  destruct (Rlt_dec 0 x) as [Hx|Hx]; [|destruct (Rlt_dec x 0) as [Hx'|Hx']].
  - pose proof (sqrt_ratio x y ltac:(lra)) as E.
    rewrite Rabs_right in E by lra.
    assert (Hs : 0 < sqrt (1 + (y / x)²)) by (apply sqrt_lt_R0; unfold Rsqr; nra).
    rewrite cos_atan, sin_atan, <- E. split; field; lra.
  - pose proof (sqrt_ratio x y ltac:(lra)) as E.
    rewrite Rabs_left in E by lra.
    assert (Hs : 0 < sqrt (1 + (y / x)²)) by (apply sqrt_lt_R0; unfold Rsqr; nra).
    destruct (Rle_dec 0 y).
    + rewrite neg_cos, neg_sin, cos_atan, sin_atan, <- E. split; field; lra.
    + rewrite cos_minus, sin_minus, cos_PI, sin_PI, cos_atan, sin_atan, <- E.
      split; field; lra.
  - assert (x = 0) by lra. subst x.
    replace (0 * 0 + y * y) with (y * y) in * by ring.
    destruct (Rlt_dec 0 y) as [Hy|Hy]; [|destruct (Rlt_dec y 0) as [Hy'|Hy']].
    + rewrite sqrt_square by lra. rewrite cos_PI2, sin_PI2. split; field; lra.
    + replace (y * y) with ((- y) * (- y)) by ring.
      rewrite sqrt_square by lra.
      replace (- PI / 2) with (- (PI / 2)) by lra.
      rewrite cos_neg, sin_neg, cos_PI2, sin_PI2. split; field; lra.
    + destruct Hxy; lra.
Qed.

(** The bearing of a point at distance r > 0 in direction a is a, up to
    whole turns. *)
Lemma atan2_of_direction (r a : R) :
  0 < r -> exists k : Z, atan2 (r * sin a) (r * cos a) = a + IZR k * (2 * PI).
Proof.
  intros Hr.
  assert (Hq : r * cos a * (r * cos a) + r * sin a * (r * sin a) = r * r).
  { pose proof (sin2_cos2 a) as H. unfold Rsqr in H.
    replace (r * cos a * (r * cos a) + r * sin a * (r * sin a))
      with (r * r * (sin a * sin a + cos a * cos a)) by ring.
    rewrite H. ring. }
  destruct (atan2_polar (r * cos a) (r * sin a)) as [Hc Hs].
  { destruct (cos_sin_0_var a); [left|right]; nra. }
  rewrite Hq, sqrt_square in Hc, Hs by lra.
  apply same_direction.
  - rewrite Hc. field. lra.
  - rewrite Hs. field. lra.
Qed.

End TrigFacts.

(** ** Facts about runs of the estimator *)

Module RunFacts.
Import Np NpFacts Ekf EkfFacts Belief TrigFacts.

Lemma norm_nonneg (v : list R) : 0 <= norm v.
Proof. apply sqrt_pos. Qed.

(** The innovation of a landmark placed at range r and bearing phi from
    the pose (x, y, theta) it is observed from is zero. *)
Lemma innovation_at_registration (theta r phi : R) (delta : matrix) :
  0 <= r ->
  delta = [[r * cos (phi + theta)]; [r * sin (phi + theta)]] ->
  q_of delta <> 0 ->
  delta_z_of r phi (z_tilde_of theta delta) = [[0]; [0]].
Proof.
  intros Hr -> Hq. rewrite q_of_col in Hq.
  set (a := phi + theta) in *.
  assert (Hrr : r * cos a * (r * cos a) + r * sin a * (r * sin a) = r * r).
  { pose proof (sin2_cos2 a) as H. unfold Rsqr in H.
    replace (r * cos a * (r * cos a) + r * sin a * (r * sin a))
      with (r * r * (sin a * sin a + cos a * cos a)) by ring.
    rewrite H. ring. }
  rewrite Hrr in Hq.
  assert (Hpos : 0 < r) by (destruct Hr as [H|<-]; [exact H | lra]).
  unfold z_tilde_of. rewrite q_of_col, Hrr, sqrt_square by lra.
  cbn [get nth].
  destruct (atan2_of_direction r a Hpos) as [k Hk]. rewrite Hk.
  unfold delta_z_of. cbn.
  replace (phi - (a + IZR k * (2 * PI) - theta))
    with (0 + IZR (- k) * (2 * PI)) by (unfold a; rewrite opp_IZR; lra).
  rewrite wrap_bearing_period, wrap_bearing_small
    by (pose proof PI_RGT_0; lra).
  f_equal. f_equal. lra.
Qed.

Lemma shape_K_of (H cov Sinv : matrix) (n : nat) :
  has_shape H 2 n -> has_shape cov n n -> has_shape Sinv 2 2 ->
  has_shape (K_of H cov Sinv) n 2.
Proof.
  intros HH Hcov HS. pose proof Hcov as [_ [_ Hn]].
  assert (HHt : has_shape (transpose H) n 2) by now apply shape_transpose.
  unfold K_of. rewrite (multi_dot3_dot _ _ _ n n 2 2); auto.
  apply (shape_dot _ _ n 2 2); auto. now apply (shape_dot _ _ n n 2).
Qed.

(** The offset of a landmark from the pose it was registered from. *)
Lemma delta_at_registration (x y theta r phi : R) (tagID : Z)
  (self : EKF_vSLAM) :
  well_shaped self ->
  delta_of x y (mu (fst (register x y theta r phi tagID self))) (dim self) =
  [[r * cos (phi + theta)]; [r * sin (phi + theta)]].
Proof.
  intros [Hmu Hcov].
  change (mu (fst (register x y theta r phi tagID self)))
    with (vstack (mu self) (x + r * cos (phi + theta))
                 (y + r * sin (phi + theta))).
  unfold delta_of.
  rewrite !(get_vstack _ (dim self)) by auto.
  destruct (Nat.ltb_spec (dim self) (dim self)); [lia|].
  destruct (Nat.ltb_spec (dim self + 1) (dim self)); [lia|].
  rewrite Nat.eqb_refl.
  destruct (Nat.eqb_spec (dim self + 1) (dim self)); [lia|].
  rewrite Nat.eqb_refl. f_equal; f_equal; [|f_equal]; lra.
Qed.

Lemma first_sighting_keeps_mean (x y theta var_r var_phi px py : R)
  (tagID : Z) (self : EKF_vSLAM) (st' : EKF_vSLAM * nat) :
  let r := norm [px; py] in
  let phi := atan2 px py in
  well_shaped self ->
  contains tagID (observed self) = false ->
  update_step x y theta var_r var_phi (self, dim self) (px, py, tagID)
  = Ok st' ->
  mu (fst st') =
  mu self ++ [[x + r * cos (phi + theta)]; [y + r * sin (phi + theta)]] /\
  observed (fst st') = observed self ++ [tagID].
Proof.
  intros r phi Hsh Hc Hstep. pose proof Hsh as [Hmu Hcov].
  unfold update_step, resolve in Hstep. cbn [fst snd] in Hstep.
  rewrite Hc in Hstep. cbn [negb] in Hstep. fold r phi in Hstep.
  pose proof (register_well_shaped x y theta r phi tagID self Hsh) as Hsh1.
  pose proof (register_mu_len x y theta r phi tagID self Hsh) as Hlen1.
  pose proof (register_dim x y theta r phi tagID self) as Hdim1.
  pose proof (delta_at_registration x y theta r phi tagID self Hsh) as Hd.
  set (st1 := register x y theta r phi tagID self) in *.
  assert (Hmu1 : mu (fst st1) =
                 vstack (mu self) (x + r * cos (phi + theta))
                        (y + r * sin (phi + theta))) by reflexivity.
  assert (Hobs1 : observed (fst st1) = observed self ++ [tagID])
    by reflexivity.
  destruct (correct_Ok _ _ _ _ _ _ _ _ _ _ _ Hstep) as [j [Sinv H]].
  cbv zeta in H. destruct H as [Hj [Hq [HS ->]]]. cbn [fst mu observed].
  rewrite Hobs1, (index_app_new _ _ Hc) in Hj. injection Hj as <-.
  fold (dim self) in Hq |- *.
  rewrite (innovation_at_registration theta r phi _ (norm_nonneg _) Hd Hq).
  destruct Hsh1 as [Hmu1s Hcov1s]. rewrite Hdim1 in Hmu1s, Hcov1s.
  rewrite (dot_zero_col _ (dim self + 2)).
  - rewrite (add_zeros _ (dim self + 2) 1) by exact Hmu1s.
    split; [exact Hmu1|exact Hobs1].
  - apply shape_K_of; auto.
    + rewrite Hlen1, Hdim1. apply shape_H. lia.
    + apply (linalg_inv_shape _ _ HS).
Qed.

(** *** The registry after a batch *)

Lemma contains_In (tagID : Z) (lst : list Z) :
  contains tagID lst = true <-> In tagID lst.
Proof.
  unfold contains. rewrite existsb_exists. split.
  - intros [t [Hin Ht]]. apply Z.eqb_eq in Ht. now subst.
  - intros Hin. exists tagID. split; auto. apply Z.eqb_refl.
Qed.

Lemma contains_false (tagID : Z) (lst : list Z) :
  contains tagID lst = false <-> ~ In tagID lst.
Proof.
  rewrite <- contains_In. destruct (contains tagID lst); split; intros H;
    try discriminate; auto. now contradiction H.
Qed.

Lemma update_step_observed (x y theta var_r var_phi : R)
  (st : EKF_vSLAM * nat) (px py : R) (tagID : Z) :
  observed (state_of fst (update_step x y theta var_r var_phi st
                            (px, py, tagID))) =
  observed (fst st) ++
  (if contains tagID (observed (fst st)) then [] else [tagID]).
Proof.
  unfold update_step.
  set (st2 := resolve x y theta (norm [px; py]) (atan2 px py) tagID st).
  assert (H2 : observed (fst st2) =
               observed (fst st) ++
               (if contains tagID (observed (fst st)) then [] else [tagID])).
  { unfold st2, resolve.
    destruct (contains tagID (observed (fst st))); cbn [negb].
    - now rewrite app_nil_r.
    - apply register_observed. }
  rewrite <- H2.
  destruct (correct x y theta var_r var_phi (norm [px; py]) (atan2 px py)
              tagID (fst st2) (snd st2)) as [st'|e s|s] eqn:E;
    cbn [state_of].
  - destruct (correct_Ok _ _ _ _ _ _ _ _ _ _ _ E) as [j [Sinv H]].
    cbv zeta in H. destruct H as [_ [_ [_ ->]]]. reflexivity.
  - now rewrite (correct_Raised _ _ _ _ _ _ _ _ _ _ _ _ E).
  - now rewrite (correct_NonFinite _ _ _ _ _ _ _ _ _ _ _ E).
Qed.

Lemma update_step_NoDup (x y theta var_r var_phi : R)
  (st : EKF_vSLAM * nat) (ob : R * R * Z) :
  NoDup (observed (fst st)) ->
  NoDup (observed (state_of fst (update_step x y theta var_r var_phi st ob))).
Proof.
  destruct ob as [[px py] tagID]. intros Hnd. rewrite update_step_observed.
  destruct (contains tagID (observed (fst st))) eqn:Hc.
  - now rewrite app_nil_r.
  - apply NoDup_app; auto.
    + repeat constructor. intros [].
    + intros t Hin [<-|[]]. apply contains_In in Hin. congruence.
Qed.

Lemma update_step_In (x y theta var_r var_phi : R)
  (st : EKF_vSLAM * nat) (px py : R) (tagID t : Z) :
  In t (observed (state_of fst (update_step x y theta var_r var_phi st
                                  (px, py, tagID)))) <->
  In t (observed (fst st)) \/ t = tagID.
Proof.
  rewrite update_step_observed, in_app_iff.
  destruct (contains tagID (observed (fst st))) eqn:Hc; cbn [In].
  - apply contains_In in Hc. split; [tauto|]. intros [H| ->]; auto.
  - split; [intros [H|[H|[]]]; auto | intros [H|H]; auto].
Qed.

Lemma update_loop_registry (x y theta var_r var_phi : R)
  (landmarks : list (R * R * Z)) (st : EKF_vSLAM * nat) :
  let o := update_loop x y theta var_r var_phi st landmarks in
  (NoDup (observed (fst st)) -> NoDup (observed (final o))) /\
  (forall self', o = Ok self' ->
     forall t, In t (observed self') <->
               In t (observed (fst st)) \/ In t (map snd landmarks)).
Proof.
  revert st. induction landmarks as [|[[px py] tagID] rest IH]; intros st;
    cbv zeta; cbn [update_loop map snd].
  - split; [auto|]. intros self' [= <-] t. cbn [In]. tauto.
  - pose proof (update_step_NoDup x y theta var_r var_phi st (px, py, tagID))
      as Hnd.
    pose proof (update_step_In x y theta var_r var_phi st px py tagID)
      as Hin.
    destruct (update_step x y theta var_r var_phi st (px, py, tagID))
      as [st'|e s|s]; cbn [bind final state_of] in *.
    + destruct (IH st') as [IH1 IH2]. split; [auto|].
      intros self' E t. rewrite (IH2 self' E t), Hin. cbn [In].
      intuition.
    + split; auto. discriminate.
    + split; auto. discriminate.
Qed.

Lemma update_EKF_registry (self : EKF_vSLAM) (landmarks : list (R * R * Z)) :
  (NoDup (observed self) ->
   NoDup (observed (final (update_EKF self landmarks)))) /\
  (forall self', update_EKF self landmarks = Ok self' ->
     forall t, In t (observed self') <->
               In t (observed self) \/ In t (map snd landmarks)).
Proof.
  rewrite update_EKF_unfold.
  apply (update_loop_registry _ _ _ _ _ landmarks (self, length (mu self))).
Qed.

Lemma run_NoDup (calls : list call) (self : EKF_vSLAM) :
  NoDup (observed self) -> NoDup (observed (final (run self calls))).
Proof.
  revert self. induction calls as [|c rest IH]; intros self Hnd; cbn; auto.
  destruct c as [twist|landmarks]; cbn [do_call bind].
  - apply IH. now rewrite predict_EKF_observed.
  - pose proof (proj1 (update_EKF_registry self landmarks) Hnd) as H.
    destruct (update_EKF self landmarks) as [s|e s|s];
      cbn [bind final state_of] in *; auto.
Qed.

(** *** The noise variances are never written *)

Lemma update_step_noise (x y theta var_r var_phi : R)
  (st : EKF_vSLAM * nat) (ob : R * R * Z) :
  let s := state_of fst (update_step x y theta var_r var_phi st ob) in
  var_System_noise s = var_System_noise (fst st) /\
  var_Sensor_noise s = var_Sensor_noise (fst st).
Proof.
  destruct ob as [[px py] tagID]. unfold update_step.
  set (st2 := resolve x y theta (norm [px; py]) (atan2 px py) tagID st).
  assert (H2 : var_System_noise (fst st2) = var_System_noise (fst st) /\
               var_Sensor_noise (fst st2) = var_Sensor_noise (fst st)).
  { unfold st2, resolve.
    destruct (contains tagID (observed (fst st))); cbn [negb]; auto. }
  destruct H2 as [<- <-].
  destruct (correct x y theta var_r var_phi (norm [px; py]) (atan2 px py)
              tagID (fst st2) (snd st2)) as [st'|e s|s] eqn:E;
    cbn [state_of].
  - destruct (correct_Ok _ _ _ _ _ _ _ _ _ _ _ E) as [j [Sinv H]].
    cbv zeta in H. destruct H as [_ [_ [_ ->]]]. auto.
  - now rewrite (correct_Raised _ _ _ _ _ _ _ _ _ _ _ _ E).
  - now rewrite (correct_NonFinite _ _ _ _ _ _ _ _ _ _ _ E).
Qed.

Lemma update_loop_noise (x y theta var_r var_phi : R)
  (landmarks : list (R * R * Z)) (st : EKF_vSLAM * nat) :
  let s := final (update_loop x y theta var_r var_phi st landmarks) in
  var_System_noise s = var_System_noise (fst st) /\
  var_Sensor_noise s = var_Sensor_noise (fst st).
Proof.
  revert st. induction landmarks as [|ob rest IH]; intros st; cbn; auto.
  pose proof (update_step_noise x y theta var_r var_phi st ob) as H.
  destruct (update_step x y theta var_r var_phi st ob) as [st'|e s|s];
    cbn [bind final state_of] in *; auto.
  destruct (IH st') as [H1 H2]. cbn in H1, H2. destruct H as [<- <-]. auto.
Qed.

Lemma run_noise (calls : list call) (self : EKF_vSLAM) :
  var_System_noise (final (run self calls)) = var_System_noise self /\
  var_Sensor_noise (final (run self calls)) = var_Sensor_noise self.
Proof.
  revert self. induction calls as [|c rest IH]; intros self; cbn; auto.
  destruct c as [[[vx vy] w]|landmarks]; cbn [do_call bind].
  - destruct (IH (predict_EKF self (vx, vy, w))) as [H1 H2]. auto.
  - pose proof (update_loop_noise (get (mu self) 0 0) (get (mu self) 1 0)
        (get (mu self) 2 0) (fst (var_Sensor_noise self))
        (snd (var_Sensor_noise self)) landmarks (self, length (mu self)))
      as H.
    rewrite <- update_EKF_unfold in H.
    destruct (update_EKF self landmarks) as [s|e s|s];
      cbn [bind final state_of fst] in *; auto.
    destruct (IH s) as [H1 H2]. destruct H as [<- <-]. auto.
Qed.

(** *** Predictions in a row *)

Lemma run_predicts (us : list (R * R * R)) (self : EKF_vSLAM) :
  run self (map Predict us) = Ok (fold_left predict_EKF us self).
Proof.
  revert self. induction us as [|u us IH]; intros self; cbn; auto.
Qed.

Lemma predicts_accumulate (us : list (R * R * R)) (self : EKF_vSLAM) :
  well_shaped self ->
  let self' := fold_left predict_EKF us self in
  let n := dim self in
  well_shaped self' /\ observed self' = observed self /\
  var_System_noise self' = var_System_noise self /\
  (forall i, (i < n)%nat ->
     get (mu self') i 0 = get (mu self) i 0 + control_sum us i) /\
  (forall i j, (i < n)%nat -> (j < n)%nat ->
     get (cov self') i j =
     get (cov self) i j + INR (length us) * pose_noise self i j).
Proof.
  revert self. induction us as [|[[vx vy] w] us IH]; intros self Hsh.
  - cbn [fold_left length INR]. repeat split; try apply Hsh.
    + intros i Hi. unfold control_sum. cbn. lra.
    + intros i j Hi Hj. lra.
  - pose proof Hsh as [Hmu Hcov].
    assert (Hn : (3 <= dim self)%nat) by (unfold dim; lia).
    pose proof (predict_EKF_well_shaped self (vx, vy, w) Hsh) as Hsh1.
    destruct (IH (predict_EKF self (vx, vy, w)) Hsh1)
      as (H1 & H2 & H3 & H4 & H5).
    assert (Hd : dim (predict_EKF self (vx, vy, w)) = dim self)
      by reflexivity.
    rewrite Hd in H4, H5. cbn [fold_left]. cbv zeta.
    split; [exact H1|]. split; [exact H2|]. split; [exact H3|]. split.
    + intros i Hi. rewrite (H4 i Hi).
      rewrite (predict_EKF_mu self (dim self) Hmu Hn vx vy w i Hi).
      unfold control_sum. cbn [map fold_right fst snd].
      destruct i as [|[|[|i]]]; lra.
    + intros i j Hi Hj. rewrite (H5 i j Hi Hj).
      rewrite (predict_EKF_cov self (dim self) Hmu Hcov Hn).
      rewrite (get_add _ _ (dim self) (dim self)); auto.
      rewrite get_pose_diag by auto.
      change (length ((vx, vy, w) :: us)) with (S (length us)).
      rewrite S_INR. unfold pose_noise.
      change (var_System_noise (predict_EKF self (vx, vy, w)))
        with (var_System_noise self).
      destruct (Nat.eqb i j); [|lra].
      destruct i as [|[|[|i]]]; lra.
Qed.

End RunFacts.

(** ** Positive semi-definite covariances *)

Module PsdFacts.
Import Np NpFacts Ekf EkfFacts Belief.

Lemma sum_nonneg (k : nat) (f : nat -> R) :
  (forall i, (i < k)%nat -> 0 <= f i) -> 0 <= sum k f.
Proof.
  induction k as [|k IH]; intros Hf; cbn [sum]; [lra|].
  assert (0 <= sum k f) by (apply IH; intros; apply Hf; lia).
  assert (0 <= f k) by (apply Hf; lia). lra.
Qed.

Lemma dot_add_r (A B C : matrix) (m n p : nat) :
  has_shape A m n -> has_shape B n p -> has_shape C n p ->
  dot A (add B C) = add (dot A B) (dot A C).
Proof.
  intros HA HB HC.
  apply (mat_ext _ _ m p).
  - apply (shape_dot _ _ m n p); auto. now apply shape_add.
  - apply shape_add. apply (shape_dot _ _ m n p); auto.
  - intros i j Hi Hj.
    rewrite (get_dot A (add B C) m n p); auto; [|now apply shape_add].
    rewrite (get_add (dot A B) (dot A C) m p); auto;
      [|apply (shape_dot _ _ m n p); auto].
    rewrite (get_dot A B m n p), (get_dot A C m n p); auto.
    rewrite <- sum_plus. apply sum_ext. intros k Hk.
    rewrite (get_add B C n p); auto. lra.
Qed.

Lemma add_sub_cancel (A B : matrix) (m n : nat) :
  has_shape A m n -> has_shape B m n -> add (sub A B) B = A.
Proof.
  intros HA HB. apply (mat_ext _ _ m n); auto.
  - apply shape_add. now apply shape_sub.
  - intros i j Hi Hj.
    rewrite (get_add _ _ m n), (get_sub _ _ m n); auto; [lra|].
    now apply shape_sub.
Qed.

Lemma sub_sub_cancel (A B : matrix) (m n : nat) :
  has_shape A m n -> has_shape B m n -> sub A (sub A B) = B.
Proof.
  intros HA HB. apply (mat_ext _ _ m n); auto.
  - now apply shape_sub.
  - intros i j Hi Hj.
    rewrite (get_sub _ _ m n), (get_sub _ _ m n); auto. lra.
Qed.

Lemma shape_col2 (x : matrix) :
  has_shape x 2 1 -> x = [[get x 0 0]; [get x 1 0]].
Proof.
  intros Hx. apply (mat_ext _ _ 2 1); auto.
  - repeat split; auto.
  - intros i j Hi Hj.
    destruct i as [|[|i]], j as [|j]; try lia; reflexivity.
Qed.

(** *** The quadratic form *)

Lemma quad_sum (A x : matrix) (n : nat) :
  has_shape A n n -> has_shape x n 1 ->
  quad A x =
  sum n (fun j => sum n (fun i => get x i 0 * get A i j) * get x j 0).
Proof.
  intros HA Hx. pose proof HA as [_ [_ Hn]].
  assert (Hxt : has_shape (transpose x) 1 n)
    by (apply shape_transpose; auto; lia).
  unfold quad.
  rewrite (get_dot _ x 1 n 1); auto; try lia;
    [|apply (shape_dot _ _ 1 n n); auto].
  apply sum_ext. intros j Hj.
  rewrite (get_dot _ A 1 n n); auto; try lia.
  f_equal. apply sum_ext. intros i Hi.
  rewrite (get_transpose x n 1); auto; lia.
Qed.

Lemma quad_add (A B x : matrix) (n : nat) :
  has_shape A n n -> has_shape B n n -> has_shape x n 1 ->
  quad (add A B) x = quad A x + quad B x.
Proof.
  intros HA HB Hx.
  rewrite (quad_sum (add A B) x n), (quad_sum A x n), (quad_sum B x n);
    auto; [|now apply shape_add].
  rewrite <- sum_plus. apply sum_ext. intros j Hj.
  rewrite <- Rmult_plus_distr_r. f_equal.
  rewrite <- sum_plus. apply sum_ext. intros i Hi.
  rewrite (get_add A B n n); auto. lra.
Qed.

Lemma quad_congruence (M C x : matrix) (m n : nat) :
  has_shape M m n -> has_shape C n n -> has_shape x m 1 ->
  quad (dot (dot M C) (transpose M)) x = quad C (dot (transpose M) x).
Proof.
  intros HM HC Hx.
  pose proof HM as [_ [_ Hm]]. pose proof HC as [_ [_ Hn]].
  assert (HMt : has_shape (transpose M) n m) by now apply shape_transpose.
  assert (Hxt : has_shape (transpose x) 1 m)
    by (apply shape_transpose; auto; lia).
  assert (HMC : has_shape (dot M C) m n) by now apply (shape_dot _ _ m n n).
  unfold quad.
  rewrite (transpose_dot (transpose M) x n m 1); auto; try lia.
  rewrite (transpose_transpose M m n); auto.
  rewrite <- (dot_assoc (transpose x) (dot M C) (transpose M) 1 m n m); auto.
  rewrite (dot_assoc _ (transpose M) x 1 n m 1); auto;
    [|apply (shape_dot _ _ 1 m n); auto].
  rewrite <- (dot_assoc (transpose x) M C 1 m n n); auto.
Qed.

Lemma psd_congruence (M C : matrix) (m n : nat) :
  has_shape M m n -> has_shape C n n -> psd n C ->
  psd m (dot (dot M C) (transpose M)).
Proof.
  intros HM HC Hp x Hx. pose proof HC as [_ [_ Hn]].
  rewrite (quad_congruence M C x m n); auto.
  apply Hp. apply (shape_dot _ _ n m 1); auto.
  now apply shape_transpose.
Qed.

Lemma psd_add (A B : matrix) (n : nat) :
  has_shape A n n -> has_shape B n n -> psd n A -> psd n B ->
  psd n (add A B).
Proof.
  intros HA HB HpA HpB x Hx. rewrite (quad_add A B x n); auto.
  pose proof (HpA x Hx). pose proof (HpB x Hx). lra.
Qed.

(** A diagonal array with no negative entry. *)
Lemma psd_diagonal (D : matrix) (n : nat) (d : nat -> R) :
  has_shape D n n ->
  (forall i j, (i < n)%nat -> (j < n)%nat ->
     get D i j = if Nat.eqb i j then d i else 0) ->
  (forall i, (i < n)%nat -> 0 <= d i) ->
  psd n D.
Proof.
  intros HD Hd Hpos x Hx. rewrite (quad_sum D x n); auto.
  apply sum_nonneg. intros j Hj.
  rewrite (sum_ext n _ (fun i => (get x i 0 * d i) *
                                 (if Nat.eqb i j then 1 else 0))).
  - rewrite (sum_delta_r n j (fun i => get x i 0 * d i)) by auto.
    pose proof (Hpos j Hj). nra.
  - intros i Hi. rewrite (Hd i j Hi Hj). destruct (Nat.eqb i j); lra.
Qed.

Lemma psd_zeros (n : nat) : (0 < n)%nat -> psd n (zeros n n).
Proof.
  intros Hn. apply (psd_diagonal _ n (fun _ => 0)).
  - now apply shape_zeros.
  - intros i j Hi Hj. rewrite get_zeros by auto. now destruct (Nat.eqb i j).
  - intros. lra.
Qed.

Lemma psd_diag2 (a b : R) : 0 <= a -> 0 <= b -> psd 2 (diag [a; b]).
Proof.
  intros Ha Hb.
  apply (psd_diagonal _ 2 (fun i => nth i [a; b] 0)).
  - apply shape_diag2.
  - intros i j Hi Hj. destruct i as [|[|i]], j as [|[|j]]; try lia;
      reflexivity.
  - intros i Hi. destruct i as [|[|i]]; try lia; cbn; auto.
Qed.

(** The unit column e_i reads a diagonal entry. *)
Lemma quad_unit (A : matrix) (n i : nat) :
  has_shape A n n -> (i < n)%nat ->
  quad A (mk n 1 (fun k _ => if Nat.eqb k i then 1 else 0)) = get A i i.
Proof.
  intros HA Hi. pose proof HA as [_ [_ Hn]].
  rewrite (quad_sum A _ n); auto; [|now apply shape_mk].
  rewrite (sum_ext n _ (fun j => get A i j *
                                 (if Nat.eqb j i then 1 else 0))).
  - now rewrite (sum_delta_r n i (fun j => get A i j)).
  - intros j Hj. rewrite get_mk by (auto; lia). f_equal.
    rewrite (sum_ext n _ (fun k => (if Nat.eqb i k then 1 else 0) *
                                   get A k j)).
    + now rewrite (sum_delta_l n i (fun k => get A k j)).
    + intros k Hk. rewrite get_mk by (auto; lia).
      rewrite (Nat.eqb_sym k i). reflexivity.
Qed.

Lemma psd_diag_nonneg (A : matrix) (n i : nat) :
  has_shape A n n -> psd n A -> (i < n)%nat -> 0 <= get A i i.
Proof.
  intros HA Hp Hi. rewrite <- (quad_unit A n i HA Hi).
  apply Hp. apply shape_mk. destruct HA as [_ [_ Hn]]. exact Hn.
Qed.

(** The quadratic form of a 2 x 2 array. *)
Lemma quad_2x2 (A : matrix) (a b : R) :
  has_shape A 2 2 ->
  quad A [[a]; [b]] =
  get A 0 0 * a * a + (get A 0 1 + get A 1 0) * a * b + get A 1 1 * b * b.
Proof.
  intros HA. rewrite (quad_sum A _ 2); auto.
  - cbn [sum]. cbn [get nth]. ring.
  - repeat split; auto.
Qed.

(** A symmetric positive semi-definite 2 x 2 array has a determinant that
    is not negative. *)
Lemma psd_det2 (A : matrix) :
  has_shape A 2 2 -> symmetric A -> psd 2 A ->
  0 <= get A 0 0 /\ 0 <= get A 1 1 /\ get A 0 1 = get A 1 0 /\ 0 <= det2 A.
Proof.
  intros HA Hs Hp.
  assert (E : get A 0 1 = get A 1 0)
    by (apply (symmetric_get A 2 HA); auto).
  assert (Q : forall a b, 0 <= get A 0 0 * a * a
                               + (get A 0 1 + get A 1 0) * a * b
                               + get A 1 1 * b * b).
  { intros a b. rewrite <- (quad_2x2 A a b HA). apply Hp.
    repeat split; auto. }
  unfold det2. rewrite E in *.
  set (p := get A 0 0) in *. set (q := get A 1 0) in *.
  set (r := get A 1 1) in *.
  assert (Hp0 : 0 <= p) by (pose proof (Q 1 0); lra).
  assert (Hr0 : 0 <= r) by (pose proof (Q 0 1); lra).
  repeat split; auto.
  destruct (Rle_lt_dec 0 (p * r - q * q)) as [|Hneg]; [assumption|exfalso].
  destruct (Req_dec_T r 0) as [Hr|Hr].
  - assert (Hq : q <> 0) by (intros ->; nra).
    pose proof (Q 1 (- (p + 1) / (2 * q))) as H.
    replace (p * 1 * 1 + (q + q) * 1 * (- (p + 1) / (2 * q))
             + r * (- (p + 1) / (2 * q)) * (- (p + 1) / (2 * q)))
      with (-1) in H; [lra|].
    rewrite Hr. field. exact Hq.
  - pose proof (Q (- q) p) as H1. pose proof (Q r (- q)) as H2. nra.
Qed.

Lemma linalg_inv_dot (A Ainv : matrix) :
  has_shape A 2 2 -> linalg_inv A = Some Ainv ->
  dot A Ainv = eye 2 /\ dot Ainv A = eye 2.
Proof.
  intros HA. pose proof (shape_2x2 A HA) as E.
  unfold linalg_inv. destruct (Req_dec_T _ _) as [|Hd]; [discriminate|].
  intros [= <-]. unfold det2 in *.
  set (a := get A 0 0) in *. set (b := get A 0 1) in *.
  set (c := get A 1 0) in *. set (d := get A 1 1) in *.
  clearbody a b c d. subst A.
  unfold dot, eye, mk.
  cbn -[Rplus Rmult Rminus Ropp Rinv].
  split; repeat (f_equal; try (field; exact Hd)).
Qed.

(** *** The correction in Joseph form

    With S = H C H^T + R invertible and K = C H^T S^-1, the array
    (I - K H) C the code computes is (I - K H) C (I - K H)^T + K R K^T. *)

Section Correction.

Variables (C H R Sinv : matrix) (n : nat).
Hypothesis HC : has_shape C n n.
Hypothesis HH : has_shape H 2 n.
Hypothesis HR : has_shape R 2 2.
Hypothesis Hinv :
  linalg_inv (add (dot (dot H C) (transpose H)) R) = Some Sinv.

Let Ht := transpose H.
Let P := dot (dot H C) Ht.
Let S := add P R.
Let K := dot (dot C Ht) Sinv.
Let M := sub (eye n) (dot K H).

Lemma correction_shapes :
  (0 < n)%nat /\ has_shape Ht n 2 /\ has_shape P 2 2 /\ has_shape S 2 2 /\
  has_shape Sinv 2 2 /\ has_shape (dot C Ht) n 2 /\ has_shape K n 2 /\
  has_shape (dot K H) n n /\ has_shape M n n /\ has_shape (dot M C) n n.
Proof.
  pose proof HC as [_ [_ Hn]].
  assert (HHt : has_shape Ht n 2) by now apply shape_transpose.
  assert (HP : has_shape P 2 2).
  { apply (shape_dot _ _ 2 n 2); auto. now apply (shape_dot _ _ 2 n n). }
  assert (HS : has_shape S 2 2) by now apply shape_add.
  assert (HSi : has_shape Sinv 2 2) by apply (linalg_inv_shape _ _ Hinv).
  assert (HCHt : has_shape (dot C Ht) n 2) by now apply (shape_dot _ _ n n 2).
  assert (HK : has_shape K n 2) by now apply (shape_dot _ _ n 2 2).
  assert (HKH : has_shape (dot K H) n n) by now apply (shape_dot _ _ n 2 n).
  assert (HM : has_shape M n n) by (apply shape_sub; now apply shape_eye).
  assert (HMC : has_shape (dot M C) n n) by now apply (shape_dot _ _ n n n).
  repeat (split; [assumption|]). assumption.
Qed.

Lemma gain_S : dot K S = dot C Ht.
Proof.
  destruct correction_shapes
    as (Hn & HHt & HP & HS & HSi & HCHt & HK & HKH & HM & HMC).
  unfold K. rewrite (dot_assoc _ Sinv S n 2 2 2); auto.
  destruct (linalg_inv_dot S Sinv HS Hinv) as [_ ->].
  apply (dot_eye_r _ n 2); auto.
Qed.

Lemma gain_P : dot K P = sub (dot C Ht) (dot K R).
Proof.
  destruct correction_shapes
    as (Hn & HHt & HP & HS & HSi & HCHt & HK & HKH & HM & HMC).
  assert (HKP : has_shape (dot K P) n 2) by now apply (shape_dot _ _ n 2 2).
  assert (HKR : has_shape (dot K R) n 2) by now apply (shape_dot _ _ n 2 2).
  rewrite <- gain_S. unfold S.
  rewrite (dot_add_r K P R n 2 2); auto.
  apply (mat_ext _ _ n 2); auto.
  - apply shape_sub. now apply shape_add.
  - intros i j Hi Hj.
    rewrite (get_sub _ _ n 2), (get_add _ _ n 2); auto; [lra|].
    now apply shape_add.
Qed.

Lemma innovation_gain : dot (dot M C) Ht = dot K R.
Proof.
  destruct correction_shapes
    as (Hn & HHt & HP & HS & HSi & HCHt & HK & HKH & HM & HMC).
  assert (HKR : has_shape (dot K R) n 2) by now apply (shape_dot _ _ n 2 2).
  rewrite (dot_assoc M C Ht n n n 2); auto.
  unfold M. rewrite (dot_sub_l _ _ _ n n 2); auto; [|now apply shape_eye].
  rewrite (dot_eye_l _ n 2); auto.
  rewrite (dot_assoc K H (dot C Ht) n 2 n 2); auto.
  rewrite <- (dot_assoc H C Ht 2 n n 2); auto.
  fold P. rewrite gain_P.
  apply (sub_sub_cancel _ _ n 2); auto.
Qed.

Lemma joseph_form :
  dot M C =
  add (dot (dot M C) (transpose M)) (dot (dot K R) (transpose K)).
Proof.
  destruct correction_shapes
    as (Hn & HHt & HP & HS & HSi & HCHt & HK & HKH & HM & HMC).
  assert (HKt : has_shape (transpose K) 2 n)
    by (apply shape_transpose; auto; lia).
  assert (HKR : has_shape (dot K R) n 2) by now apply (shape_dot _ _ n 2 2).
  assert (HKRK : has_shape (dot (dot K R) (transpose K)) n n)
    by now apply (shape_dot _ _ n 2 n).
  assert (E : dot (dot M C) (transpose M) =
              sub (dot M C) (dot (dot K R) (transpose K))).
  { unfold M at 2.
    rewrite (transpose_sub _ _ n n); auto; [|now apply shape_eye].
    rewrite (transpose_eye n) by auto.
    rewrite (transpose_dot K H n 2 n); auto. fold Ht.
    rewrite (dot_sub_r _ _ _ n n n); auto;
      [|now apply shape_eye | now apply (shape_dot _ _ n 2 n)].
    rewrite (dot_eye_r _ n n); auto.
    rewrite <- (dot_assoc (dot M C) Ht (transpose K) n n 2 n); auto.
    now rewrite innovation_gain. }
  rewrite E. symmetry. apply (add_sub_cancel _ _ n n); auto.
Qed.

Lemma correction_psd :
  psd n C -> psd 2 R -> psd n (dot M C).
Proof.
  intros HpC HpR.
  destruct correction_shapes
    as (Hn & HHt & HP & HS & HSi & HCHt & HK & HKH & HM & HMC).
  rewrite joseph_form. apply psd_add.
  - apply (shape_dot _ _ n n n); auto. apply shape_transpose; auto.
  - apply (shape_dot _ _ n 2 n); auto.
    + now apply (shape_dot _ _ n 2 2).
    + apply shape_transpose; auto; lia.
  - now apply (psd_congruence M C n n).
  - now apply (psd_congruence K R n 2).
Qed.

(** What the correction takes off the covariance is itself positive
    semi-definite. *)
Lemma correction_removed :
  symmetric C -> symmetric R -> psd n C -> psd 2 R ->
  dot M C = sub C (dot (dot K H) C) /\
  has_shape (dot (dot K H) C) n n /\
  psd n (dot (dot K H) C).
Proof.
  intros HsC HsR HpC HpR.
  destruct correction_shapes
    as (Hn & HHt & HP & HS & HSi & HCHt & HK & HKH & HM & HMC).
  assert (HHC : has_shape (dot H C) 2 n) by now apply (shape_dot _ _ 2 n n).
  split; [|split].
  - unfold M. rewrite (dot_sub_l _ _ _ n n n); auto; [|now apply shape_eye].
    now rewrite (dot_eye_l C n n).
  - now apply (shape_dot _ _ n n n).
  - assert (HsS : symmetric S).
    { apply (symmetric_add _ _ 2); auto.
      apply (symmetric_congruence H C 2 n); auto. }
    assert (HpS : psd 2 S).
    { apply psd_add; auto. now apply (psd_congruence H C 2 n). }
    assert (HsSi : symmetric Sinv)
      by apply (linalg_inv_symmetric S Sinv HS HsS Hinv).
    assert (HpSi : psd 2 Sinv).
    { assert (E : Sinv = dot (dot Sinv S) (transpose Sinv)).
      { destruct (linalg_inv_dot S Sinv HS Hinv) as [_ ->].
        rewrite HsSi. symmetry. apply (dot_eye_l _ 2 2); auto. }
      rewrite E. now apply (psd_congruence Sinv S 2 2). }
    assert (E : dot (dot K H) C =
                dot (dot (dot C Ht) Sinv) (transpose (dot C Ht))).
    { unfold Ht at 2.
      rewrite (transpose_dot C (transpose H) n n 2); auto; try lia.
      rewrite (transpose_transpose H 2 n), HsC; auto.
      unfold K. apply (dot_assoc _ H C n 2 n n); auto. }
    rewrite E. now apply (psd_congruence (dot C Ht) Sinv n 2).
Qed.

End Correction.

(** With positive sensor variances the innovation covariance of a positive
    semi-definite belief is invertible. *)
Lemma S_of_invertible (H cov : matrix) (n : nat) (var_r var_phi : R) :
  has_shape H 2 n -> has_shape cov n n -> symmetric cov -> psd n cov ->
  0 < var_r -> 0 < var_phi ->
  det2 (S_of H cov var_r var_phi) <> 0.
Proof.
  intros HH Hcov Hs Hp Hr Hphi. pose proof Hcov as [_ [_ Hn]].
  assert (HHt : has_shape (transpose H) n 2) by now apply shape_transpose.
  unfold S_of. rewrite (multi_dot3_dot _ _ _ 2 n n 2); auto.
  set (P := dot (dot H cov) (transpose H)).
  assert (HP : has_shape P 2 2).
  { apply (shape_dot _ _ 2 n 2); auto. now apply (shape_dot _ _ 2 n n). }
  destruct (psd_det2 P HP) as (H0 & H1 & E & Hd).
  { apply (symmetric_congruence H cov 2 n); auto. }
  { now apply (psd_congruence H cov 2 n). }
  unfold det2 in *.
  rewrite !(get_add P _ 2 2) by (auto; lia).
  change (get (diag [var_r; var_phi]) 0 0) with var_r.
  change (get (diag [var_r; var_phi]) 0 1) with 0.
  change (get (diag [var_r; var_phi]) 1 0) with 0.
  change (get (diag [var_r; var_phi]) 1 1) with var_phi.
  rewrite E in *. nra.
Qed.

End PsdFacts.

(** ** The covariance stays positive semi-definite *)

Module BeliefFacts.
Import Np NpFacts Ekf EkfFacts Belief TrigFacts RunFacts PsdFacts.

Lemma sum_split2 (n : nat) (f : nat -> R) :
  sum (n + 2) f = sum n f + f n + f (n + 1)%nat.
Proof.
  replace (n + 2)%nat with (S (S n)) by lia. cbn [sum].
  replace (S n) with (n + 1)%nat by lia. reflexivity.
Qed.

Lemma Forall_firstn_keeps {A : Type} (P : A -> Prop) (n : nat) (l : list A) :
  Forall P l -> Forall P (firstn n l).
Proof.
  intros H. revert n. induction H as [|a l Ha Hl IH]; intros [|n]; cbn;
    constructor; auto.
Qed.

(** The entries of the covariance after a registration. *)
Lemma get_block_diag (C : matrix) (n i j : nat) (a b : R) :
  has_shape C n n -> (i < n + 2)%nat -> (j < n + 2)%nat ->
  get (block C (zeros n 2) (zeros 2 n) (diag [a; b])) i j =
  if (i <? n)%nat
  then (if (j <? n)%nat then get C i j else 0)
  else (if Nat.eqb i j then (if Nat.eqb i n then a else b) else 0).
Proof.
  intros HC Hi Hj. pose proof HC as [_ [_ Hn]].
  rewrite (get_block _ _ _ _ n n 2 2); auto;
    try (now apply shape_zeros); try (apply shape_zeros; lia);
    try apply shape_diag2.
  destruct (Nat.ltb_spec i n), (Nat.ltb_spec j n); auto.
  - apply get_zeros; lia.
  - rewrite get_zeros by lia.
    destruct (Nat.eqb_spec i j); [lia|reflexivity].
  - assert (Hi' : i = n \/ i = (n + 1)%nat) by lia.
    assert (Hj' : j = n \/ j = (n + 1)%nat) by lia.
    destruct Hi' as [-> | ->], Hj' as [-> | ->];
      repeat match goal with
        | |- context [(?u - ?v)%nat] =>
            first [ replace (u - v)%nat with 0%nat by lia
                  | replace (u - v)%nat with 1%nat by lia ]
        end;
      repeat match goal with
        | |- context [Nat.eqb ?u ?v] => destruct (Nat.eqb_spec u v); try lia
        end; reflexivity.
Qed.

Lemma psd_block (C : matrix) (n : nat) (a b : R) :
  has_shape C n n -> psd n C -> 0 <= a -> 0 <= b ->
  psd (n + 2) (block C (zeros n 2) (zeros 2 n) (diag [a; b])).
Proof.
  intros HC Hp Ha Hb x Hx. pose proof HC as [_ [_ Hn]].
  set (B := block C (zeros n 2) (zeros 2 n) (diag [a; b])).
  assert (HB : has_shape B (n + 2) (n + 2)).
  { apply shape_block; auto; try (now apply shape_zeros);
      try (apply shape_zeros; lia); apply shape_diag2. }
  assert (Hx' : has_shape (firstn n x) n 1).
  { destruct Hx as [Hl [Hf _]]. split; [|split; auto].
    - rewrite length_firstn, Hl. lia.
    - now apply Forall_firstn_keeps. }
  assert (Gx : forall i, (i < n)%nat -> get (firstn n x) i 0 = get x i 0).
  { intros i Hi. unfold get. rewrite nth_firstn.
    destruct (Nat.ltb_spec i n); [reflexivity|lia]. }
  assert (E : quad B x =
              quad C (firstn n x) + a * (get x n 0 * get x n 0)
              + b * (get x (n + 1) 0 * get x (n + 1) 0)).
  { rewrite (quad_sum B x (n + 2)), (quad_sum C (firstn n x) n); auto.
    rewrite sum_split2. f_equal; [f_equal|].
    - apply sum_ext. intros j Hj. rewrite Gx by auto. f_equal.
      rewrite sum_split2. unfold B.
      rewrite !(get_block_diag C n) by (auto; lia).
      destruct (Nat.ltb_spec n n); [lia|].
      destruct (Nat.ltb_spec (n + 1) n); [lia|].
      destruct (Nat.eqb_spec n j); [lia|].
      destruct (Nat.eqb_spec (n + 1) j); [lia|].
      rewrite !Rmult_0_r, !Rplus_0_r.
      apply sum_ext. intros i Hi. rewrite Gx by auto.
      rewrite (get_block_diag C n) by (auto; lia).
      destruct (Nat.ltb_spec i n); [|lia].
      destruct (Nat.ltb_spec j n); [reflexivity|lia].
    - rewrite sum_split2. unfold B.
      rewrite !(get_block_diag C n) by (auto; lia).
      destruct (Nat.ltb_spec n n); [lia|].
      destruct (Nat.ltb_spec (n + 1) n); [lia|].
      rewrite Nat.eqb_refl.
      destruct (Nat.eqb_spec (n + 1) n); [lia|].
      rewrite (sum_ext n _ (fun _ => 0)), sum_zero; [ring|].
      intros i Hi. rewrite (get_block_diag C n) by (auto; lia).
      destruct (Nat.ltb_spec i n); [|lia].
      destruct (Nat.ltb_spec n n); [lia|ring].
    - rewrite sum_split2. unfold B.
      rewrite !(get_block_diag C n) by (auto; lia).
      destruct (Nat.ltb_spec n n); [lia|].
      destruct (Nat.ltb_spec (n + 1) n); [lia|].
      destruct (Nat.eqb_spec n (n + 1)); [lia|].
      destruct (Nat.eqb_spec (n + 1) (n + 1)); [|lia].
      destruct (Nat.eqb_spec (n + 1) n); [lia|].
      rewrite (sum_ext n _ (fun _ => 0)), sum_zero; [ring|].
      intros i Hi. rewrite (get_block_diag C n) by (auto; lia).
      destruct (Nat.ltb_spec i n); [|lia].
      destruct (Nat.ltb_spec (n + 1) n); [lia|ring]. }
  rewrite E. pose proof (Hp _ Hx'). nra.
Qed.

(** *** The three operations on the belief *)

Lemma init_belief (vs vn : R * R) : belief_ok (init vs vn).
Proof.
  split; [apply init_well_formed|]. apply (psd_zeros 3). lia.
Qed.

Lemma predict_EKF_belief (self : EKF_vSLAM) (twist : R * R * R) :
  belief_ok self ->
  0 <= fst (var_System_noise self) -> 0 <= snd (var_System_noise self) ->
  belief_ok (predict_EKF self twist).
Proof.
  intros [Hwf Hp] H1 H2.
  split; [now apply predict_EKF_well_formed|].
  pose proof Hwf as [[Hmu Hcov] _].
  assert (Hn : (3 <= dim self)%nat) by (unfold dim; lia).
  rewrite (predict_EKF_cov self (dim self) Hmu Hcov Hn).
  assert (Hd : dim (predict_EKF self twist) = dim self)
    by (unfold dim; now rewrite predict_EKF_observed).
  rewrite Hd. apply psd_add; auto.
  - now apply shape_pose_diag.
  - apply (psd_diagonal _ (dim self)
             (fun i => match i with
                       | 0%nat | 1%nat => fst (var_System_noise self)
                       | 2%nat => snd (var_System_noise self)
                       | _ => 0
                       end)).
    + now apply shape_pose_diag.
    + intros i j Hi Hj. rewrite get_pose_diag by auto.
      destruct (Nat.eqb i j); [|reflexivity].
      destruct i as [|[|[|i]]]; reflexivity.
    + intros i Hi. destruct i as [|[|[|i]]]; auto. lra.
Qed.

Lemma register_belief (x y theta r phi : R) (tagID : Z) (self : EKF_vSLAM) :
  belief_ok self -> belief_ok (fst (register x y theta r phi tagID self)).
Proof.
  intros [Hwf Hp]. split; [now apply register_well_formed|].
  pose proof Hwf as [[Hmu Hcov] _].
  rewrite register_dim, register_cov by apply Hwf.
  apply psd_block; auto; lra.
Qed.

Lemma correct_belief (x y theta var_r var_phi r phi : R) (tagID : Z)
  (self : EKF_vSLAM) (st' : EKF_vSLAM * nat) :
  belief_ok self -> 0 <= var_r -> 0 <= var_phi ->
  correct x y theta var_r var_phi r phi tagID self (dim self) = Ok st' ->
  belief_ok (fst st').
Proof.
  intros [Hwf Hp] Hr Hphi Hc.
  destruct (correct_well_formed _ _ _ _ _ _ _ _ _ _ Hwf Hc)
    as (Hwf' & _ & Hobs).
  split; [exact Hwf'|].
  assert (Hd : dim (fst st') = dim self) by (unfold dim; now rewrite Hobs).
  rewrite Hd. pose proof Hwf as [[Hmu Hcov] Hs].
  destruct (correct_Ok _ _ _ _ _ _ _ _ _ _ _ Hc) as [j [Sinv H]].
  cbv zeta in H. destruct H as [Hj [Hq [HS ->]]]. cbn [fst cov].
  set (n := dim self) in *.
  assert (Hn : (0 < n)%nat) by (unfold n, dim; lia).
  set (H := H_of x y (mu self) n (3 + 2 * j)) in *.
  assert (HH : has_shape H 2 n) by now apply shape_H.
  assert (HHt : has_shape (transpose H) n 2) by now apply shape_transpose.
  assert (HSinv : has_shape Sinv 2 2) by now apply (linalg_inv_shape _ _ HS).
  unfold S_of in HS. unfold K_of.
  rewrite (multi_dot3_dot _ _ _ 2 n n 2) in HS; auto.
  rewrite (multi_dot3_dot _ _ _ n n 2 2); auto.
  apply (correction_psd (cov self) H (diag [var_r; var_phi]) Sinv n); auto.
  - apply shape_diag2.
  - now apply psd_diag2.
Qed.

(** A correction never raises [LinAlgError] when the sensor variances are
    positive. *)
Lemma correct_not_raised (x y theta var_r var_phi r phi : R) (tagID : Z)
  (self : EKF_vSLAM) (j : nat) :
  belief_ok self -> 0 < var_r -> 0 < var_phi ->
  index tagID (observed self) = Some j ->
  forall e s,
    correct x y theta var_r var_phi r phi tagID self (dim self)
    <> Raised e s.
Proof.
  intros [[[Hmu Hcov] Hs] Hp] Hr Hphi Hj e s.
  assert (Hn : (0 < dim self)%nat) by (unfold dim; lia).
  unfold correct. rewrite Hj. cbv zeta.
  destruct (Req_dec_T _ _); [discriminate|].
  rewrite linalg_inv_Some; [discriminate|].
  apply (S_of_invertible _ _ (dim self)); auto. now apply shape_H.
Qed.

Lemma correct_belief_state (x y theta var_r var_phi r phi : R) (tagID : Z)
  (self : EKF_vSLAM) :
  belief_ok self -> 0 <= var_r -> 0 <= var_phi ->
  (exists j, index tagID (observed self) = Some j) ->
  let o := correct x y theta var_r var_phi r phi tagID self (dim self) in
  belief_ok (state_of fst o) /\
  (forall st', o = Ok st' -> loop_inv st' /\ belief_ok (fst st')) /\
  (0 < var_r -> 0 < var_phi -> forall e s, o <> Raised e s).
Proof.
  intros Hb Hr Hphi [j Hj]. cbv zeta.
  destruct (correct_state x y theta var_r var_phi r phi tagID self
              (proj1 Hb)) as (_ & _ & Hinv).
  split; [|split].
  - destruct (correct x y theta var_r var_phi r phi tagID self (dim self))
      as [st'|e s|s] eqn:E; cbn [state_of].
    + now apply (correct_belief _ _ _ _ _ _ _ _ _ _ Hb Hr Hphi E).
    + now rewrite (correct_Raised _ _ _ _ _ _ _ _ _ _ _ _ E).
    + now rewrite (correct_NonFinite _ _ _ _ _ _ _ _ _ _ _ E).
  - intros st' E. split; [now apply Hinv|].
    now apply (correct_belief _ _ _ _ _ _ _ _ _ _ Hb Hr Hphi E).
  - intros Hr' Hphi'. now apply (correct_not_raised _ _ _ _ _ _ _ _ _ j).
Qed.

Lemma update_step_belief (x y theta var_r var_phi : R)
  (st : EKF_vSLAM * nat) (ob : R * R * Z) :
  loop_inv st -> belief_ok (fst st) -> 0 <= var_r -> 0 <= var_phi ->
  let o := update_step x y theta var_r var_phi st ob in
  belief_ok (state_of fst o) /\
  (forall st', o = Ok st' -> loop_inv st' /\ belief_ok (fst st')) /\
  (0 < var_r -> 0 < var_phi -> forall e s, o <> Raised e s).
Proof.
  destruct st as [self mu_len], ob as [[px py] tagID].
  intros [Hwf Hlen] Hb Hr Hphi. cbn [fst snd] in *. subst mu_len.
  pose proof (resolve_index x y theta (norm [px; py]) (atan2 px py) tagID
                (self, dim self)) as Hidx.
  unfold update_step. unfold resolve in *. cbn [fst snd] in *.
  destruct (contains tagID (observed self)) eqn:Hc; cbn [negb fst snd] in *.
  - now apply correct_belief_state.
  - pose proof (register_belief x y theta (norm [px; py])
                  (atan2 px py) tagID self Hb) as Hb'.
    pose proof (register_mu_len x y theta (norm [px; py])
                  (atan2 px py) tagID self (proj1 Hwf)) as Hlen'.
    destruct (register x y theta (norm [px; py]) (atan2 px py) tagID self)
      as [self1 mu_len1].
    cbn [fst snd] in *. subst mu_len1.
    now apply correct_belief_state.
Qed.

Lemma update_loop_belief (x y theta var_r var_phi : R)
  (landmarks : list (R * R * Z)) (st : EKF_vSLAM * nat) :
  loop_inv st -> belief_ok (fst st) -> 0 <= var_r -> 0 <= var_phi ->
  let o := update_loop x y theta var_r var_phi st landmarks in
  belief_ok (final o) /\
  (0 < var_r -> 0 < var_phi -> forall e s, o <> Raised e s).
Proof.
  intros Hinv Hb Hr Hphi. revert st Hinv Hb.
  induction landmarks as [|ob rest IH]; intros st Hinv Hb; cbn.
  - split; [exact Hb|]. discriminate.
  - destruct (update_step_belief x y theta var_r var_phi st ob Hinv Hb
                Hr Hphi) as (H1 & H2 & H3).
    destruct (update_step x y theta var_r var_phi st ob) as [st'|e s|s];
      cbn [bind final state_of] in *.
    + destruct (H2 st' eq_refl) as [Hinv' Hb']. now apply IH.
    + split; [exact H1|]. intros Hr' Hphi' e' s'. intros [= -> ->].
      now apply (H3 Hr' Hphi' e' s').
    + split; [exact H1|]. discriminate.
Qed.

Lemma update_EKF_belief (self : EKF_vSLAM) (landmarks : list (R * R * Z)) :
  belief_ok self ->
  0 <= fst (var_Sensor_noise self) -> 0 <= snd (var_Sensor_noise self) ->
  belief_ok (final (update_EKF self landmarks)) /\
  (0 < fst (var_Sensor_noise self) -> 0 < snd (var_Sensor_noise self) ->
   forall e s, update_EKF self landmarks <> Raised e s).
Proof.
  intros Hb Hr Hphi. rewrite update_EKF_unfold.
  apply update_loop_belief; auto.
  split; [apply Hb|]. cbn [fst snd]. destruct Hb as [[[[Hl _] _] _] _].
  exact Hl.
Qed.

Lemma run_belief (calls : list call) (self : EKF_vSLAM) :
  belief_ok self -> noise_nonneg self ->
  belief_ok (final (run self calls)) /\
  (noise_ok self -> forall e s, run self calls <> Raised e s).
Proof.
  revert self. induction calls as [|c rest IH]; intros self Hb Hn; cbn.
  - split; [exact Hb|]. discriminate.
  - pose proof Hn as (Hs1 & Hs2 & Hr & Hphi).
    destruct c as [twist|landmarks]; cbn [do_call bind].
    + destruct (IH (predict_EKF self twist)) as [H1 H2].
      * now apply predict_EKF_belief.
      * destruct twist as [[vx vy] w]. exact Hn.
      * split; [exact H1|]. intros Hok. apply H2.
        destruct twist as [[vx vy] w]. exact Hok.
    + destruct (update_EKF_belief self landmarks Hb Hr Hphi) as [H1 H2].
      pose proof (run_noise [Update landmarks] self) as Hnoise.
      cbn [run do_call] in Hnoise.
      destruct (update_EKF self landmarks) as [s|e s|s];
        cbn [bind final state_of] in *.
      * destruct Hnoise as [E1 E2]. destruct (IH s) as [H3 H4]; auto.
        { unfold noise_nonneg. now rewrite E1, E2. }
        split; [exact H3|]. intros Hok. apply H4.
        unfold noise_ok, noise_nonneg in *. now rewrite E1, E2.
      * split; [exact H1|]. intros (_ & Hr' & Hphi') e' s' [= -> ->].
        now apply (H2 Hr' Hphi' e' s').
      * split; [exact H1|]. discriminate.
Qed.


(** *** The variances along an update *)

Lemma correct_variances (x y theta var_r var_phi r phi : R) (tagID : Z)
  (self : EKF_vSLAM) (st' : EKF_vSLAM * nat) :
  belief_ok self -> 0 <= var_r -> 0 <= var_phi ->
  correct x y theta var_r var_phi r phi tagID self (dim self) = Ok st' ->
  forall i, (i < dim self)%nat ->
    get (cov (fst st')) i i <= get (cov self) i i.
Proof.
  intros [Hwf Hp] Hr Hphi Hc i Hi. pose proof Hwf as [[Hmu Hcov] Hs].
  destruct (correct_Ok _ _ _ _ _ _ _ _ _ _ _ Hc) as [j [Sinv H]].
  cbv zeta in H. destruct H as [Hj [Hq [HS ->]]]. cbn [fst cov].
  set (n := dim self) in *.
  assert (Hn : (0 < n)%nat) by (unfold n, dim; lia).
  set (H := H_of x y (mu self) n (3 + 2 * j)) in *.
  assert (HH : has_shape H 2 n) by now apply shape_H.
  assert (HHt : has_shape (transpose H) n 2) by now apply shape_transpose.
  assert (HSinv : has_shape Sinv 2 2) by now apply (linalg_inv_shape _ _ HS).
  unfold S_of in HS. unfold K_of.
  rewrite (multi_dot3_dot _ _ _ 2 n n 2) in HS; auto.
  rewrite (multi_dot3_dot _ _ _ n n 2 2); auto.
  destruct (correction_removed (cov self) H (diag [var_r; var_phi]) Sinv n
              Hcov HH (shape_diag2 _ _) HS Hs (symmetric_diag2 _ _) Hp
              (psd_diag2 _ _ Hr Hphi)) as (E & HX & HpX).
  rewrite E, (get_sub _ _ n n) by auto.
  pose proof (psd_diag_nonneg _ n i HX HpX Hi). lra.
Qed.

Lemma update_step_variances (x y theta var_r var_phi : R)
  (st st' : EKF_vSLAM * nat) (ob : R * R * Z) :
  loop_inv st -> belief_ok (fst st) -> 0 <= var_r -> 0 <= var_phi ->
  update_step x y theta var_r var_phi st ob = Ok st' ->
  (dim (fst st) <= dim (fst st'))%nat /\
  forall i, (i < dim (fst st'))%nat ->
    get (cov (fst st')) i i <=
    if (i <? dim (fst st))%nat then get (cov (fst st)) i i else 1e6.
Proof.
  destruct st as [self mu_len], ob as [[px py] tagID].
  intros [Hwf Hlen] Hb Hr Hphi. cbn [fst snd] in *. subst mu_len.
  unfold update_step, resolve. cbn [fst snd].
  destruct (contains tagID (observed self)) eqn:Hc; cbn [negb fst snd].
  - intros E.
    destruct (correct_well_formed _ _ _ _ _ _ _ _ _ _ Hwf E)
      as (_ & _ & Hobs).
    assert (Hd : dim (fst st') = dim self) by (unfold dim; now rewrite Hobs).
    rewrite Hd. split; [lia|]. intros i Hi.
    destruct (Nat.ltb_spec i (dim self)); [|lia].
    now apply (correct_variances _ _ _ _ _ _ _ _ _ _ Hb Hr Hphi E).
  - pose proof (register_belief x y theta (norm [px; py])
                  (atan2 px py) tagID self Hb) as Hb'.
    pose proof (register_mu_len x y theta (norm [px; py])
                  (atan2 px py) tagID self (proj1 Hwf)) as Hlen'.
    pose proof (register_cov x y theta (norm [px; py])
                  (atan2 px py) tagID self (proj1 Hwf)) as Hcov'.
    pose proof (register_dim x y theta (norm [px; py])
                  (atan2 px py) tagID self) as Hdim'.
    destruct (register x y theta (norm [px; py]) (atan2 px py) tagID self)
      as [self1 mu_len1].
    cbn [fst snd] in *. subst mu_len1. intros E.
    destruct (correct_well_formed _ _ _ _ _ _ _ _ _ _ (proj1 Hb') E)
      as (_ & _ & Hobs).
    assert (Hd : dim (fst st') = dim self1) by (unfold dim; now rewrite Hobs).
    rewrite Hd, Hdim'. split; [lia|]. intros i Hi.
    apply Rle_trans with (get (cov self1) i i).
    + apply (correct_variances _ _ _ _ _ _ _ _ _ _ Hb' Hr Hphi E). lia.
    + rewrite Hcov', (get_block_diag _ (dim self)) by (auto; apply Hwf).
      destruct (Nat.ltb_spec i (dim self)); [lra|].
      rewrite Nat.eqb_refl. destruct (Nat.eqb i (dim self)); lra.
Qed.

Lemma update_loop_variances (x y theta var_r var_phi : R)
  (landmarks : list (R * R * Z)) (st : EKF_vSLAM * nat)
  (self' : EKF_vSLAM) :
  loop_inv st -> belief_ok (fst st) -> 0 <= var_r -> 0 <= var_phi ->
  update_loop x y theta var_r var_phi st landmarks = Ok self' ->
  (dim (fst st) <= dim self')%nat /\
  forall i, (i < dim self')%nat ->
    get (cov self') i i <=
    if (i <? dim (fst st))%nat then get (cov (fst st)) i i else 1e6.
Proof.
  intros Hinv Hb Hr Hphi. revert st Hinv Hb.
  induction landmarks as [|ob rest IH]; intros st Hinv Hb;
    cbn [update_loop].
  - intros [= <-]. split; [lia|]. intros i Hi.
    destruct (Nat.ltb_spec i (dim (fst st))); [lra|lia].
  - destruct (update_step_belief x y theta var_r var_phi st ob Hinv Hb
                Hr Hphi) as (_ & H2 & _).
    pose proof (fun st1 => update_step_variances x y theta var_r var_phi
                             st st1 ob Hinv Hb Hr Hphi) as Hv.
    destruct (update_step x y theta var_r var_phi st ob) as [st1|e s|s];
      cbn [bind]; try discriminate.
    destruct (H2 st1 eq_refl) as [Hinv1 Hb1].
    destruct (Hv st1 eq_refl) as [Hd1 Hv1].
    intros E. destruct (IH st1 Hinv1 Hb1 E) as [Hd2 Hv2].
    split; [lia|]. intros i Hi. specialize (Hv2 i Hi).
    destruct (Nat.ltb_spec i (dim (fst st1))).
    + specialize (Hv1 i ltac:(lia)). lra.
    + destruct (Nat.ltb_spec i (dim (fst st))); [lia|exact Hv2].
Qed.

(** *** First sightings *)

Lemma norm_pos (px py : R) : px <> 0 \/ py <> 0 -> 0 < norm [px; py].
Proof.
  intros H. unfold norm. cbn [map fold_right]. apply sqrt_lt_R0.
  destruct H; nra.
Qed.

Lemma first_sighting_returns (x y theta var_r var_phi px py : R)
  (tagID : Z) (self : EKF_vSLAM) :
  belief_ok self -> 0 < var_r -> 0 < var_phi ->
  contains tagID (observed self) = false ->
  px <> 0 \/ py <> 0 ->
  exists st',
    update_step x y theta var_r var_phi (self, dim self) (px, py, tagID)
    = Ok st'.
Proof.
  intros Hb Hr Hphi Hc Hp. pose proof Hb as [[Hsh _] _].
  unfold update_step, resolve. cbn [fst snd]. rewrite Hc. cbn [negb].
  set (r := norm [px; py]). set (phi := atan2 px py).
  pose proof (register_belief x y theta r phi tagID self Hb) as Hb1.
  pose proof (register_mu_len x y theta r phi tagID self Hsh) as Hlen1.
  pose proof (register_dim x y theta r phi tagID self) as Hdim1.
  pose proof (delta_at_registration x y theta r phi tagID self Hsh) as Hd.
  assert (Hobs1 : observed (fst (register x y theta r phi tagID self)) =
                  observed self ++ [tagID]) by reflexivity.
  set (st1 := register x y theta r phi tagID self) in *.
  rewrite Hlen1.
  assert (Hj : index tagID (observed (fst st1)) =
               Some (length (observed self)))
    by (rewrite Hobs1; now apply index_app_new).
  assert (Hq : q_of (delta_of x y (mu (fst st1))
                       (3 + 2 * length (observed self))) <> 0).
  { fold (dim self). rewrite Hd, q_of_col.
    pose proof (norm_pos px py Hp) as Hpos. fold r in Hpos.
    pose proof (sin2_cos2 (phi + theta)) as Ht. unfold Rsqr in Ht.
    replace (r * cos (phi + theta) * (r * cos (phi + theta))
             + r * sin (phi + theta) * (r * sin (phi + theta)))
      with (r * r * (sin (phi + theta) * sin (phi + theta)
                     + cos (phi + theta) * cos (phi + theta))) by ring.
    rewrite Ht. nra. }
  pose proof Hb1 as [[[Hmu1 Hcov1] Hs1] Hp1].
  assert (Hn1 : (0 < dim (fst st1))%nat) by (unfold dim; lia).
  eexists.
  apply (correct_returns _ _ _ _ _ _ _ _ _ _ (length (observed self)));
    auto.
  apply linalg_inv_Some.
  apply (S_of_invertible _ _ (dim (fst st1))); auto. now apply shape_H.
Qed.

Lemma first_sightings_loop (x y theta var_r var_phi : R)
  (landmarks : list (R * R * Z)) (st : EKF_vSLAM * nat) :
  loop_inv st -> belief_ok (fst st) -> 0 < var_r -> 0 < var_phi ->
  NoDup (map snd landmarks) ->
  (forall t, In t (map snd landmarks) -> ~ In t (observed (fst st))) ->
  Forall off_origin landmarks ->
  exists self',
    update_loop x y theta var_r var_phi st landmarks = Ok self' /\
    mu self' = mu (fst st) ++ flat_map (landmark_at x y theta) landmarks /\
    observed self' = observed (fst st) ++ map snd landmarks.
Proof.
  intros Hinv Hb Hr Hphi. revert st Hinv Hb.
  induction landmarks as [|[[px py] tagID] rest IH];
    intros st Hinv Hb Hnd Hnew Hoff; cbn [update_loop map flat_map snd].
  - exists (fst st). now rewrite !app_nil_r.
  - destruct st as [self mu_len]. pose proof Hinv as [Hwf Hlen].
    cbn [fst snd] in *. subst mu_len.
    inversion Hnd as [|? ? Hnotin Hnd']; subst.
    inversion Hoff as [|? ? Hoff1 Hoff']; subst.
    assert (Hc : contains tagID (observed self) = false)
      by (apply contains_false, Hnew; now left).
    destruct (first_sighting_returns x y theta var_r var_phi px py tagID
                self Hb Hr Hphi Hc Hoff1) as [st1 E].
    destruct (first_sighting_keeps_mean x y theta var_r var_phi px py tagID
                self st1 (proj1 Hwf) Hc E) as [Hmu1 Hobs1].
    destruct (update_step_belief x y theta var_r var_phi (self, dim self)
                (px, py, tagID) Hinv Hb ltac:(lra) ltac:(lra))
      as (_ & H2 & _).
    cbv zeta in H2. rewrite E in H2.
    destruct (H2 st1 eq_refl) as [Hinv1 Hb1].
    rewrite E. cbn [bind].
    destruct (IH st1 Hinv1 Hb1 Hnd') as (self' & E' & Hmu' & Hobs'); auto.
    + intros t Hin. rewrite Hobs1, in_app_iff. cbn [In].
      intros [H|[<-|[]]]; [|contradiction].
      apply (Hnew t); [right; exact Hin | exact H].
    + exists self'. split; [exact E'|].
      rewrite Hmu', Hobs', Hmu1, Hobs1, <- !app_assoc. split; reflexivity.
Qed.

Lemma first_sightings_update (self : EKF_vSLAM)
  (landmarks : list (R * R * Z)) :
  belief_ok self ->
  0 < fst (var_Sensor_noise self) -> 0 < snd (var_Sensor_noise self) ->
  NoDup (map snd landmarks) ->
  (forall t, In t (map snd landmarks) -> ~ In t (observed self)) ->
  Forall off_origin landmarks ->
  exists self',
    update_EKF self landmarks = Ok self' /\
    mu self' =
    mu self ++ flat_map (landmark_at (get (mu self) 0 0) (get (mu self) 1 0)
                           (get (mu self) 2 0)) landmarks /\
    observed self' = observed self ++ map snd landmarks.
Proof.
  intros Hb Hr Hphi Hnd Hnew Hoff. rewrite update_EKF_unfold.
  apply (first_sightings_loop _ _ _ _ _ landmarks
           (self, length (mu self))); auto.
  split; [apply Hb|]. cbn [fst snd]. destruct Hb as [[[[Hl _] _] _] _].
  exact Hl.
Qed.

End BeliefFacts.

(** ** Facts about the control loop *)

Module LoopFacts.
Import Np NpFacts Ekf EkfFacts Belief RunFacts PsdFacts BeliefFacts Loop.

(** *** The subscriber callback *)

Lemma apriltag_callback_fold (msgs : list (list detection)) (g : globals) :
  let g' := fold_left apriltag_callback msgs g in
  landmarks_Info g' = last_detections msgs (landmarks_Info g) /\
  apriltag_detected g' =
  match rev msgs with
  | [] => apriltag_detected g
  | m :: _ => negb (Nat.eqb (length m) 0)
  end.
Proof.
  revert g. induction msgs as [|m msgs IH]; intros g; cbn [fold_left].
  - cbn. auto.
  - destruct (IH (apriltag_callback g m)) as [H1 H2]. cbv zeta. split.
    + rewrite H1. cbn [last_detections]. unfold apriltag_callback.
      destruct m; reflexivity.
    + rewrite H2. cbn [rev]. destruct (rev msgs) as [|m' r] eqn:E; cbn.
      * unfold apriltag_callback. destruct m; reflexivity.
      * reflexivity.
Qed.

Lemma apriltag_callback_inv (msgs : list (list detection)) (g : globals) :
  (apriltag_detected g = true -> landmarks_Info g <> []) ->
  apriltag_detected (fold_left apriltag_callback msgs g) = true ->
  landmarks_Info (fold_left apriltag_callback msgs g) <> [].
Proof.
  revert g. induction msgs as [|m msgs IH]; intros g Hg; cbn [fold_left];
    auto.
  apply IH. unfold apriltag_callback. destruct m; cbn; [discriminate|].
  intros _. discriminate.
Qed.

(** *** The batches *)

Lemma batch_loop_map (info : list detection) (landmarks : list (R * R * Z)) :
  batch_loop landmarks info = landmarks ++ map observation_of info.
Proof.
  revert landmarks. induction info as [|d rest IH]; intros landmarks; cbn.
  - now rewrite app_nil_r.
  - now rewrite IH, <- app_assoc.
Qed.

Lemma batch_map (info : list detection) :
  batch info = map observation_of info.
Proof. apply batch_loop_map. Qed.

Lemma tag_of_observation (d : detection) : snd (observation_of d) = id d.
Proof. unfold observation_of. now destruct (position d) as [[? ?] ?]. Qed.

Lemma unique_batch_loop_eq (info : list detection)
  (landmarks : list (R * R * Z)) (landmark_ids : list Z) :
  unique_batch_loop landmarks landmark_ids info =
  landmarks ++ map observation_of (first_sightings landmark_ids info).
Proof.
  revert landmarks landmark_ids.
  induction info as [|d rest IH]; intros landmarks ids; cbn.
  - now rewrite app_nil_r.
  - destruct (contains (id d) ids); cbn [negb].
    + apply IH.
    + rewrite IH, <- app_assoc. reflexivity.
Qed.

Lemma first_sightings_spec (info : list detection) (taken : list Z) :
  let kept := map id (first_sightings taken info) in
  NoDup kept /\
  (forall t, In t kept <-> In t (map id info) /\ ~ In t taken).
Proof.
  revert taken. induction info as [|d rest IH]; intros taken; cbn.
  - split; [constructor|]. intros t. tauto.
  - destruct (contains (id d) taken) eqn:Hc.
    + destruct (IH taken) as [H1 H2]. split; auto.
      intros t. rewrite (H2 t). apply contains_In in Hc.
      split; [tauto|]. intros [[<-|H] Hn]; tauto.
    + apply contains_false in Hc.
      destruct (IH (taken ++ [id d])) as [H1 H2]. cbn [map]. split.
      * constructor; auto. rewrite (H2 (id d)), in_app_iff. cbn. tauto.
      * intros t. cbn [In]. rewrite (H2 t), in_app_iff. cbn [In].
        destruct (Z.eq_dec (id d) t) as [<-|Hne]; tauto.
Qed.

(** A detection the first cycle keeps is the first one of its tag. *)
Lemma first_sightings_first (info : list detection) (taken : list Z)
  (d : detection) :
  In d (first_sightings taken info) ->
  find (fun d' => Z.eqb (id d') (id d)) info = Some d.
Proof.
  revert taken. induction info as [|d0 rest IH]; intros taken; cbn;
    [tauto|].
  destruct (contains (id d0) taken) eqn:Hc.
  - intros Hin. destruct (Z.eqb_spec (id d0) (id d)) as [E|Hne].
    + exfalso. apply contains_In in Hc.
      destruct (first_sightings_spec rest taken) as [_ H].
      apply (H (id d)); [now apply in_map|]. now rewrite <- E.
    + now apply (IH taken).
  - intros [<-|Hin].
    + now rewrite Z.eqb_refl.
    + destruct (Z.eqb_spec (id d0) (id d)) as [E|Hne].
      * exfalso. destruct (first_sightings_spec rest (taken ++ [id d0]))
          as [_ H].
        apply (H (id d)); [now apply in_map|].
        rewrite in_app_iff. cbn. auto.
      * now apply (IH (taken ++ [id d0])).
Qed.

Lemma first_sightings_NoDup (info : list detection) (taken : list Z) :
  NoDup (taken ++ map id info) -> first_sightings taken info = info.
Proof.
  revert taken. induction info as [|d rest IH]; intros taken Hnd; cbn; auto.
  assert (Hc : contains (id d) taken = false).
  { apply contains_false. intros Hin.
    apply NoDup_remove_2 in Hnd. apply Hnd. rewrite in_app_iff. auto. }
  rewrite Hc. f_equal. apply IH.
  now rewrite <- app_assoc.
Qed.

Lemma observation_tags (l : list detection) :
  map snd (map observation_of l) = map id l.
Proof.
  rewrite map_map. apply map_ext. apply tag_of_observation.
Qed.

(** *** The telemetry rows *)

Lemma length_flatten (A : matrix) (m n : nat) :
  has_shape A m n -> length (flatten A) = (m * n)%nat.
Proof.
  intros [Hl [Hf _]]. subst m. unfold flatten.
  induction Hf as [|r A Hr Hf IH]; cbn; auto.
  rewrite length_app, IH, Hr. reflexivity.
Qed.

Lemma nth_flatten (A : matrix) (m n i j : nat) :
  has_shape A m n -> (i < m)%nat -> (j < n)%nat ->
  nth (i * n + j) (flatten A) 0 = get A i j.
Proof.
  intros [Hl [Hf _]]. subst m. unfold flatten, get. revert i.
  induction Hf as [|r A Hr Hf IH]; intros i Hi Hj; cbn in *; [lia|].
  destruct i as [|i].
  - cbn. rewrite app_nth1 by lia. reflexivity.
  - rewrite app_nth2 by (rewrite Hr; lia). rewrite Hr.
    replace (S i * n + j - n)%nat with (i * n + j)%nat by lia.
    apply IH; lia.
Qed.

(** *** The batch is never empty *)

Lemma last_detections_nonempty (msgs : list (list detection))
  (seen : list detection) :
  last msgs [] <> [] -> last_detections msgs seen = last msgs [].
Proof.
  revert seen. induction msgs as [|m rest IH]; intros seen Hl;
    [now contradiction Hl|].
  cbn [last_detections]. destruct rest as [|m' rest'].
  - cbn in *. destruct m; [now contradiction Hl|reflexivity].
  - rewrite IH; [reflexivity|exact Hl].
Qed.

Lemma rev_last (msgs : list (list detection)) :
  msgs <> [] ->
  exists front, rev msgs = last msgs [] :: front.
Proof.
  intros Hne. destruct (exists_last Hne) as [front [m ->]].
  rewrite rev_app_distr, last_last. cbn. eauto.
Qed.

Lemma unique_batch_nonempty (info : list detection) :
  info <> [] -> unique_batch info <> [].
Proof.
  destruct info as [|d rest]; [intros H; now contradiction H|].
  intros _. unfold unique_batch. rewrite unique_batch_loop_eq.
  cbn. discriminate.
Qed.

Lemma batch_nonempty (info : list detection) :
  info <> [] -> batch info <> [].
Proof.
  destruct info as [|d rest]; [intros H; now contradiction H|].
  intros _. rewrite batch_map. discriminate.
Qed.

(** *** A cycle that sees only tags that are not registered *)

Lemma off_origin_observation (d : detection) :
  off_origin (observation_of d) <->
  fst (fst (position d)) <> 0 \/ snd (position d) <> 0.
Proof.
  unfold off_origin, observation_of.
  destruct (position d) as [[px py] pz]. cbn [fst snd].
  split; intros [H|H]; auto; left; lra.
Qed.

Lemma first_sightings_incl (info : list detection) (taken : list Z)
  (d : detection) :
  In d (first_sightings taken info) -> In d info.
Proof.
  revert taken. induction info as [|d0 rest IH]; intros taken; cbn; auto.
  destruct (contains (id d0) taken).
  - intros H. right. now apply (IH taken).
  - intros [<-|H]; auto. right. now apply (IH (taken ++ [id d0])).
Qed.

Lemma predict_EKF_pose (self : EKF_vSLAM) (vx vy w : R) :
  well_shaped self ->
  current_state (mu (predict_EKF self (vx, vy, w))) =
  [get (mu self) 0 0 + vx; get (mu self) 1 0 + vy; get (mu self) 2 0 + w].
Proof.
  intros [Hmu Hcov].
  assert (Hn : (3 <= dim self)%nat) by (unfold dim; lia).
  unfold current_state.
  rewrite !(predict_EKF_mu self (dim self) Hmu Hn) by lia. reflexivity.
Qed.

Lemma current_state_app (A B : matrix) :
  (3 <= length A)%nat -> current_state (A ++ B) = current_state A.
Proof.
  intros H. unfold current_state, get.
  rewrite !app_nth1 by lia. reflexivity.
Qed.

(** *** The first-cycle batch by positions of the message *)

Lemma first_sightings_positions (rest pre : list detection) (taken : list Z) :
  (forall t, contains t taken = existsb (fun d' => Z.eqb (id d') t) pre) ->
  first_sightings taken rest =
  map (fun p => nth p (pre ++ rest) no_detection)
      (filter (first_of_tag (pre ++ rest)) (seq (length pre) (length rest))).
Proof.
  revert pre taken. induction rest as [|d rest IH]; intros pre taken Hinv;
    [reflexivity|].
  cbn [first_sightings length seq filter].
  assert (Ht : first_of_tag (pre ++ d :: rest) (length pre) =
               negb (contains (id d) taken)).
  { unfold first_of_tag. rewrite nth_middle.
    rewrite firstn_app, Nat.sub_diag, firstn_all. cbn [firstn].
    now rewrite app_nil_r, Hinv. }
  rewrite Ht.
  assert (Hl : length (pre ++ [d]) = S (length pre))
    by (rewrite length_app; cbn; lia).
  assert (Ha : (pre ++ [d]) ++ rest = pre ++ d :: rest)
    by now rewrite <- app_assoc.
  destruct (contains (id d) taken) eqn:Hc; cbn [negb].
  - rewrite (IH (pre ++ [d]) taken), Hl, Ha; [reflexivity|].
    intros t. rewrite existsb_app, Hinv. cbn [existsb].
    rewrite orb_false_r. destruct (Z.eqb_spec (id d) t) as [<-|_].
    + rewrite <- Hinv, Hc. reflexivity.
    + now rewrite orb_false_r.
  - cbn [map]. rewrite nth_middle. f_equal.
    rewrite (IH (pre ++ [d]) (taken ++ [id d])), Hl, Ha; [reflexivity|].
    intros t. rewrite existsb_app, <- Hinv. cbn [existsb].
    rewrite orb_false_r. unfold contains. rewrite existsb_app. cbn [existsb].
    now rewrite orb_false_r, Z.eqb_sym.
Qed.

Lemma unique_batch_positions (info : list detection) :
  unique_batch info =
  map (fun p => observation_of (nth p info no_detection))
      (first_positions info).
Proof.
  unfold unique_batch. rewrite unique_batch_loop_eq. cbn [app].
  rewrite (first_sightings_positions info [] []) by reflexivity.
  now rewrite map_map.
Qed.

Lemma seq_increasing (a n : nat) : StronglySorted lt (seq a n).
Proof.
  revert a. induction n as [|n IH]; intros a; cbn; constructor; auto.
  apply Forall_forall. intros p Hp. apply in_seq in Hp. lia.
Qed.

Lemma filter_increasing (f : nat -> bool) (l : list nat) :
  StronglySorted lt l -> StronglySorted lt (filter f l).
Proof.
  induction 1 as [|a l Hs IH Hf]; cbn; [constructor|].
  destruct (f a); auto. constructor; auto.
  rewrite Forall_forall in *. intros p Hp. apply filter_In in Hp.
  now apply Hf.
Qed.

Lemma first_of_tag_spec (info : list detection) (p : nat) :
  first_of_tag info p = true <->
  forall p', (p' < p)%nat -> (p' < length info)%nat ->
    id (nth p' info no_detection) <> id (nth p info no_detection).
Proof.
  unfold first_of_tag. rewrite negb_true_iff. split.
  - intros Hn p' Hp' Hl E.
    assert (Hex : existsb
              (fun d' => Z.eqb (id d') (id (nth p info no_detection)))
              (firstn p info) = true).
    { apply existsb_exists. exists (nth p' info no_detection). split.
      - rewrite <- (firstn_skipn p info) at 1.
        rewrite app_nth1 by (rewrite length_firstn; lia).
        apply nth_In. rewrite length_firstn. lia.
      - now apply Z.eqb_eq. }
    congruence.
  - intros H. destruct (existsb _ _) eqn:Hex; [|reflexivity]. exfalso.
    apply existsb_exists in Hex. destruct Hex as (d' & Hin & E).
    apply Z.eqb_eq in E.
    destruct (In_nth _ _ no_detection Hin) as (p' & Hp' & En).
    rewrite length_firstn in Hp'.
    apply (H p'); [lia|lia|].
    rewrite <- E, <- En.
    rewrite <- (firstn_skipn p info) at 1.
    rewrite app_nth1 by (rewrite length_firstn; lia). reflexivity.
Qed.

Lemma first_positions_spec (info : list detection) :
  StronglySorted lt (first_positions info) /\
  forall p, In p (first_positions info) <->
    (p < length info)%nat /\
    forall p', (p' < p)%nat ->
      id (nth p' info no_detection) <> id (nth p info no_detection).
Proof.
  split.
  - apply filter_increasing, seq_increasing.
  - intros p. unfold first_positions.
    rewrite filter_In, in_seq, first_of_tag_spec. split.
    + intros [Hp H]. split; [lia|]. intros p' Hp'. apply H; lia.
    + intros [Hp H]. split; [lia|]. intros p' Hp' _. now apply H.
Qed.

End LoopFacts.

(** ** Facts about the map helpers *)

Module RoombaFacts.
Import PrimFloat.
Import Roomba.
Local Open Scope Z_scope.

(** *** The module-level statements *)

Lemma arr_h_31 : arr_h = 31.
Proof. vm_compute. reflexivity. Qed.

Lemma arr_w_31 : arr_w = 31.
Proof. vm_compute. reflexivity. Qed.

Lemma clearance_2 :
  ceil (PrimFloat.div rb5_clearance cell_size) = Return 2.
Proof. vm_compute. reflexivity. Qed.

(** None of the module-level statements raises. *)
Lemma module_loads :
  arr_h_result = Return 31 /\ arr_w_result = Return 31 /\
  map_result = Return map /\
  ground_to_array_transform rb5_start = Return (24, 6) /\
  ground_to_array_transform rb5_goal = Return (6, 24).
Proof.
  split; [vm_compute; reflexivity|]. split; [vm_compute; reflexivity|].
  split; [vm_compute; reflexivity|]. split; vm_compute; reflexivity.
Qed.

Lemma arr_start_24_6 : arr_start = (24, 6).
Proof. vm_compute. reflexivity. Qed.

Lemma arr_goal_6_24 : arr_goal = (6, 24).
Proof. vm_compute. reflexivity. Qed.

(** *** Ranges *)

Lemma In_range (a b z : Z) : In z (range a b) <-> a <= z < b.
Proof.
  unfold range. rewrite in_map_iff. split.
  - intros [k [<- Hk]]. apply in_seq in Hk. lia.
  - intros H. exists (Z.to_nat (z - a)). split; [lia|].
    apply in_seq. lia.
Qed.

(** *** Cells and ground positions *)

Lemma cell_eqb_eq (p q : Z * Z) : cell_eqb p q = true <-> p = q.
Proof.
  destruct p as [a b], q as [c d]. unfold cell_eqb. cbn [fst snd].
  rewrite andb_true_iff, !Z.eqb_eq. split; [intros [-> ->]|intros [= -> ->]];
    auto.
Qed.

Lemma returns_cell_eq (r : result (Z * Z)) (p : Z * Z) :
  returns_cell r p = true <-> r = Return p.
Proof.
  destruct r as [q|e]; cbn.
  - rewrite cell_eqb_eq. split; [intros ->|intros [= ->]]; auto.
  - split; discriminate.
Qed.

Lemma In_cells (x y : Z) :
  In (x, y) cells <-> 0 <= x < arr_h /\ 0 <= y < arr_w.
Proof. unfold cells. now rewrite in_prod_iff, !In_range. Qed.

Lemma array_round_trip_cells :
  forallb (fun p => returns_cell
                      (g <- array_to_ground_transform p ;;
                       ground_to_array_transform g) p) cells = true.
Proof. vm_compute. reflexivity. Qed.

Lemma grid_round_trip_cells :
  forallb (fun p => returns_cell
                      (g <- grid_to_ground_transform map p ;;
                       ground_to_array_transform g) (snd p, fst p)) cells
  = true.
Proof. vm_compute. reflexivity. Qed.

Lemma array_round_trip (x y : Z) :
  0 <= x < arr_h -> 0 <= y < arr_w ->
  (g <- array_to_ground_transform (x, y) ;; ground_to_array_transform g)
  = Return (x, y).
Proof.
  intros Hx Hy. apply returns_cell_eq.
  apply (proj1 (forallb_forall _ _) array_round_trip_cells (x, y)).
  now apply In_cells.
Qed.

Lemma grid_round_trip (x y : Z) :
  0 <= x < arr_w -> 0 <= y < arr_h ->
  (g <- grid_to_ground_transform map (x, y) ;; ground_to_array_transform g)
  = Return (y, x).
Proof.
  intros Hx Hy.
  apply (returns_cell_eq _ (snd (x, y), fst (x, y))).
  apply (proj1 (forallb_forall _ _) grid_round_trip_cells (x, y)).
  apply In_cells. rewrite arr_h_31, arr_w_31 in *. lia.
Qed.

(** On a wider map the round trip fails: column 43 comes back as 42. *)
Lemma array_round_trip_column_43 :
  (g <- array_to_ground_transform (0, 43) ;; ground_to_array_transform g)
  = Return (0, 42).
Proof. vm_compute. reflexivity. Qed.

(** *** Writing into the array *)

Lemma member_In (y : Z) (ys : list Z) : member y ys = true <-> In y ys.
Proof.
  unfold member. rewrite existsb_exists. split.
  - intros [z [Hin Hz]]. apply Z.eqb_eq in Hz. now subst.
  - intros Hin. exists y. split; auto. apply Z.eqb_refl.
Qed.

Lemma member_cons (y z : Z) (zs : list Z) :
  member y (z :: zs) = (y =? z) || member y zs.
Proof. reflexivity. Qed.

Lemma member_range (a b z : Z) :
  member z (range a b) = (a <=? z) && (z <? b).
Proof.
  apply eq_true_iff_eq. rewrite member_In, In_range, andb_true_iff.
  rewrite Z.leb_le, Z.ltb_lt. tauto.
Qed.

Lemma axis_index_valid (n i : Z) :
  0 <= i < n -> axis_index n i = Return (Z.to_nat i).
Proof.
  intros H. unfold axis_index.
  destruct (Z.leb_spec (- n) i); [|lia].
  destruct (Z.ltb_spec i n); [|lia]. cbn [andb].
  destruct (Z.ltb_spec i 0); [lia|reflexivity].
Qed.

Lemma grid_shape1 (m : grid) (h w : Z) : grid_shape m h w -> shape1 m = w.
Proof.
  intros (Hh & Hf & Hpos). destruct m as [|r m]; [cbn in Hh; lia|].
  now inversion Hf.
Qed.

Lemma grid_row (m : grid) (h w x : Z) :
  grid_shape m h w -> 0 <= x < h ->
  Z.of_nat (length (nth (Z.to_nat x) m [])) = w.
Proof.
  intros (Hh & Hf & _) Hx. unfold shape0 in Hh.
  rewrite Forall_forall in Hf. apply Hf. apply nth_In. lia.
Qed.

Lemma setitem_valid (m : grid) (h w x y : Z) (v : PrimFloat.float) :
  grid_shape m h w -> 0 <= x < h -> 0 <= y < w ->
  let m' := Np.set_nth m (Z.to_nat x)
              (Np.set_nth (nth (Z.to_nat x) m []) (Z.to_nat y) v) in
  setitem m x y v = Return m' /\ grid_shape m' h w /\
  forall i j, 0 <= i -> 0 <= j ->
    item m' i j = if (i =? x) && (j =? y) then v else item m i j.
Proof.
  intros Hs Hx Hy. cbv zeta. pose proof Hs as (Hh & Hf & Hpos).
  pose proof (grid_row m h w x Hs Hx) as Hrow.
  split; [|split].
  - unfold setitem. rewrite Hh, (grid_shape1 m h w Hs).
    rewrite !axis_index_valid by lia. reflexivity.
  - split; [|split; auto].
    + unfold shape0 in *. now rewrite NpFacts.length_set_nth.
    + rewrite Forall_forall in *. intros r Hin.
      apply In_nth with (d := []) in Hin. destruct Hin as [k [Hk <-]].
      rewrite NpFacts.length_set_nth in Hk.
      rewrite NpFacts.nth_set_nth.
      destruct (Nat.eqb (Z.to_nat x) k && (Z.to_nat x <? length m)%nat).
      * now rewrite NpFacts.length_set_nth.
      * apply Hf. now apply nth_In.
  - intros i j Hi Hj. unfold item. unfold shape0 in Hh.
    rewrite NpFacts.nth_set_nth.
    destruct (Nat.ltb_spec (Z.to_nat x) (length m)); [|lia].
    rewrite andb_true_r.
    destruct (Nat.eqb_spec (Z.to_nat x) (Z.to_nat i)) as [E|E].
    + assert (i = x) by lia. subst i. rewrite Z.eqb_refl. cbn [andb].
      rewrite NpFacts.nth_set_nth.
      destruct (Nat.ltb_spec (Z.to_nat y)
                  (length (nth (Z.to_nat x) m []))); [|lia].
      rewrite andb_true_r.
      destruct (Nat.eqb_spec (Z.to_nat y) (Z.to_nat j)) as [E'|E'].
      * assert (j = y) by lia. subst j. now rewrite Z.eqb_refl.
      * destruct (Z.eqb_spec j y); [subst; lia|reflexivity].
    + destruct (Z.eqb_spec i x); [subst; lia|reflexivity].
Qed.

(** The inner loop of [add_obs] (lines 128-130) for one x. *)
Lemma add_obs_row (ys : list Z) (m : grid) (x : Z) :
  grid_shape m arr_h arr_w ->
  exists m',
    for_each ys
      (fun map y => if can_add_obs (x, y)
                    then setitem map x y 1%float else Return map) m
    = Return m' /\
    grid_shape m' arr_h arr_w /\
    forall i j, 0 <= i < arr_h -> 0 <= j < arr_w ->
      item m' i j = if (i =? x) && member j ys then 1%float else item m i j.
Proof.
  revert m. induction ys as [|y rest IH]; intros m Hs; cbn [for_each].
  - exists m. split; [reflexivity|]. split; [exact Hs|].
    intros i j _ _. cbn. now rewrite andb_false_r.
  - destruct (can_add_obs (x, y)) eqn:Hc.
    + unfold can_add_obs in Hc.
      apply andb_true_iff in Hc. destruct Hc as [Hcx Hcy].
      apply andb_true_iff in Hcx, Hcy.
      rewrite Z.leb_le, Z.ltb_lt in Hcx, Hcy.
      destruct (setitem_valid m arr_h arr_w x y 1%float Hs Hcx Hcy)
        as (E & Hs1 & Hitem). cbv zeta in E, Hs1, Hitem.
      rewrite E. cbn [and_then].
      destruct (IH _ Hs1) as (m' & E' & Hs' & Hitem').
      exists m'. split; [exact E'|]. split; [exact Hs'|].
      intros i j Hi Hj. rewrite (Hitem' i j Hi Hj), Hitem by lia.
      rewrite member_cons.
      destruct (Z.eqb i x), (Z.eqb j y), (member j rest); reflexivity.
    + cbn [and_then]. destruct (IH m Hs) as (m' & E' & Hs' & Hitem').
      exists m'. split; [exact E'|]. split; [exact Hs'|].
      intros i j Hi Hj. rewrite (Hitem' i j Hi Hj).
      rewrite member_cons.
      destruct (Z.eqb_spec i x) as [->|]; [|reflexivity].
      destruct (Z.eqb_spec j y) as [->|]; [|reflexivity].
      exfalso. unfold can_add_obs in Hc.
      apply andb_false_iff in Hc.
      destruct Hc as [Hc|Hc]; apply andb_false_iff in Hc;
        destruct Hc as [Hc|Hc];
        rewrite ?Z.leb_gt, ?Z.ltb_ge in Hc; lia.
Qed.

(** The two loops of [add_obs]. *)
Lemma add_obs_rows (xs ys : list Z) (m : grid) :
  grid_shape m arr_h arr_w ->
  exists m',
    for_each xs
      (fun map x =>
         for_each ys
           (fun map y => if can_add_obs (x, y)
                         then setitem map x y 1%float else Return map)
           map) m
    = Return m' /\
    grid_shape m' arr_h arr_w /\
    forall i j, 0 <= i < arr_h -> 0 <= j < arr_w ->
      item m' i j =
      if member i xs && member j ys then 1%float else item m i j.
Proof.
  revert m. induction xs as [|x rest IH]; intros m Hs; cbn [for_each].
  - exists m. split; [reflexivity|]. split; [exact Hs|]. reflexivity.
  - destruct (add_obs_row ys m x Hs) as (m1 & E1 & Hs1 & Hitem1).
    rewrite E1. cbn [and_then].
    destruct (IH m1 Hs1) as (m' & E' & Hs' & Hitem').
    exists m'. split; [exact E'|]. split; [exact Hs'|].
    intros i j Hi Hj. rewrite (Hitem' i j Hi Hj), (Hitem1 i j Hi Hj).
    rewrite member_cons.
    destruct (Z.eqb i x), (member i rest), (member j ys); reflexivity.
Qed.

Lemma add_obs_returns (m : grid) (min_x min_y max_x max_y : Z) :
  grid_shape m arr_h arr_w ->
  exists m',
    add_obs m min_x min_y max_x max_y = Return m' /\
    grid_shape m' arr_h arr_w /\
    forall x y, 0 <= x < arr_h -> 0 <= y < arr_w ->
      item m' x y =
      if ((min_x - 3 <=? x) && (x <=? max_x + 3))
         && ((min_y - 3 <=? y) && (y <=? max_y + 3))
      then 1%float else item m x y.
Proof.
  intros Hs. unfold add_obs. rewrite clearance_2. cbn [and_then].
  destruct (add_obs_rows (range (min_x - 1 - 2) (max_x + 2 + 2))
              (range (min_y - 1 - 2) (max_y + 2 + 2)) m Hs)
    as (m' & E & Hs' & Hitem).
  exists m'. split; [exact E|]. split; [exact Hs'|].
  intros x y Hx Hy. rewrite (Hitem x y Hx Hy), !member_range.
  replace (min_x - 1 - 2 <=? x) with (min_x - 3 <=? x)
    by (apply eq_true_iff_eq; rewrite !Z.leb_le; lia).
  replace (x <? max_x + 2 + 2) with (x <=? max_x + 3)
    by (apply eq_true_iff_eq; rewrite Z.leb_le, Z.ltb_lt; lia).
  replace (min_y - 1 - 2 <=? y) with (min_y - 3 <=? y)
    by (apply eq_true_iff_eq; rewrite !Z.leb_le; lia).
  replace (y <? max_y + 2 + 2) with (y <=? max_y + 3)
    by (apply eq_true_iff_eq; rewrite Z.leb_le, Z.ltb_lt; lia).
  reflexivity.
Qed.

Lemma map_shape : grid_shape map arr_h arr_w.
Proof.
  split; [vm_compute; reflexivity|]. split; [|vm_compute; reflexivity].
  apply Forall_forall. intros r Hin.
  assert (H : forallb (fun r => Z.of_nat (length r) =? arr_w) map = true)
    by (vm_compute; reflexivity).
  rewrite forallb_forall in H. apply Z.eqb_eq. now apply H.
Qed.

(** *** Waypoints *)

Lemma and_then_Return {A : Type} (r : result A) : (a <- r ;; Return a) = r.
Proof. now destruct r. Qed.

Lemma transform_all_app (cs ds : list (Z * Z)) :
  transform_all (cs ++ ds) =
  (ws <- transform_all cs ;; vs <- transform_all ds ;; Return (ws ++ vs)).
Proof.
  induction cs as [|c cs IH]; cbn [app transform_all and_then].
  - now rewrite and_then_Return.
  - destruct (array_to_ground_transform c) as [wp|e]; cbn [and_then]; auto.
    rewrite IH. destruct (transform_all cs) as [ws|e]; cbn [and_then]; auto.
    destruct (transform_all ds) as [vs|e]; reflexivity.
Qed.

(** The loop of [generate_waypoints] appends the ground positions of the
    corners of the rest of the path, then that of the goal. *)
Lemma waypoints_loop_corners (path : list (Z * Z))
  (arr_track prev_action : Z * Z) (waypoints : list (float * float)) :
  waypoints_loop path arr_track prev_action waypoints =
  (more <- transform_all (corners path arr_track prev_action ++ [arr_goal]) ;;
   Return (waypoints ++ more)).
Proof.
  revert arr_track prev_action waypoints.
  induction path as [|[delta_x delta_y] path IH];
    intros [x y] prev_action waypoints;
    cbn [waypoints_loop corners app transform_all].
  - destruct (array_to_ground_transform arr_goal); reflexivity.
  - cbn [fst snd].
    destruct (negb (action_eqb (delta_x, delta_y) prev_action));
      cbn [app transform_all and_then].
    + destruct (array_to_ground_transform (x, y)) as [wp|e]; cbn [and_then];
        auto.
      rewrite IH.
      destruct (transform_all _) as [more|e]; cbn [and_then]; auto.
      now rewrite <- app_assoc.
    + apply IH.
Qed.

(** A cell of the map has a ground position, which lies in that cell. *)
Lemma array_to_ground_in_map (c : Z * Z) :
  in_map c ->
  exists g, array_to_ground_transform c = Return g /\
            ground_to_array_transform g = Return c.
Proof.
  destruct c as [x y]. intros [Hx Hy]. cbn [fst snd] in *.
  pose proof (array_round_trip x y Hx Hy) as H.
  destruct (array_to_ground_transform (x, y)) as [g|e]; [|discriminate].
  now exists g.
Qed.

Lemma transform_all_in_map (cs : list (Z * Z)) :
  Forall in_map cs ->
  exists ws, transform_all cs = Return ws /\
             Forall2 (fun c wp => ground_to_array_transform wp = Return c)
                     cs ws.
Proof.
  induction 1 as [|c cs Hc Hcs IH]; cbn [transform_all].
  - exists []. split; [reflexivity|constructor].
  - destruct (array_to_ground_in_map c Hc) as (g & E & Hg).
    destruct IH as (ws & E' & Hws). rewrite E, E'. cbn [and_then].
    exists (g :: ws). split; [reflexivity|]. now constructor.
Qed.

Lemma arr_goal_in_map : in_map arr_goal.
Proof. rewrite arr_goal_6_24. unfold in_map. rewrite arr_h_31, arr_w_31.
  cbn. lia. Qed.

(** *** The headings of the coverage waypoints *)

Lemma mem_range_step (a n id : nat) :
  mem id (range_step a n 4) =
  ((a <=? id)%nat && (id <? n)%nat && Nat.eqb ((id - a) mod 4) 0).
Proof.
  apply eq_true_iff_eq. unfold mem, range_step.
  rewrite existsb_exists, !andb_true_iff.
  rewrite Nat.leb_le, Nat.ltb_lt, Nat.eqb_eq. split.
  - intros [k [Hin Hk]]. apply Nat.eqb_eq in Hk. subst k.
    apply in_map_iff in Hin. destruct Hin as [i [<- Hi]].
    apply in_seq in Hi.
    assert (4 * i + 4 <= n + 4 - 1 - a)%nat.
    { pose proof (Nat.div_mod_eq (n + 4 - 1 - a) 4).
      pose proof (Nat.mod_upper_bound (n + 4 - 1 - a) 4). lia. }
    repeat split; try lia.
    replace (a + 4 * i - a)%nat with (i * 4)%nat by lia.
    apply Nat.Div0.mod_mul.
  - intros [[Ha Hn] Hm]. exists id. split; [|apply Nat.eqb_refl].
    apply in_map_iff. exists ((id - a) / 4)%nat.
    pose proof (Nat.div_mod_eq (id - a) 4) as E. rewrite Hm in E.
    split; [lia|]. apply in_seq. split; [lia|]. cbn [Nat.add].
    apply Nat.Div0.div_lt_upper_bound.
    pose proof (Nat.div_mod_eq (n + 4 - 1 - a) 4).
    pose proof (Nat.mod_upper_bound (n + 4 - 1 - a) 4). lia.
Qed.

Lemma coverage_theta_mod (n id : nat) (theta : float) :
  (id < n)%nat ->
  coverage_theta n id theta =
  match (id mod 4)%nat with
  | 0%nat => 0%float
  | 1%nat | 3%nat => (np_pi / 2)%float
  | _ => np_pi
  end.
Proof.
  intros Hid. unfold coverage_theta. rewrite !mem_range_step.
  pose proof (Nat.mod_upper_bound id 4 ltac:(lia)) as Hm.
  pose proof (Nat.div_mod_eq id 4) as E.
  destruct (id mod 4)%nat as [|[|[|[|r]]]] eqn:Hr; try lia.
  - replace ((id - 0) mod 4)%nat with 0%nat
      by (rewrite Nat.sub_0_r; now rewrite Hr).
    destruct (Nat.ltb_spec id n); [|lia]. reflexivity.
  - assert (H0 : ((id - 0) mod 4 =? 0)%nat = false)
      by (rewrite Nat.sub_0_r, Hr; reflexivity).
    rewrite H0, andb_false_r.
    assert (H1 : ((id - 1) mod 4)%nat = 0%nat).
    { replace (id - 1)%nat with (id / 4 * 4)%nat by lia.
      apply Nat.Div0.mod_mul. }
    rewrite H1. destruct (Nat.leb_spec 1 id); [|lia].
    destruct (Nat.ltb_spec id n); [|lia]. reflexivity.
  - assert (H0 : ((id - 0) mod 4 =? 0)%nat = false)
      by (rewrite Nat.sub_0_r, Hr; reflexivity).
    rewrite H0, andb_false_r.
    assert (H1 : ((id - 1) mod 4)%nat = 1%nat).
    { replace (id - 1)%nat with (1 + id / 4 * 4)%nat by lia.
      rewrite Nat.Div0.mod_add. reflexivity. }
    assert (H3 : (3 <=? id)%nat && (id <? n)%nat
                 && ((id - 3) mod 4 =? 0)%nat = false).
    { destruct (Nat.leb_spec 3 id); [|reflexivity].
      replace (id - 3)%nat with (3 + (id / 4 - 1) * 4)%nat by lia.
      rewrite Nat.Div0.mod_add. now rewrite andb_false_r. }
    assert (H2 : ((id - 2) mod 4)%nat = 0%nat).
    { replace (id - 2)%nat with (id / 4 * 4)%nat by lia.
      apply Nat.Div0.mod_mul. }
    rewrite H1, H3, H2, andb_false_r. cbn [orb].
    destruct (Nat.leb_spec 2 id); [|lia].
    destruct (Nat.ltb_spec id n); [|lia]. reflexivity.
  - assert (H0 : ((id - 0) mod 4 =? 0)%nat = false)
      by (rewrite Nat.sub_0_r, Hr; reflexivity).
    rewrite H0, andb_false_r.
    assert (H1 : ((id - 1) mod 4)%nat = 2%nat).
    { replace (id - 1)%nat with (2 + id / 4 * 4)%nat by lia.
      rewrite Nat.Div0.mod_add. reflexivity. }
    assert (H3 : ((id - 3) mod 4)%nat = 0%nat).
    { replace (id - 3)%nat with (id / 4 * 4)%nat by lia.
      apply Nat.Div0.mod_mul. }
    rewrite H1, H3, andb_false_r. cbn [orb].
    destruct (Nat.leb_spec 3 id); [|lia].
    destruct (Nat.ltb_spec id n); [|lia]. reflexivity.
Qed.

End RoombaFacts.

(** ** Facts about the bearing wrap on binary64 floats *)

Module Wrap64Facts.
#[local] Set Warnings "-inexact-float".
Import PrimFloat.
Import Wrap64.

(** [%] as Python and numpy have it: the sign of the divisor. *)
Lemma remainder_signs :
  (remainder 5.5 2 = 1.5 /\ remainder (-1) 3 = 2 /\
   remainder 1 (-3) = -2 /\ remainder (-7.5) 2 = 0.5)%float.
Proof.
  split; [vm_compute; reflexivity|].
  split; [vm_compute; reflexivity|].
  split; vm_compute; reflexivity.
Qed.

(** A tiny negative remainder is rounded up to the divisor itself. *)
Lemma remainder_of_divisor :
  remainder (below_minus_pi + Roomba.np_pi) (2 * Roomba.np_pi)
  = (2 * Roomba.np_pi)%float.
Proof. vm_compute. reflexivity. Qed.

Lemma wrap_f64_pi : delta_z_bearing Roomba.np_pi 0 = (- Roomba.np_pi)%float.
Proof. vm_compute. reflexivity. Qed.

Lemma wrap_f64_below_minus_pi :
  delta_z_bearing below_minus_pi 0 = Roomba.np_pi.
Proof. vm_compute. reflexivity. Qed.

(** Between the ends the wrap leaves a difference as it is. *)
Lemma wrap_f64_inside :
  (wrap_bearing_f64 1 = 1 /\ wrap_bearing_f64 (-1) = -1)%float.
Proof. split; vm_compute; reflexivity. Qed.

End Wrap64Facts.

(** ** The claims of the specification *)

Module Claims.
Import Np NpFacts Ekf EkfFacts Scenario ScenarioFacts.


(** C2, evaluated where it fails.  The repository's estimator, after
    predict, a first sight of tag 7 and predict, holds the belief [s3]
    with pose x = 0.61.  The batch of tag 7 seen at range 2 and of the
    new tag 8 seen at range 1: the correction for tag 7 alone moves the
    pose estimate x to [get mu4 0 0]; yet the batch ends with tag 8 at
    x = 1.61, the pose at entry plus 1, not the pose after the first
    correction plus 1. *)
Theorem C2_pose_read_at_entry :
  run s0 [Predict (0, 0, 0); Update [(0, 1, 7%Z)]; Predict (0, 0, 0)]
  = Ok s3 /\
  update_EKF s3 [(0, 2, 7%Z)] = Ok s4 /\
  get (mu s4) 0 0 <> get (mu s3) 0 0 /\
  exists cov5,
    update_EKF s3 [(0, 2, 7%Z); (0, 1, 8%Z)] =
    Ok (mkEKF vs vn mu4r cov5 [7%Z; 8%Z]) /\
    get mu4r 5 0 =
    get (mu s3) 0 0 + norm [0; 1] * cos (atan2 0 1 + get (mu s3) 2 0) /\
    get mu4r 5 0 <>
    get (mu s4) 0 0 + norm [0; 1] * cos (atan2 0 1 + get (mu s4) 2 0).
Proof.
  split; [apply run_s0|]. split; [apply update_s3_one|].
  split; [rcbn; lra|].
  destruct update_s3_two as [cov5 H5]. exists cov5.
  split; [exact H5|].
  rewrite norm_0_1, atan2_0_pos by lra.
  change (get (mu s3) 2 0) with 0. change (get (mu s4) 2 0) with 0.
  rewrite Rplus_0_l, cos_0. rcbn. split; lra.
Qed.

(** C3, as the code has it: a batch of one observation of a registered
    landmark [j], with q nonzero and S invertible ([Sinv] its inverse): the
    call returns mu' = mu + K dz and cov' = (I - K H) cov, with delta, q,
    z~, Fxj, J, H = J Fxj, Rt, S and K = cov H^T S^-1 as the specification
    defines them, and dz = (r, phi) - z~ with the bearing component
    wrapped by line 174.  That component is the one the specification
    asks for, the difference wrapped into (-pi, pi], unless the difference
    is an odd multiple of pi: there the specification has pi and the code
    uses - pi. *)
Theorem C3_single_observation (self : EKF_vSLAM) (px py : R) (tagID : Z)
  (j : nat) (Sinv : matrix) :
  let r := norm [px; py] in
  let phi := atan2 px py in
  let var_r := fst (var_Sensor_noise self) in
  let var_phi := snd (var_Sensor_noise self) in
  let d := phi - Spec.z_tilde_phi (mu self) j in
  let returns := fun mu' =>
    update_EKF self [(px, py, tagID)] =
    Ok {| var_System_noise := var_System_noise self;
          var_Sensor_noise := var_Sensor_noise self;
          mu := mu';
          cov := Spec.cov' (mu self) (cov self) j Sinv;
          observed := observed self |} in
  well_shaped self ->
  index tagID (observed self) = Some j ->
  Spec.q (mu self) j <> 0 ->
  has_shape Sinv 2 2 ->
  dot (Spec.S (mu self) (cov self) j var_r var_phi) Sinv = eye 2 ->
  (Spec.wrap d <> PI ->
   returns (Spec.mu' (mu self) (cov self) j r phi Sinv)) /\
  (Spec.wrap d = PI ->
   returns (Spec.mu_at (mu self) (cov self) j r (- PI) Sinv)).
Proof.
  intros r phi var_r var_phi d returns Hs Hj Hq HSi Hinv.
  pose proof (update_EKF_single self px py tagID j Sinv Hs Hj Hq HSi Hinv)
    as E.
  fold r phi d in E. unfold returns, Spec.mu'. fold d. split; intros Hw.
  - now rewrite <- (wrap_bearing_spec d Hw).
  - now rewrite <- (wrap_bearing_spec_PI d Hw).
Qed.

(** C3 at the belief [s3] and tag 7 seen at range 2 straight ahead. *)
Lemma C3_witness :
  update_EKF s3 [(0, 2, 7%Z)] =
  Ok {| var_System_noise := vs;
        var_Sensor_noise := vn;
        mu := Spec.mu' (mu s3) (cov s3) 0 (norm [0; 2]) (atan2 0 2) Sinv_b;
        cov := Spec.cov' (mu s3) (cov s3) 0 Sinv_b;
        observed := [7%Z] |}.
Proof.
  destruct s3_single_observation as (Hs & Hj & Hq & HSi & Hinv).
  apply (C3_single_observation s3 0 2 7 0 Sinv_b Hs Hj Hq HSi Hinv).
  rewrite atan2_0_pos, spec_z_tilde_phi_s3 by lra.
  rewrite spec_wrap_small; pose proof PI_RGT_0; lra.
Defined.

(** C3 as stated fails at the belief [s3] when tag 7 is seen at range 2
    straight behind: the bearing difference is pi, the wrap into
    (-pi, pi] keeps it, and the call returns another mean than
    mu + K dz for that dz. *)
Lemma C3_counterexample :
  (well_shaped s3 /\ index 7 (observed s3) = Some 0%nat /\
   Spec.q (mu s3) 0 <> 0 /\ has_shape Sinv_b 2 2 /\
   dot (Spec.S (mu s3) (cov s3) 0 (fst (var_Sensor_noise s3))
          (snd (var_Sensor_noise s3))) Sinv_b = eye 2) /\
  update_EKF s3 [(0, -2, 7%Z)] <>
  Ok {| var_System_noise := vs;
        var_Sensor_noise := vn;
        mu := Spec.mu' (mu s3) (cov s3) 0 (norm [0; -2]) (atan2 0 (-2))
                Sinv_b;
        cov := Spec.cov' (mu s3) (cov s3) 0 Sinv_b;
        observed := [7%Z] |}.
Proof.
  split; [exact s3_single_observation|].
  destruct s3_single_observation as (Hs & Hj & Hq & HSi & Hinv).
  rewrite (update_EKF_single s3 0 (-2) 7 0 Sinv_b Hs Hj Hq HSi Hinv).
  unfold Spec.mu'.
  rewrite atan2_0_neg, spec_z_tilde_phi_s3 by lra.
  replace (PI - 0) with PI by lra.
  rewrite wrap_bearing_PI.
  rewrite (spec_wrap_small PI) by (pose proof PI_RGT_0; lra).
  intros E.
  apply (f_equal (fun o => match o with
                           | Ok self' => get (mu self') 2 0
                           | _ => 0
                           end)) in E.
  cbn [mu] in E.
  unfold Spec.mu_at, Spec.innovation in E. rewrite spec_K_s3 in E.
  revert E. rcbn. pose proof PI_RGT_0. lra.
Qed.

(** C4, evaluated where it fails: in the same batch, when the loop meets
    the new tag 8 the belief is [s4], and lines 115-126 append the
    identifier at index M = 1 and grow [cov] by the block diag(1e6, 1e6)
    with zero cross terms, but append to [mu] the position computed from
    the pose read at line 100, before the batch, not from the pose
    estimate in [mu] at that moment. *)
Theorem C4_registration_pose :
  let x := get (mu s3) 0 0 in
  let y := get (mu s3) 1 0 in
  let theta := get (mu s3) 2 0 in
  let r := norm [0; 1] in
  let phi := atan2 0 1 in
  update_steps x y theta 0.01 0.01 (s3, length (mu s3)) [(0, 2, 7%Z)]
  = Ok (s4, 5%nat) /\
  resolve x y theta r phi 8 (s4, 5%nat) = (s4r, 7%nat) /\
  index 8 (observed s4r) = Some (length (observed s4)) /\
  mu s4r =
  mu s4 ++ [[x + r * cos (phi + theta)]; [y + r * sin (phi + theta)]] /\
  cov s4r = block (cov s4) (zeros 5 2) (zeros 2 5) (diag [1e6; 1e6]) /\
  get (mu s4r) 5 0 <>
  get (mu s4) 0 0 + r * cos (phi + get (mu s4) 2 0).
Proof.
  cbv zeta. rewrite norm_0_1, atan2_0_pos by lra.
  change (get (mu s3) 0 0) with (61 / 100).
  change (get (mu s3) 1 0) with (61 / 100).
  change (get (mu s3) 2 0) with 0.
  change (get (mu s4) 2 0) with 0.
  change (length (mu s3)) with 5%nat.
  split; [cbn [update_steps]; now rewrite step_s3|].
  split; [apply resolve_s4|].
  split; [reflexivity|].
  rewrite Rplus_0_l, cos_0, sin_0.
  split; [unfold s4r, s4; mat_eq|]. split; [unfold s4r, s4; mat_eq|].
  unfold s4r, s4. rcbn. lra.
Qed.

(** C5: [predict_EKF] adds the control to the three pose entries of [mu],
    adds the process-noise variances to the entries (0,0), (1,1), (2,2) of
    [cov], and changes nothing else: no landmark entry of [mu], no other
    entry of [cov], not the registry. *)
Theorem C5_predict_frame (self : EKF_vSLAM) (vx vy w : R) :
  well_shaped self ->
  let self' := predict_EKF self (vx, vy, w) in
  let n := dim self in
  has_shape (mu self') n 1 /\ has_shape (cov self') n n /\
  observed self' = observed self /\
  get (mu self') 0 0 = get (mu self) 0 0 + vx /\
  get (mu self') 1 0 = get (mu self) 1 0 + vy /\
  get (mu self') 2 0 = get (mu self) 2 0 + w /\
  (forall i, (3 <= i < n)%nat -> get (mu self') i 0 = get (mu self) i 0) /\
  get (cov self') 0 0 = get (cov self) 0 0 + fst (var_System_noise self) /\
  get (cov self') 1 1 = get (cov self) 1 1 + fst (var_System_noise self) /\
  get (cov self') 2 2 = get (cov self) 2 2 + snd (var_System_noise self) /\
  (forall i j, (i < n)%nat -> (j < n)%nat -> (i <> j \/ 3 <= i)%nat ->
     get (cov self') i j = get (cov self) i j).
Proof.
  intros [Hmu Hcov] self' n.
  assert (Hn : (3 <= n)%nat) by (unfold n, dim; lia).
  assert (Hc : forall i j, (i < n)%nat -> (j < n)%nat ->
    get (cov self') i j =
    get (cov self) i j +
    if Nat.eqb i j
    then match i with
         | 0%nat => fst (var_System_noise self)
         | 1%nat => fst (var_System_noise self)
         | 2%nat => snd (var_System_noise self)
         | _ => 0
         end
    else 0).
  { intros i j Hi Hj. unfold self'.
    rewrite (predict_EKF_cov self n Hmu Hcov Hn).
    rewrite (get_add _ _ n n); auto. now rewrite get_pose_diag. }
  split; [now apply predict_EKF_shape_mu|].
  split; [now apply predict_EKF_shape_cov|].
  split; [reflexivity|].
  split; [apply (predict_EKF_mu self n Hmu Hn vx vy w 0); lia|].
  split; [apply (predict_EKF_mu self n Hmu Hn vx vy w 1); lia|].
  split; [apply (predict_EKF_mu self n Hmu Hn vx vy w 2); lia|].
  split.
  { intros i Hi. unfold self'.
    rewrite (predict_EKF_mu self n Hmu Hn vx vy w i) by lia.
    destruct i as [|[|[|i]]]; try lia. lra. }
  split; [apply (Hc 0%nat 0%nat); lia|].
  split; [apply (Hc 1%nat 1%nat); lia|].
  split; [apply (Hc 2%nat 2%nat); lia|].
  intros i j Hi Hj Hij. rewrite Hc by auto.
  destruct (Nat.eqb_spec i j) as [->|]; [|lra].
  destruct j as [|[|[|j]]]; try lia. lra.
Qed.

(** C5 at the belief [s3], which holds one landmark. *)
Lemma C5_witness :
  get (mu (predict_EKF s3 (0.1, 0.2, 0.3))) 0 0 = get (mu s3) 0 0 + 0.1 /\
  get (mu (predict_EKF s3 (0.1, 0.2, 0.3))) 3 0 = get (mu s3) 3 0 /\
  get (cov (predict_EKF s3 (0.1, 0.2, 0.3))) 2 2 = get (cov s3) 2 2 + 0.01 /\
  get (cov (predict_EKF s3 (0.1, 0.2, 0.3))) 3 4 = get (cov s3) 3 4.
Proof.
  assert (Hs : well_shaped s3) by (split; shape_lit).
  destruct (C5_predict_frame s3 0.1 0.2 0.3 Hs)
    as (_ & _ & _ & H0 & _ & _ & Hl & _ & _ & H22 & Hrest).
  split; [exact H0|]. split; [apply Hl; cbn; lia|].
  split; [exact H22|]. apply Hrest; cbn; lia.
Defined.

(** C6, as the code has it.  In exact arithmetic the wrapped bearing
    component of the innovation lies in [-pi, pi), the lower end included
    and the upper one excluded, and adding whole turns to the measured or
    to the predicted bearing does not change it.  In binary64, as line 174
    runs, both ends occur: the difference np.pi wraps to - np.pi, and the
    float next below - np.pi wraps to np.pi, because [%] rounds its
    result there to the divisor 2 np.pi itself. *)
Theorem C6_bearing_wrap (r z_r a b : R) (k m : Z) :
  let wrapped := fun a b => get (delta_z_of r a [[z_r]; [b]]) 1 0 in
  (- PI <= wrapped a b < PI /\
   wrapped (a + IZR k * (2 * PI)) (b + IZR m * (2 * PI)) = wrapped a b) /\
  Wrap64.delta_z_bearing Roomba.np_pi PrimFloat.zero
  = PrimFloat.opp Roomba.np_pi /\
  Wrap64.remainder (PrimFloat.add Wrap64.below_minus_pi Roomba.np_pi)
                   (PrimFloat.mul PrimFloat.two Roomba.np_pi)
  = PrimFloat.mul PrimFloat.two Roomba.np_pi /\
  Wrap64.delta_z_bearing Wrap64.below_minus_pi PrimFloat.zero
  = Roomba.np_pi.
Proof.
  assert (E : forall a b,
    get (delta_z_of r a [[z_r]; [b]]) 1 0 = wrap_bearing (a - b))
    by reflexivity.
  cbv beta zeta. rewrite !E. split; [split|].
  - apply wrap_bearing_range.
  - replace (a + IZR k * (2 * PI) - (b + IZR m * (2 * PI)))
      with (a - b + IZR (k - m) * (2 * PI)) by (rewrite minus_IZR; lra).
    apply wrap_bearing_period.
  - split; [exact Wrap64Facts.wrap_f64_pi|].
    split; [exact Wrap64Facts.remainder_of_divisor|].
    exact Wrap64Facts.wrap_f64_below_minus_pi.
Qed.

(** C6 as stated fails at the measured bearing pi against the predicted
    bearing 0: the wrapped difference is -pi, outside (-pi, pi]. *)
Lemma C6_counterexample :
  ~ (- PI < get (delta_z_of 1 PI [[1]; [0]]) 1 0 <= PI).
Proof.
  change (get (delta_z_of 1 PI [[1]; [0]]) 1 0) with (wrap_bearing (PI - 0)).
  replace (PI - 0) with PI by lra. rewrite wrap_bearing_PI. lra.
Qed.

(** C7, as the code has it: nothing guards the correction.  When S is
    singular for an observation of the batch, [numpy.linalg.inv] raises
    [LinAlgError] out of [update_EKF]: the corrections of the observations
    before it and its own registration stay applied to the object, the
    observations after it are not processed and nothing is returned.  When
    q = 0 no exception is raised either: the method divides by zero and
    goes on with values that are not finite. *)
Theorem C7_unguarded_correction (self : EKF_vSLAM)
  (pre rest : list (R * R * Z)) (px py : R) (tagID : Z)
  (st1 : EKF_vSLAM * nat) (j : nat) :
  let x := get (mu self) 0 0 in
  let y := get (mu self) 1 0 in
  let theta := get (mu self) 2 0 in
  let var_r := fst (var_Sensor_noise self) in
  let var_phi := snd (var_Sensor_noise self) in
  let st2 := resolve x y theta (norm [px; py]) (atan2 px py) tagID st1 in
  let idx := (3 + 2 * j)%nat in
  let S := S_of (H_of x y (mu (fst st2)) (snd st2) idx) (cov (fst st2))
                var_r var_phi in
  update_steps x y theta var_r var_phi (self, length (mu self)) pre = Ok st1 ->
  index tagID (observed (fst st2)) = Some j ->
  (q_of (delta_of x y (mu (fst st2)) idx) <> 0 -> det2 S = 0 ->
   update_EKF self (pre ++ (px, py, tagID) :: rest) =
   Raised LinAlgError (fst st2)) /\
  (q_of (delta_of x y (mu (fst st2)) idx) = 0 ->
   update_EKF self (pre ++ (px, py, tagID) :: rest) = NonFinite (fst st2)).
Proof.
  intros x y theta var_r var_phi st2 idx S Hpre Hj.
  assert (E : update_EKF self (pre ++ (px, py, tagID) :: rest) =
              (st' <- correct x y theta var_r var_phi (norm [px; py])
                        (atan2 px py) tagID (fst st2) (snd st2) ;;
               update_loop x y theta var_r var_phi st' rest)).
  { rewrite update_EKF_unfold. fold x y theta var_r var_phi.
    rewrite update_loop_app, Hpre. reflexivity. }
  rewrite E. split.
  - intros Hq HS. now rewrite (correct_raises _ _ _ _ _ _ _ _ _ _ j).
  - intros Hq. now rewrite (correct_divides_by_zero _ _ _ _ _ _ _ _ _ _ j).
Qed.

(** C7 as stated fails.  With zero noise, a first observation of tag 7
    leaves the zero covariance [cov z1]; at the second one S is singular
    and the call ends in the exception, not in a return that skips the
    observation.  A tag seen at offset (0, 0) gives q = 0, and the call
    ends in the division by zero. *)
Lemma C7_counterexample :
  run z0 [Update [(0, 1, 7%Z)]] = Ok z1 /\
  det2 (S_of (H_of (61 / 100) (61 / 100) (mu z1) 5 3) (cov z1) 0 0) = 0 /\
  update_EKF z1 [(0, 1, 7%Z)] = Raised LinAlgError z1 /\
  (forall self', update_EKF z1 [(0, 1, 7%Z)] <> Ok self') /\
  update_EKF z0 [(0, 0, 7%Z)] = NonFinite z0q /\
  (forall self', update_EKF z0 [(0, 0, 7%Z)] <> Ok self').
Proof.
  split; [cbn [run do_call bind]; now rewrite update_z0|].
  split; [apply S_z1_singular|].
  split; [apply update_z1_raises|].
  split; [intros self'; rewrite update_z1_raises; discriminate|].
  split; [apply update_z0_at_pose|].
  intros self'. rewrite update_z0_at_pose. discriminate.
Qed.

(** C7 at the zero-noise belief [z1] and the batch of tag 8 (new), tag 7
    (singular S) and tag 9: the call raises with tag 8 registered and
    corrected, and tag 9 is never looked at. *)
Lemma C7_witness :
  update_EKF z1 [(0, 1, 8%Z); (0, 1, 7%Z); (0, 3, 9%Z)] =
  Raised LinAlgError z2.
Proof.
  refine (proj1 (C7_unguarded_correction z1 [(0, 1, 8%Z)] [(0, 3, 9%Z)]
                   0 1 7 (z2, 7%nat) 0 steps_z1 eq_refl) _ _).
  - change (q_of (delta_of (61 / 100) (61 / 100) (mu z2) 3) <> 0).
    replace (delta_of (61 / 100) (61 / 100) (mu z2) 3) with [[1]; [0]]
      by (unfold delta_of; mat_eq).
    rewrite q_of_col. lra.
  - exact S_z2_singular.
Defined.

(** C8: once a tag is in the registry at index [j], an observation of it
    (in whatever batch, with whatever pose locals and offsets) grows
    neither the registry nor [mu] nor [cov], and neither an observation of
    any tag nor any later sequence of calls changes its index [j]. *)
Theorem C8_registered_once (self : EKF_vSLAM) (tagID : Z) (j : nat) :
  well_formed self ->
  index tagID (observed self) = Some j ->
  (forall x y theta var_r var_phi px py,
     let self' := state_of fst (update_step x y theta var_r var_phi
                                  (self, dim self) (px, py, tagID)) in
     observed self' = observed self /\
     has_shape (mu self') (dim self) 1 /\
     has_shape (cov self') (dim self) (dim self)) /\
  (forall x y theta var_r var_phi ob,
     index tagID
       (observed (state_of fst (update_step x y theta var_r var_phi
                                  (self, dim self) ob))) = Some j) /\
  (forall calls, index tagID (observed (final (run self calls))) = Some j).
Proof.
  intros Hwf Hj. split; [|split].
  - intros x y theta var_r var_phi px py self'.
    assert (Hc : contains tagID (observed self) = true)
      by now apply (index_contains _ _ j).
    unfold self', update_step, resolve. cbn [fst snd]. rewrite Hc.
    cbn [negb fst snd].
    destruct (correct_state x y theta var_r var_phi (norm [px; py])
                (atan2 px py) tagID self Hwf) as [[[Hmu Hcov] _] [Hobs _]].
    cbv zeta in Hmu, Hcov, Hobs.
    assert (Hd : dim (state_of fst
                        (correct x y theta var_r var_phi (norm [px; py])
                           (atan2 px py) tagID self (dim self))) = dim self)
      by (unfold dim at 1 3; now rewrite Hobs).
    rewrite Hd in Hmu, Hcov. auto.
  - intros x y theta var_r var_phi ob.
    destruct (update_step_state x y theta var_r var_phi (self, dim self) ob)
      as [_ [[more Hm] _]]; [now split|].
    cbn [fst] in Hm. rewrite Hm. now apply index_app_old.
  - intros calls. destruct (run_state calls self Hwf) as [_ [more Hm]].
    rewrite Hm. now apply index_app_old.
Qed.

(** C8 at the belief [s3], where tag 7 has index 0: a batch that sees
    tag 7 again and then the new tag 8 keeps tag 7 at index 0, and seeing
    tag 7 again keeps the five rows of [mu]. *)
Lemma C8_witness :
  index 7 (observed (final (run s3 [Update [(0, 2, 7%Z); (0, 1, 8%Z)]])))
  = Some 0%nat /\
  has_shape
    (mu (state_of fst (update_step 0 0 0 0.01 0.01 (s3, dim s3)
                         (0, 2, 7%Z)))) 5 1.
Proof.
  destruct (C8_registered_once s3 7 0 s3_well_formed eq_refl)
    as [H1 [_ H3]].
  split; [apply H3|]. apply (H1 0 0 0 0.01 0.01 0 2).
Defined.

(** C9, as the code has it: after construction, [predict_EKF((0,0,0))]
    yields mu = [0.61, 0.61, 0.0] and cov = diag(v, v, w) for the process
    noise variances (v, w); that is the zero matrix only when both are 0. *)
Theorem C9_predict_after_init (vs vn : R * R) :
  let self := predict_EKF (init vs vn) (0, 0, 0) in
  mu self = [[0.61]; [0.61]; [0.0]] /\
  cov self = diag [fst vs; fst vs; snd vs] /\
  (cov self = zeros 3 3 <-> fst vs = 0 /\ snd vs = 0).
Proof.
  assert (Hmu : mu (predict_EKF (init vs vn) (0, 0, 0)) =
                [[0.61]; [0.61]; [0.0]]).
  { unfold predict_EKF, init. rcbn. rows; lra. }
  assert (Hcov : cov (predict_EKF (init vs vn) (0, 0, 0)) =
                 diag [fst vs; fst vs; snd vs]).
  { unfold predict_EKF, init. rcbn. rows; lra. }
  cbv zeta. split; [exact Hmu|]. split; [exact Hcov|].
  rewrite Hcov. rcbn. split.
  - intros [= H1 _ H2]. auto.
  - intros [-> ->]. reflexivity.
Qed.

(** C9 as stated fails for the variances the repository constructs the
    estimator with, [0.1, 0.01]: cov is not zero after the call. *)
Lemma C9_counterexample :
  let self := predict_EKF (init (0.1, 0.01) (0.01, 0.01)) (0, 0, 0) in
  ~ (mu self = [[0.61]; [0.61]; [0.0]] /\ cov self = zeros 3 3).
Proof.
  cbv zeta. intros [_ H].
  assert (E : get (cov (predict_EKF (init (0.1, 0.01) (0.01, 0.01)) (0, 0, 0)))
                  0 0 = 0) by (rewrite H; reflexivity).
  revert E. unfold predict_EKF, init. rcbn. lra.
Qed.

(** C10: on an empty batch [update_EKF] returns, and the object (its mean,
    covariance and registry) is what it was. *)
Theorem C10_update_empty_batch (self : EKF_vSLAM) :
  update_EKF self [] = Ok self.
Proof.
  unfold update_EKF. destruct (var_Sensor_noise self). reflexivity.
Qed.

(** *** Further properties of the code *)

(** X1: registration in full (lines 115-126), for whatever pose locals the
    loop holds: the tag goes to index M, [mu] gets the two coordinates
    x + r cos(phi + theta), y + r sin(phi + theta), and [cov] keeps its
    entries and gets the block diag(1e6, 1e6) with zero cross terms. *)
Theorem X1_registration (self : EKF_vSLAM) (x y theta r phi : R)
  (tagID : Z) :
  well_shaped self ->
  contains tagID (observed self) = false ->
  let self' := fst (register x y theta r phi tagID self) in
  let n := dim self in
  observed self' = observed self ++ [tagID] /\
  index tagID (observed self') = Some (length (observed self)) /\
  mu self' =
  mu self ++ [[x + r * cos (phi + theta)]; [y + r * sin (phi + theta)]] /\
  has_shape (cov self') (n + 2) (n + 2) /\
  (forall i j, (i < n)%nat -> (j < n)%nat ->
     get (cov self') i j = get (cov self) i j) /\
  (forall k l, (k < 2)%nat -> (l < 2)%nat ->
     get (cov self') (n + k) (n + l) = if Nat.eqb k l then 1e6 else 0) /\
  (forall i k, (i < n)%nat -> (k < 2)%nat ->
     get (cov self') i (n + k) = 0 /\ get (cov self') (n + k) i = 0).
Proof.
  intros Hsh Hc self' n. pose proof Hsh as [Hmu Hcov].
  assert (Hn : (0 < n)%nat) by (unfold n, dim; lia).
  assert (Hz1 : has_shape (zeros n 2) n 2) by now apply shape_zeros.
  assert (Hz2 : has_shape (zeros 2 n) 2 n) by (apply shape_zeros; lia).
  pose proof (shape_diag2 1e6 1e6) as Hd.
  assert (Hcov' : cov self' =
                  block (cov self) (zeros n 2) (zeros 2 n) (diag [1e6; 1e6]))
    by now apply register_cov.
  split; [reflexivity|].
  split; [unfold self'; rewrite register_observed; now apply index_app_new|].
  split; [reflexivity|].
  split; [rewrite Hcov'; now apply shape_block|].
  split; [|split].
  - intros i j Hi Hj. rewrite Hcov'.
    rewrite (get_block _ _ _ _ n n 2 2); auto; try lia.
    destruct (Nat.ltb_spec i n), (Nat.ltb_spec j n); try lia. reflexivity.
  - intros k l Hk Hl. rewrite Hcov'.
    rewrite (get_block _ _ _ _ n n 2 2); auto; try lia.
    destruct (Nat.ltb_spec (n + k) n), (Nat.ltb_spec (n + l) n); try lia.
    replace (n + k - n)%nat with k by lia.
    replace (n + l - n)%nat with l by lia.
    destruct k as [|[|k]], l as [|[|l]]; try lia; reflexivity.
  - intros i k Hi Hk. rewrite Hcov'.
    rewrite !(get_block _ _ _ _ n n 2 2); auto; try lia.
    destruct (Nat.ltb_spec i n), (Nat.ltb_spec (n + k) n); try lia.
    split; apply get_zeros; lia.
Qed.

(** X1 at the belief [s4] and the new tag 8. *)
Lemma X1_witness :
  index 8 (observed (fst (register 0.61 0.61 0 1 0 8 s4))) = Some 1%nat /\
  get (cov (fst (register 0.61 0.61 0 1 0 8 s4))) 5 5 = 1e6 /\
  get (cov (fst (register 0.61 0.61 0 1 0 8 s4))) 0 5 = 0.
Proof.
  assert (Hs : well_shaped s4) by (split; shape_lit).
  destruct (X1_registration s4 0.61 0.61 0 1 0 8 Hs eq_refl)
    as (_ & Hi & _ & _ & _ & Hb & Hx).
  split; [exact Hi|]. split.
  - apply (Hb 0%nat 0%nat); lia.
  - apply (Hx 0%nat 0%nat); cbn; lia.
Defined.

(** X2: the registry is append-only: over any sequence of calls the list
    [observed] only grows, at its end; M never shrinks. *)
Theorem X2_registry_append_only (self : EKF_vSLAM) (calls : list call) :
  well_formed self ->
  exists more,
    observed (final (run self calls)) = observed self ++ more.
Proof. intros Hwf. now destruct (run_state calls self Hwf) as [_ H]. Qed.

(** X2 at the new estimator, a prediction and a first sight of tag 7. *)
Lemma X2_witness :
  exists more,
    observed (final (run s0 [Predict (0, 0, 0); Update [(0, 1, 7%Z)]]))
    = observed s0 ++ more.
Proof.
  apply (X2_registry_append_only s0
           [Predict (0, 0, 0); Update [(0, 1, 7%Z)]]).
  apply init_well_formed.
Defined.

(** X3: the only exception [update_EKF] can raise is [LinAlgError]: the
    lookup [self.observed.index(tagID)] of line 128 always finds the
    tag. *)
Theorem X3_only_LinAlgError (self : EKF_vSLAM)
  (landmarks : list (R * R * Z)) :
  match update_EKF self landmarks with
  | Raised e _ => e = LinAlgError
  | _ => True
  end.
Proof.
  destruct (update_EKF self landmarks) as [s|e s|s] eqn:E; auto.
  rewrite update_EKF_unfold in E. now apply update_loop_exn in E.
Qed.

(** X4: the invariant of the belief is kept from any well-formed belief,
    not only from the constructor's: after any calls that end in a return or in an
    exception the belief is well formed. *)
Theorem X4_invariant_preserved (self : EKF_vSLAM) (calls : list call) :
  well_formed self ->
  match run self calls with
  | Ok self' | Raised _ self' => well_formed self'
  | NonFinite _ => True
  end.
Proof.
  intros Hwf. destruct (run_state calls self Hwf) as [H _].
  destruct (run self calls); cbn [final state_of] in H; auto.
Qed.

(** X4 at the belief [s3] and one more sight of tag 7. *)
Lemma X4_witness : well_formed s4.
Proof.
  pose proof (X4_invariant_preserved s3 [Update [(0, 2, 7%Z)]]
                s3_well_formed) as H.
  cbn [run do_call bind] in H. rewrite update_s3_one in H. exact H.
Defined.

End Claims.

(** ** Further properties of the estimator and of the loop around it *)

Module More.
Import Np NpFacts Ekf EkfFacts Scenario ScenarioFacts.
Import Belief TrigFacts RunFacts PsdFacts BeliefFacts Loop LoopFacts.

Lemma s1_belief : belief_ok s1.
Proof.
  rewrite <- predict_s0.
  apply predict_EKF_belief; [apply init_belief| |]; cbn; lra.
Qed.

Lemma s0_noise : noise_ok s0.
Proof. unfold noise_ok, noise_nonneg. cbn. lra. Qed.

Lemma s3_belief : belief_ok s3.
Proof.
  pose proof (run_belief
                [Predict (0, 0, 0); Update [(0, 1, 7%Z)]; Predict (0, 0, 0)]
                s0 (init_belief vs vn) (proj1 s0_noise)) as [H _].
  now rewrite run_s0 in H.
Qed.

(** X5: a batch of first sightings leaves the pose where the prediction
    put it.  When every tag of the batch is new, no tag occurs twice in it
    and no observation is the point (0, 0), [update_EKF] returns; the mean
    is the old mean followed by the landmarks, each placed from the pose
    read at entry, and the registry is extended by the tags in order. *)
Theorem X5_first_sightings_keep_pose (self : EKF_vSLAM)
  (landmarks : list (R * R * Z)) :
  let x := get (mu self) 0 0 in
  let y := get (mu self) 1 0 in
  let theta := get (mu self) 2 0 in
  belief_ok self ->
  0 < fst (var_Sensor_noise self) -> 0 < snd (var_Sensor_noise self) ->
  NoDup (map snd landmarks) ->
  (forall t, In t (map snd landmarks) -> ~ In t (observed self)) ->
  Forall off_origin landmarks ->
  exists self',
    update_EKF self landmarks = Ok self' /\
    mu self' = mu self ++ flat_map (landmark_at x y theta) landmarks /\
    observed self' = observed self ++ map snd landmarks.
Proof. intros x y theta. now apply first_sightings_update. Qed.

(** X5 at the belief [s1] and a first sight of tag 7, one metre ahead. *)
Lemma X5_witness :
  exists self',
    update_EKF s1 [(0, 1, 7%Z)] = Ok self' /\
    mu self' =
    mu s1 ++ flat_map (landmark_at (get (mu s1) 0 0) (get (mu s1) 1 0)
                         (get (mu s1) 2 0)) [(0, 1, 7%Z)] /\
    observed self' = observed s1 ++ map snd [(0, 1, 7%Z)].
Proof.
  apply (X5_first_sightings_keep_pose s1 [(0, 1, 7%Z)]).
  - apply s1_belief.
  - cbn. lra.
  - cbn. lra.
  - repeat constructor. intros [].
  - intros t _ [].
  - constructor; [|constructor]. right. cbn. lra.
Defined.

(** X6: the registry never holds a tag twice: from a registry without
    duplicates, every sequence of calls, however it ends, leaves one
    without duplicates. *)
Theorem X6_registry_no_duplicates (self : EKF_vSLAM) (calls : list call) :
  NoDup (observed self) -> NoDup (observed (final (run self calls))).
Proof. apply run_NoDup. Qed.

(** X6 at the new estimator, a prediction and two sights of tag 7 in one
    batch. *)
Lemma X6_witness :
  NoDup (observed (final (run s0 [Predict (0, 0, 0);
                                  Update [(0, 1, 7%Z); (0, 2, 7%Z)]]))).
Proof.
  apply (X6_registry_no_duplicates s0). constructor.
Defined.

(** X7: after an [update_EKF] that returns, the registry holds exactly the
    tags it held before and the tags of the batch. *)
Theorem X7_registry_after_update (self self' : EKF_vSLAM)
  (landmarks : list (R * R * Z)) :
  update_EKF self landmarks = Ok self' ->
  forall t, In t (observed self') <->
            In t (observed self) \/ In t (map snd landmarks).
Proof. intros E. now apply (proj2 (update_EKF_registry self landmarks)). Qed.

(** X7 at the belief [s1] and a first sight of tag 7. *)
Lemma X7_witness :
  In 7%Z (observed s2) <->
  In 7%Z (observed s1) \/ In 7%Z (map snd [(0, 1, 7%Z)]).
Proof.
  apply (X7_registry_after_update s1 s2 [(0, 1, 7%Z)]). apply update_s1.
Defined.

(** X8: no call writes the noise variances: however a sequence of calls
    ends, [var_System_noise] and [var_Sensor_noise] are the constructor's
    arguments. *)
Theorem X8_noise_never_written (self : EKF_vSLAM) (calls : list call) :
  var_System_noise (final (run self calls)) = var_System_noise self /\
  var_Sensor_noise (final (run self calls)) = var_Sensor_noise self.
Proof. apply run_noise. Qed.

(** X9: predictions in a row add up.  After the controls [us] the pose is
    the old pose plus their sum, the landmarks have not moved, the
    covariance has grown by [length us] times [Qt] on the pose diagonal and
    nowhere else, and the registry is the same. *)
Theorem X9_predictions_accumulate (self : EKF_vSLAM)
  (us : list (R * R * R)) :
  well_shaped self ->
  exists self',
    run self (map Predict us) = Ok self' /\
    well_shaped self' /\ observed self' = observed self /\
    (forall i, (i < dim self)%nat ->
       get (mu self') i 0 = get (mu self) i 0 + control_sum us i) /\
    (forall i j, (i < dim self)%nat -> (j < dim self)%nat ->
       get (cov self') i j =
       get (cov self) i j + INR (length us) * pose_noise self i j).
Proof.
  intros Hsh. exists (fold_left predict_EKF us self).
  split; [apply run_predicts|].
  destruct (predicts_accumulate us self Hsh) as (H1 & H2 & _ & H4 & H5).
  auto.
Qed.

(** X9 at the new estimator and two controls. *)
Lemma X9_witness :
  exists self',
    run s0 (map Predict [(1, 0, 0); (0, 2, 0)]) = Ok self' /\
    well_shaped self' /\ observed self' = observed s0 /\
    (forall i, (i < dim s0)%nat ->
       get (mu self') i 0 =
       get (mu s0) i 0 + control_sum [(1, 0, 0); (0, 2, 0)] i) /\
    (forall i j, (i < dim s0)%nat -> (j < dim s0)%nat ->
       get (cov self') i j =
       get (cov s0) i j
       + INR (length [(1, 0, 0); (0, 2, 0)]) * pose_noise s0 i j).
Proof.
  apply (X9_predictions_accumulate s0 [(1, 0, 0); (0, 2, 0)]).
  apply init_well_formed.
Defined.

(** X10: with positive sensor variances and motion variances that are not
    negative, no sequence of calls raises: from a well-formed belief with a
    positive semi-definite covariance (the constructor's is one) the
    innovation covariance S is always invertible, so [linalg.inv] never
    raises [LinAlgError] (exact arithmetic).  A run ends in a return or at
    the division by q = 0. *)
Theorem X10_never_raises (self : EKF_vSLAM) (calls : list call) :
  belief_ok self -> noise_ok self ->
  match run self calls with
  | Raised _ _ => False
  | _ => True
  end.
Proof.
  intros Hb Hn.
  destruct (run_belief calls self Hb (proj1 Hn)) as [_ H].
  specialize (H Hn). destruct (run self calls) as [s|e s|s]; auto.
  now apply (H e s).
Qed.

(** X10 at the new estimator with the variances of line 260, seeing tag 7
    twice in one batch. *)
Lemma X10_witness :
  match run s0 [Predict (0, 0, 0); Update [(0, 1, 7%Z); (0, 2, 7%Z)]] with
  | Raised _ _ => False
  | _ => True
  end.
Proof.
  apply (X10_never_raises s0).
  - apply init_belief.
  - apply s0_noise.
Defined.



(** X12: an update never increases a variance.  After an [update_EKF] that
    returns, every diagonal entry of [cov] that existed before is at most
    what it was, and the variances of the landmarks the call registered
    are at most the 1e6 they start from. *)
Theorem X12_update_shrinks_variances (self self' : EKF_vSLAM)
  (landmarks : list (R * R * Z)) :
  belief_ok self ->
  0 <= fst (var_Sensor_noise self) -> 0 <= snd (var_Sensor_noise self) ->
  update_EKF self landmarks = Ok self' ->
  (dim self <= dim self')%nat /\
  forall i, (i < dim self')%nat ->
    0 <= get (cov self') i i <=
    if (i <? dim self)%nat then get (cov self) i i else 1e6.
Proof.
  intros Hb Hr Hphi E.
  destruct (update_EKF_belief self landmarks Hb Hr Hphi) as [Hb' _].
  rewrite E in Hb'. cbn [final state_of] in Hb'.
  destruct Hb' as [[[_ Hcov'] _] Hp'].
  rewrite update_EKF_unfold in E.
  assert (Hinv : loop_inv (self, length (mu self))).
  { split; [apply Hb|]. cbn [fst snd]. destruct Hb as [[[[Hl _] _] _] _].
    exact Hl. }
  destruct (update_loop_variances _ _ _ _ _ landmarks _ self' Hinv Hb
              Hr Hphi E) as [Hd Hv].
  split; [exact Hd|]. intros i Hi. split.
  - now apply (psd_diag_nonneg _ _ i Hcov' Hp').
  - apply (Hv i Hi).
Qed.

(** X12 at the belief [s3] and one more sight of tag 7. *)
Lemma X12_witness :
  (dim s3 <= dim s4)%nat /\
  forall i, (i < dim s4)%nat ->
    0 <= get (cov s4) i i <=
    if (i <? dim s3)%nat then get (cov s3) i i else 1e6.
Proof.
  apply (X12_update_shrinks_variances s3 s4 [(0, 2, 7%Z)]).
  - apply s3_belief.
  - cbn. lra.
  - cbn. lra.
  - apply update_s3_one.
Defined.

(** X13: the detections the loop reads are those of the latest message.
    After any messages (each callback running to its end), the flag
    [apriltag_detected] is set exactly when the last message had
    detections; then [landmarks_Info] is that message's list, and both
    batches the loop builds from it are non-empty, so the loop never calls
    [update_EKF] with an empty batch.  A message without detections clears
    the flag and keeps the list of the last message that had any. *)
Theorem X13_detections_are_current (msgs : list (list detection))
  (g : globals) :
  msgs <> [] ->
  let g' := fold_left apriltag_callback msgs g in
  apriltag_detected g' = negb (Nat.eqb (length (last msgs [])) 0) /\
  landmarks_Info g' = last_detections msgs (landmarks_Info g) /\
  (apriltag_detected g' = true ->
     landmarks_Info g' = last msgs [] /\
     unique_batch (landmarks_Info g') <> [] /\
     batch (landmarks_Info g') <> []).
Proof.
  intros Hne. cbv zeta.
  destruct (apriltag_callback_fold msgs g) as [H1 H2]. cbv zeta in H1, H2.
  destruct (rev_last msgs Hne) as [front Hrev]. rewrite Hrev in H2.
  split; [exact H2|]. split; [exact H1|].
  intros Hflag. rewrite Hflag in H2.
  assert (Hl : last msgs [] <> []).
  { intros E. rewrite E in H2. discriminate. }
  assert (E : landmarks_Info (fold_left apriltag_callback msgs g) =
              last msgs []).
  { rewrite H1. now apply last_detections_nonempty. }
  rewrite E. split; [reflexivity|]. split.
  - now apply unique_batch_nonempty.
  - now apply batch_nonempty.
Qed.

(** X13 at a message with tag 7 followed by an empty message. *)
Lemma X13_witness :
  let d := mkDetection 7 (0, 0, 1) (1, 0, 0, 0) in
  let g' := fold_left apriltag_callback [[d]; []] globals_init in
  apriltag_detected g' = negb (Nat.eqb (length (last [[d]; []] [])) 0) /\
  landmarks_Info g' =
  last_detections [[d]; []] (landmarks_Info globals_init) /\
  (apriltag_detected g' = true ->
     landmarks_Info g' = last [[d]; []] [] /\
     unique_batch (landmarks_Info g') <> [] /\
     batch (landmarks_Info g') <> []).
Proof.
  intros d.
  apply (X13_detections_are_current [[d]; []] globals_init). discriminate.
Defined.

(** X14: the batch of the first cycle at a waypoint (lines 296-313) holds
    every tag of the message once, with the observation of the first
    detection of that tag, in the order of the message: it lists, by
    increasing position, the detections whose tag no earlier detection of
    the message carries.  When the message has no tag twice it is the
    batch of the later cycles (lines 346-358), which takes every
    detection. *)
Theorem X14_first_cycle_batch (info : list detection) :
  let landmarks := unique_batch info in
  let taken := first_positions info in
  (landmarks =
   map (fun p => observation_of (nth p info no_detection)) taken /\
   StronglySorted lt taken /\
   (forall p, In p taken <->
      (p < length info)%nat /\
      forall p', (p' < p)%nat ->
        id (nth p' info no_detection) <> id (nth p info no_detection))) /\
  NoDup (map snd landmarks) /\
  (forall t, In t (map snd landmarks) <-> In t (map id info)) /\
  (exists kept, landmarks = map observation_of kept /\
     forall d, In d kept ->
       find (fun d' => Z.eqb (id d') (id d)) info = Some d) /\
  batch info = map observation_of info /\
  (NoDup (map id info) -> landmarks = batch info).
Proof.
  cbv zeta. split.
  { split; [apply unique_batch_positions|]. apply first_positions_spec. }
  unfold unique_batch. rewrite unique_batch_loop_eq.
  cbn [app]. rewrite observation_tags.
  destruct (first_sightings_spec info []) as [H1 H2]. cbv zeta in H1, H2.
  split; [exact H1|]. split; [|split; [|split]].
  - intros t. rewrite (H2 t). cbn [In]. tauto.
  - exists (first_sightings [] info). split; [reflexivity|].
    intros d. apply first_sightings_first.
  - apply batch_map.
  - intros Hnd. rewrite batch_map, first_sightings_NoDup; auto.
Qed.

(** X15: the layout of the two CSV rows of one telemetry sample.  The
    first row has 4 + 3M fields: the time, the 3 + 2M entries of the mean
    and the M registered tags; the second has (3 + 2M)^2 fields, entry
    (i, j) of the covariance at position i (3 + 2M) + j. *)
Theorem X15_telemetry_layout (time_counter : R) (self : EKF_vSLAM) :
  well_shaped self ->
  let M := length (observed self) in
  let n := (3 + 2 * M)%nat in
  let data := fst (telemetry_rows time_counter (mu self) self) in
  let covariance := snd (telemetry_rows time_counter (mu self) self) in
  length data = (4 + 3 * M)%nat /\
  length covariance = (n * n)%nat /\
  nth 0 data (Int 0) = Float time_counter /\
  (forall i, (i < n)%nat ->
     nth (1 + i) data (Int 0) = Float (get (mu self) i 0)) /\
  (forall k, (k < M)%nat ->
     nth (1 + n + k) data (Float 0) = Int (nth k (observed self) 0%Z)) /\
  (forall i j, (i < n)%nat -> (j < n)%nat ->
     nth (i * n + j) covariance (Int 0) = Float (get (cov self) i j)).
Proof.
  intros [Hmu Hcov]. cbv zeta. unfold telemetry_rows. cbn [fst snd].
  fold (dim self).
  pose proof (length_flatten _ _ _ Hmu) as Lmu.
  pose proof (length_flatten _ _ _ Hcov) as Lcov.
  rewrite Nat.mul_1_r in Lmu.
  repeat split.
  - cbn [app length]. rewrite length_app, !length_map, Lmu.
    unfold dim. lia.
  - now rewrite length_map.
  - intros i Hi. cbn [app Nat.add nth].
    rewrite app_nth1 by (rewrite length_map; lia).
    rewrite (nth_indep _ (Int 0) (Float 0)) by (rewrite length_map; lia).
    rewrite map_nth. f_equal.
    replace i with (i * 1 + 0)%nat at 1 by lia.
    apply (nth_flatten _ (dim self) 1); auto.
  - intros k Hk. cbn [app Nat.add nth].
    rewrite app_nth2 by (rewrite length_map; lia).
    rewrite length_map, Lmu.
    replace (dim self + k - dim self)%nat with k by lia.
    rewrite (nth_indep _ (Float 0) (Int 0)) by (rewrite length_map; lia).
    now rewrite map_nth.
  - intros i j Hi Hj.
    rewrite (nth_indep _ (Int 0) (Float 0)) by (rewrite length_map; nia).
    rewrite map_nth. f_equal. now apply (nth_flatten _ (dim self)).
Qed.

(** X15 at the belief [s2], which holds tag 7. *)
Lemma X15_witness :
  let M := length (observed s2) in
  let n := (3 + 2 * M)%nat in
  let data := fst (telemetry_rows 0.2 (mu s2) s2) in
  let covariance := snd (telemetry_rows 0.2 (mu s2) s2) in
  length data = (4 + 3 * M)%nat /\
  length covariance = (n * n)%nat /\
  nth 0 data (Int 0) = Float 0.2 /\
  (forall i, (i < n)%nat ->
     nth (1 + i) data (Int 0) = Float (get (mu s2) i 0)) /\
  (forall k, (k < M)%nat ->
     nth (1 + n + k) data (Float 0) = Int (nth k (observed s2) 0%Z)) /\
  (forall i j, (i < n)%nat -> (j < n)%nat ->
     nth (i * n + j) covariance (Int 0) = Float (get (cov s2) i j)).
Proof.
  apply (X15_telemetry_layout 0.2 s2).
  pose proof (update_EKF_state s1 [(0, 1, 7%Z)] (proj1 s1_belief))
    as [H _].
  rewrite update_s1 in H. apply H.
Defined.

(** X16: a first cycle at a waypoint that sees only tags that are not
    registered hands the controller the dead-reckoned pose.  With a
    positive semi-definite belief and positive sensor variances, when
    every detection has a new tag and is not at the camera's origin, the
    cycle returns, [current_state] is the old pose plus the control, and
    the registry grows by the message's tags, each once. *)
Theorem X16_cycle_with_new_tags (self : EKF_vSLAM) (vx vy w : R)
  (g : globals) :
  belief_ok self -> noise_ok self ->
  apriltag_detected g = true ->
  (forall d, In d (landmarks_Info g) ->
     ~ In (id d) (observed self) /\ off_origin (observation_of d)) ->
  exists self',
    cycle true self (vx, vy, w) g = Ok (self', mu self') /\
    current_state (mu self') =
    [get (mu self) 0 0 + vx; get (mu self) 1 0 + vy;
     get (mu self) 2 0 + w] /\
    observed self' =
    observed self ++ map id (first_sightings [] (landmarks_Info g)).
Proof.
  intros Hb Hn Hflag Hnew. pose proof Hn as [(Hs1 & Hs2 & _) [Hr Hphi]].
  unfold cycle. rewrite Hflag.
  set (self1 := predict_EKF self (vx, vy, w)).
  assert (Hb1 : belief_ok self1) by now apply predict_EKF_belief.
  assert (Hobs1 : observed self1 = observed self) by reflexivity.
  unfold unique_batch. rewrite unique_batch_loop_eq. cbn [app].
  set (kept := first_sightings [] (landmarks_Info g)).
  destruct (first_sightings_spec (landmarks_Info g) []) as [Hnd _].
  cbv zeta in Hnd. fold kept in Hnd.
  destruct (first_sightings_update self1
              (map observation_of kept))
    as (self' & E & Hmu & Hobs); auto.
  - now rewrite observation_tags.
  - rewrite observation_tags. intros t Hin.
    apply in_map_iff in Hin. destruct Hin as [d [<- Hd]].
    rewrite Hobs1. apply Hnew. now apply (first_sightings_incl _ []).
  - apply Forall_forall. intros ob Hin.
    apply in_map_iff in Hin. destruct Hin as [d [<- Hd]].
    apply Hnew. now apply (first_sightings_incl _ []).
  - exists self'. rewrite E. cbn [bind]. split; [reflexivity|].
    rewrite Hmu, Hobs, observation_tags, Hobs1. split; [|reflexivity].
    rewrite current_state_app.
    + apply predict_EKF_pose. apply Hb.
    + destruct Hb1 as [[[[Hl _] _] _] _]. rewrite Hl. unfold dim. lia.
Qed.

(** X16 at the new estimator and a message with tag 7, one metre ahead. *)
Lemma X16_witness :
  let g := apriltag_callback globals_init
             [mkDetection 7 (0, 0, 1) (1, 0, 0, 0)] in
  exists self',
    cycle true s0 (0, 0, 0) g = Ok (self', mu self') /\
    current_state (mu self') =
    [get (mu s0) 0 0 + 0; get (mu s0) 1 0 + 0; get (mu s0) 2 0 + 0] /\
    observed self' =
    observed s0 ++ map id (first_sightings [] (landmarks_Info g)).
Proof.
  intros g. apply (X16_cycle_with_new_tags s0 0 0 0 g).
  - apply init_belief.
  - apply s0_noise.
  - reflexivity.
  - intros d [<-|[]]. split; [intros []|]. right. cbn. lra.
Defined.

End More.

(** ** Properties of the map helpers *)

Module MoreRoomba.
Import PrimFloat.
Import Roomba RoombaFacts.
Local Open Scope Z_scope.

(** X17: a cell and its ground position.  On the map the script builds
    (31 x 31 cells of 0.1 m), the ground position [array_to_ground_transform]
    gives for a cell lies in that cell: [ground_to_array_transform] brings
    it back, in binary64 arithmetic, for every cell; so does the position
    [grid_to_ground_transform] gives for the same cell in the grid frame
    (column, row) of the coverage planner. *)
Theorem X17_cells_round_trip (x y : Z) :
  0 <= x < arr_h -> 0 <= y < arr_w ->
  (g <- array_to_ground_transform (x, y) ;; ground_to_array_transform g)
  = Return (x, y) /\
  (g <- grid_to_ground_transform map (y, x) ;; ground_to_array_transform g)
  = Return (x, y).
Proof.
  intros Hx Hy. split.
  - now apply array_round_trip.
  - now apply grid_round_trip.
Qed.

(** X17 at the start cell (24, 6). *)
Lemma X17_witness :
  (g <- array_to_ground_transform (24, 6) ;; ground_to_array_transform g)
  = Return (24, 6) /\
  (g <- grid_to_ground_transform map (6, 24) ;; ground_to_array_transform g)
  = Return (24, 6).
Proof.
  apply (X17_cells_round_trip 24 6); rewrite ?arr_h_31, ?arr_w_31; lia.
Defined.

(** X18: [add_obs] on an array of the map's shape never raises and never
    writes through a negative index: it returns, and a cell (x, y) of the
    array holds 1 when min_x - 3 <= x <= max_x + 3 and
    min_y - 3 <= y <= max_y + 3 (the box grown by one cell and the
    clearance of two) and is unchanged otherwise, whatever the four ints. *)
Theorem X18_add_obs (m : grid) (min_x min_y max_x max_y : Z) :
  grid_shape m arr_h arr_w ->
  exists m',
    add_obs m min_x min_y max_x max_y = Return m' /\
    grid_shape m' arr_h arr_w /\
    forall x y, 0 <= x < arr_h -> 0 <= y < arr_w ->
      item m' x y =
      if ((min_x - 3 <=? x) && (x <=? max_x + 3))
         && ((min_y - 3 <=? y) && (y <=? max_y + 3))
      then 1%float else item m x y.
Proof. apply add_obs_returns. Qed.

(** X18 at the script's map and a box that sticks out of it. *)
Lemma X18_witness :
  exists m',
    add_obs map (-5) 10 1 12 = Return m' /\
    grid_shape m' arr_h arr_w /\
    forall x y, 0 <= x < arr_h -> 0 <= y < arr_w ->
      item m' x y =
      if ((-5 - 3 <=? x) && (x <=? 1 + 3))
         && ((10 - 3 <=? y) && (y <=? 12 + 3))
      then 1%float else item map x y.
Proof. apply (X18_add_obs map (-5) 10 1 12). apply map_shape. Defined.

(** X19: the waypoints of a path.  [generate_waypoints] raises
    [IndexError] on the empty path.  On a path whose turns are in the map
    it returns one waypoint per change of action, in order, followed by one
    for [arr_goal] whatever the path; each waypoint lies in the cell it was
    made for: the cell of the track where the action changes, the goal cell
    for the last. *)
Theorem X19_waypoints (prev_action : Z * Z) (path : list (Z * Z)) :
  let arr_track :=
    (fst arr_start + fst prev_action, snd arr_start + snd prev_action) in
  let turns := corners path arr_track prev_action in
  Forall in_map turns ->
  generate_waypoints [] = Raise IndexError /\
  exists waypoints,
    generate_waypoints (prev_action :: path) = Return waypoints /\
    length waypoints = S (length turns) /\
    Forall2 (fun c wp => ground_to_array_transform wp = Return c)
            (turns ++ [arr_goal]) waypoints.
Proof.
  intros arr_track turns Hin. split; [reflexivity|].
  unfold generate_waypoints. fold arr_track.
  rewrite waypoints_loop_corners. fold turns.
  destruct (transform_all_in_map (turns ++ [arr_goal])) as (ws & E & Hws).
  { apply Forall_app. split; [exact Hin|].
    constructor; [apply arr_goal_in_map|constructor]. }
  rewrite E. cbn [and_then app]. exists ws. split; [reflexivity|].
  split; [|exact Hws].
  apply Forall2_length in Hws. rewrite length_app in Hws. cbn in Hws. lia.
Qed.

(** X19 at a path that goes up twice, then right twice. *)
Lemma X19_witness :
  generate_waypoints [] = Raise IndexError /\
  exists waypoints,
    generate_waypoints [(-1, 0); (-1, 0); (0, 1); (0, 1)]
    = Return waypoints /\
    length waypoints = 2%nat /\
    Forall2 (fun c wp => ground_to_array_transform wp = Return c)
            [(22, 6); arr_goal] waypoints.
Proof.
  apply (X19_waypoints (-1, 0) [(-1, 0); (0, 1); (0, 1)]).
  replace (corners _ _ _) with [(22, 6)] by (vm_compute; reflexivity).
  constructor; [|constructor].
  unfold in_map. rewrite arr_h_31, arr_w_31. cbn. lia.
Defined.

(** X20: the headings of the coverage waypoints (lines 357-364): there is
    one per waypoint, and waypoint id gets 0 when id mod 4 = 0, pi/2 when
    id mod 4 is 1 or 3, and pi when id mod 4 = 2; no entry keeps the zero
    of [np.zeros] by falling through the chain of tests. *)
Theorem X20_coverage_thetas (n id : nat) :
  (id < n)%nat ->
  length (coverage_thetas n) = n /\
  nth id (coverage_thetas n) 0%float =
  match (id mod 4)%nat with
  | 0%nat => 0%float
  | 1%nat | 3%nat => (np_pi / 2)%float
  | _ => np_pi
  end.
Proof.
  intros Hid. unfold coverage_thetas. split.
  - now rewrite length_map, length_seq.
  - rewrite (nth_indep _ 0%float (coverage_theta n 0 0%float))
      by now rewrite length_map, length_seq.
    rewrite (map_nth (fun id => coverage_theta n id 0%float)).
    rewrite seq_nth by exact Hid. now apply coverage_theta_mod.
Qed.

(** X20 at the fourth of six waypoints. *)
Lemma X20_witness :
  length (coverage_thetas 6) = 6%nat /\
  nth 3 (coverage_thetas 6) 0%float =
  match (3 mod 4)%nat with
  | 0%nat => 0%float
  | 1%nat | 3%nat => (np_pi / 2)%float
  | _ => np_pi
  end.
Proof. apply (X20_coverage_thetas 6 3). lia. Defined.

End MoreRoomba.
